(** * pyrolite: ternary geometry, percentile contours and the meltsfile codec

    A shallow embedding of [pyrolite/util/plot.py] and
    [pyrolite/util/alphamelts/meltsfile.py].

    Numbers.  The Python code computes on IEEE-754 binary64 numbers.  The
    functions of the coordinate converter are written once, over an abstract
    arithmetic ([Arith]), and read at two instances: exact rationals ([Q]),
    where the algebra of the code is proved, and the kernel's binary64 floats
    ([PrimFloat]), where the code is evaluated bit for bit.  The contour solver
    and the margin of the heatmap are read in exact rationals.  The meltsfile
    codec keeps a number as the numeral Python prints for it.  The round trip
    of the converter is also read in round-to-nearest binary64 on the
    rationals, and in any arithmetic on the rationals that rounds within a
    stated accuracy ([Rounding]).  What the solver does once its table is
    computed is read for whatever numbers were computed
    ([contours_from_table]).

    Effects.  A function that may raise returns a [result]; the solver also
    returns the debug log it writes; the reader takes the file system it opens
    paths in.

    Libraries.  numpy, SciPy and pandas are read as they document themselves;
    the two helpers of pyrolite that are not among the sources ([close] and
    [to_numeric]) are modelled from the specification and say so. *)

From Stdlib Require Import String Ascii.
From Stdlib Require Import List Sorted ZArith QArith Qabs Qround Qpower Lqa Lia Bool Morphisms
  RelationClasses.
From Stdlib Require Import Floats.
From Stdlib Require DecimalString.
Import ListNotations.

Set Implicit Arguments.

(** ** Python exceptions and results *)

Inductive exn : Type :=
| AssertionError
| ValueError
| AttributeError
| FileNotFoundError
| KeyError
| IndexError
| UnicodeDecodeError
| IsADirectoryError
| PermissionError
| OSError
| ZeroDivisionError.

Inductive result (A : Type) : Type :=
| Ok (a : A)
| Raise (e : exn).

Arguments Ok {A} a.
Arguments Raise {A} e.

Definition bind {A B : Type} (r : result A) (k : A -> result B) : result B :=
  match r with
  | Ok a => k a
  | Raise e => Raise e
  end.

Notation "x <- r ;; k" := (bind r (fun x => k))
  (at level 61, r at next level, right associativity).

(** ** The arithmetic the arrays are computed in *)

Class Arith (T : Type) : Type := {
  of_Z : Z -> T;
  add : T -> T -> T;
  sub : T -> T -> T;
  mul : T -> T -> T;
  div : T -> T -> T
}.

Declare Scope arith_scope.
Delimit Scope arith_scope with ar.
Infix "+" := add : arith_scope.
Infix "-" := sub : arith_scope.
Infix "*" := mul : arith_scope.
Infix "/" := div : arith_scope.

#[export] Instance Q_arith : Arith Q := {
  of_Z := inject_Z;
  add := Qplus;
  sub := Qminus;
  mul := Qmult;
  div := Qdiv
}.

#[export] Instance binary64_arith : Arith float := {
  of_Z := fun z => match z with
                   | Z0 => PrimFloat.zero
                   | Zpos _ => PrimFloat.of_uint63 (Uint63.of_Z z)
                   | Zneg p => PrimFloat.opp (PrimFloat.of_uint63 (Uint63.of_Z (Zpos p)))
                   end;
  add := PrimFloat.add;
  sub := PrimFloat.sub;
  mul := PrimFloat.mul;
  div := PrimFloat.div
}.

(** [x == 0], the test on which Python's scalar division raises a
    [ZeroDivisionError]. *)
Class ZeroTest (T : Type) : Type := is_zero : T -> bool.

#[export] Instance Q_zero : ZeroTest Q := fun x => Qeq_bool x 0.

#[export] Instance binary64_zero : ZeroTest float := fun x => PrimFloat.eqb x 0.

(** ** numpy arrays

    A 2-D array is the list of its rows.  numpy arrays carry their shape; the
    list model is told the number of columns where [.T] needs it. *)

Module Plot.

Section Arrays.
Context {T : Type} `{Arith T} `{ZeroTest T}.
Local Open Scope arith_scope.

Definition array2 : Type := list (list T).

(** [np.sum] of a 1-D array. *)
Definition sum (r : list T) : T := fold_left add r (of_Z 0).

(** [np.ones(n)]. *)
Definition ones (n : nat) : list T := repeat (of_Z 1) n.

(** [a.T] for an array [a] with [w] columns. *)
Definition transpose (w : nat) (a : array2) : array2 :=
  map (fun j => map (fun r => nth j r (of_Z 0)) a) (seq 0 w).

(** [np.vstack((a, b))]. *)
Definition vstack (a b : array2) : array2 := a ++ b.

Definition dot (u v : list T) : T :=
  sum (map (fun p => fst p * snd p) (combine u v)).

(** [m @ b], where [b] has [w] columns. *)
Definition matmul (w : nat) (m b : array2) : array2 :=
  map (fun row => map (dot row) (transpose w b)) m.

(** [affine_transform(mtx)]: the closure [tfm].
<<
    xy = data[:, :2]
    return (mtx @ np.vstack((xy.T[:2], np.ones(xy.T.shape[1]))))[:2]
>>  *)
Definition affine_transform (mtx : array2) (data : array2) : array2 :=
  let xy := map (firstn 2) data in
  let xyT := transpose 2 xy in
  let n := length xy in
  firstn 2 (matmul n mtx (vstack (firstn 2 xyT) [ones n])).

(** Modelled from the spec: [pyrolite.comp.codata.close], which is not among
    the sources; "Closure: normalizing a compositional vector so its parts sum
    to 1": every part is divided by the sum of its row. *)
Definition close (X : array2) : array2 :=
  map (fun r => map (fun v => v / sum r) r) X.

Definition shape_last_is (k : nat) (a : array2) : bool :=
  forallb (fun r => Nat.eqb (length r) k) a.

(** [ABC_to_xy(ABC, xscale, yscale)]. *)
Definition ABC_to_xy (ABC : array2) (xscale yscale : T) : result array2 :=
  if shape_last_is 3 ABC then
    let n := length ABC in
    let scale := affine_transform
      [[xscale; of_Z 0; of_Z 0]; [of_Z 0; yscale; of_Z 0]; [of_Z 0; of_Z 0; of_Z 1]] in
    let shear := affine_transform
      [[of_Z 1; of_Z 1 / of_Z 2; of_Z 0]; [of_Z 0; of_Z 1; of_Z 0]; [of_Z 0; of_Z 0; of_Z 1]] in
    let xy := scale (transpose n (shear (close ABC))) in
    Ok (transpose n xy)
  else Raise AssertionError.

(** [1 / x] on Python scalars, as the scales are: a [ZeroDivisionError] when
    [x] is zero. *)
Definition reciprocal (x : T) : result T :=
  if is_zero x then Raise ZeroDivisionError else Ok (of_Z 1 / x).

(** [xy_to_ABC(xy, xscale, yscale)]. *)
Definition xy_to_ABC (xy : array2) (xscale yscale : T) : result array2 :=
  if shape_last_is 2 xy then
    rx <- reciprocal xscale ;;
    ry <- reciprocal yscale ;;
    let n := length xy in
    let scale := affine_transform
      [[rx; of_Z 0; of_Z 0]; [of_Z 0; ry; of_Z 0]; [of_Z 0; of_Z 0; of_Z 1]] in
    let shear := affine_transform
      [[of_Z 1; of_Z (-1) / of_Z 2; of_Z 0]; [of_Z 0; of_Z 1; of_Z 0]; [of_Z 0; of_Z 0; of_Z 1]] in
    match shear (transpose n (scale xy)) with
    | [xs; ys] =>
        let zs := map (fun p => of_Z 1 - (fst p + snd p)) (combine xs ys) in
        Ok (transpose n (vstack [xs; ys] [zs]))
    | _ => Raise ValueError
    end
  else Raise AssertionError.

(** *** The same functions, one point at a time

    [apply_affine r0 r1 p] is the image of the point [p] under the matrix
    whose first two rows are [r0] and [r1]; [to_xy_row] and [to_ABC_row] are
    what [ABC_to_xy] and [xy_to_ABC] compute for one row (lemmas
    [ABC_to_xy_rows] and [xy_to_ABC_rows]). *)
Definition apply_affine (r0 r1 p : list T) : list T :=
  let v := [nth 0 p (of_Z 0); nth 1 p (of_Z 0); of_Z 1] in
  [dot r0 v; dot r1 v].

Definition close_row (r : list T) : list T := map (fun v => v / sum r) r.

Definition to_xy_row (xscale yscale : T) (r : list T) : list T :=
  apply_affine [xscale; of_Z 0; of_Z 0] [of_Z 0; yscale; of_Z 0]
    (apply_affine [of_Z 1; of_Z 1 / of_Z 2; of_Z 0] [of_Z 0; of_Z 1; of_Z 0] (close_row r)).

Definition to_ABC_row (xscale yscale : T) (p : list T) : list T :=
  let q := apply_affine [of_Z 1; of_Z (-1) / of_Z 2; of_Z 0] [of_Z 0; of_Z 1; of_Z 0]
             (apply_affine [of_Z 1 / xscale; of_Z 0; of_Z 0] [of_Z 0; of_Z 1 / yscale; of_Z 0] p) in
  let a := nth 0 q (of_Z 0) in
  let b := nth 1 q (of_Z 0) in
  [a; b; of_Z 1 - (a + b)].

End Arrays.

(** The tolerance of the round-trip property, and what "within it" means. *)
Definition tol : Q := 1 # 1000000000.

Definition approx (eps u v : Q) : Prop := Qabs (u - v) <= eps.

(** The rational a finite binary64 number is. *)
Definition float_to_Q (f : float) : option Q :=
  match Prim2SF f with
  | S754_zero _ => Some 0
  | S754_finite s m e =>
      let v := (inject_Z (Zpos m) * Qpower 2 e)%Q in Some (if s then - v else v)
  | _ => None
  end.

(** [np.sqrt(3) / 2], the y scale of the equilateral aspect, in binary64 and
    as the rational it is ([sqrt3_2], lemma [sqrt3_2_value]). *)
Definition sqrt3_2_binary64 : float := (PrimFloat.sqrt 3 / 2)%float.

Definition sqrt3_2 : Q := 7800463371553962 # 9007199254740992.

(** Whether two binary64 arrays agree within [eps], entry by entry. *)
Definition within_binary64 (eps : Q) (u v : float) : bool :=
  match float_to_Q u, float_to_Q v with
  | Some p, Some q => Qle_bool (Qabs (p - q)) eps
  | _, _ => false
  end.

Fixpoint all2 (A : Type) (f : A -> A -> bool) (l m : list A) : bool :=
  match l, m with
  | [], [] => true
  | a :: l', b :: m' => f a b && all2 f l' m'
  | _, _ => false
  end.

(** A composition: three positive parts that sum to one. *)
Definition composition (r : list Q) : Prop :=
  exists a b c, r = [a; b; c] /\ 0 < a /\ 0 < b /\ 0 < c /\ sum r == 1.

(** A composition as binary64 numbers hold it: three positive parts whose
    exact sum is one within [d]. *)
Definition composition_within (d : Q) (r : list Q) : Prop :=
  exists a b c, r = [a; b; c] /\ 0 < a /\ 0 < b /\ 0 < c /\ Qabs (a + b + c - 1) <= d.

(** The rows of the scenario of the specification, as binary64 numbers. *)
Definition spec_rows : list (list float) :=
  [[8 / 10; 1 / 10; 1 / 10]; [33 / 100; 33 / 100; 34 / 100]]%float.

(** The rational of a finite binary64 number, zero for the others. *)
Definition binary64_value (f : float) : Q :=
  match float_to_Q f with
  | Some q => q
  | None => 0
  end.

(** ** The percentile contour solver

    The solver is read in exact rational arithmetic.  A density matrix is the
    list of its rows. *)

Definition cells (z : list (list Q)) : list Q := concat z.

Definition Qmax' (a b : Q) : Q := if Qle_bool a b then b else a.

(** [a.max()] and [np.nanmax(a)]: a [ValueError] on an empty array. *)
Definition array_max (a : list Q) : result Q :=
  match a with
  | [] => Raise ValueError
  | x :: a' => Ok (fold_left Qmax' a' x)
  end.

(** [np.linspace(start, stop, num)]: [num] evenly spaced samples, the last one
    set to [stop]. *)
Definition linspace (start stop : Q) (num : nat) : list Q :=
  match num with
  | O => []
  | 1%nat => [start]
  | S n =>
      let step := (stop - start) / inject_Z (Z.of_nat n) in
      map (fun i => inject_Z (Z.of_nat i) * step + start) (seq 0 n) ++ [stop]
  end.

(** One entry of [((z >= t[:, None, None]) * z).sum(axis=(1, 2))]: the mass of
    the cells at or above the threshold [t]. *)
Definition mass_above (z : list (list Q)) (t : Q) : Q :=
  sum (map (fun v => (if Qle_bool t v then 1 else 0) * v) (cells z)).

(** *** [scipy.interpolate.interp1d], linear

    SciPy refuses fewer than two knots with a [ValueError], sorts the knots
    by [x] with a stable sort, refuses at call time an argument outside
    [x[0], x[-1]] with a [ValueError], and interpolates with
    [np.interp]: for [x] in the last interval [x_j <= x < x_j+1] it returns
    [y_j] when [x = x_j] and [slope * (x - x_j) + y_j] otherwise. *)
Fixpoint insert_knot (k : Q * Q) (l : list (Q * Q)) : list (Q * Q) :=
  match l with
  | [] => [k]
  | h :: l' => if Qle_bool (fst k) (fst h) then k :: l else h :: insert_knot k l'
  end.

Definition sort_knots (l : list (Q * Q)) : list (Q * Q) :=
  fold_right insert_knot [] l.

Definition interp1d (x y : list Q) : result (list (Q * Q)) :=
  match x with
  | _ :: _ :: _ => Ok (sort_knots (combine x y))
  | _ => Raise ValueError
  end.

Fixpoint interp_linear (knots : list (Q * Q)) (x : Q) : Q :=
  match knots with
  | [] => 0
  | (x0, y0) :: tl =>
      match tl with
      | [] => y0
      | (x1, y1) :: _ =>
          if Qle_bool x1 x then interp_linear tl x
          else if Qeq_bool x x0 then y0
          else (y1 - y0) / (x1 - x0) * (x - x0) + y0
      end
  end.

Definition out_of_bounds (knots : list (Q * Q)) (x : Q) : bool :=
  match knots with
  | [] => true
  | k :: _ => negb (Qle_bool (fst k) x) || negb (Qle_bool x (fst (last knots k)))
  end.

Definition interp_call (knots : list (Q * Q)) (x_new : list Q) : result (list Q) :=
  if existsb (out_of_bounds knots) x_new then Raise ValueError
  else Ok (map (interp_linear knots) x_new).

(** [sorted(percentiles, reverse=True)]: a stable sort into descending order. *)
Fixpoint insert_desc (p : Q) (l : list Q) : list Q :=
  match l with
  | [] => [p]
  | h :: l' => if Qle_bool h p then p :: l else h :: insert_desc p l'
  end.

Definition sorted_reverse (l : list Q) : list Q := fold_right insert_desc [] l.

(** [np.isclose(a, b)] with the default tolerances: [|a - b| <= atol + rtol * |b|]. *)
Definition isclose (a b : Q) : bool :=
  Qle_bool (Qabs (a - b)) ((1 # 100000000) + (1 # 100000) * Qabs b).

Inductive label : Type :=
| Percentile (p : Q)
| Min.

Definition debug_message : string :=
  "Percentile contour below minimum for given resolutionReturning Minimium.".

(** The thresholds [t] and the integrals the solver tabulates. *)
Definition thresholds (z : list (list Q)) (resolution : nat) : result (list Q) :=
  zmax <- array_max (cells z) ;; Ok (linspace 0 zmax resolution).

Definition integrals (z : list (list Q)) (t : list Q) : list Q := map (mass_above z) t.

(** The statements of the solver from [f = interp1d(integral, t)] on, once
    the thresholds [t], the integrals and the targets
    [np.array(percentiles) * z.sum()] are computed, with [close_to_one] for
    [np.isclose(integral, np.ones_like(integral))]: the debug log that is
    written, and what is returned or raised.  Nothing in them depends on how
    the numbers were rounded. *)
Definition contours_from_table (close_to_one : Q -> bool) (t integral : list Q)
    (percentiles targets : list Q) : list string * result (list label * list Q) :=
  match interp1d integral t with
  | Raise e => ([], Raise e)
  | Ok f =>
      match interp_call f targets with
      | Ok t_contours => ([], Ok (map Percentile percentiles, t_contours))
      | Raise ValueError =>
          let non_one := filter (fun v => negb (close_to_one v)) integral in
          ([debug_message],
           m <- array_max non_one ;;
           c <- interp_call f [m] ;;
           Ok ([Min], c))
      | Raise e => ([], Raise e)
      end
  end.

(** [percentile_contour_values_from_meshz(z, percentiles, resolution)]: the
    debug log it writes, and what it returns or raises. *)
Definition percentile_contour_values_from_meshz
    (z : list (list Q)) (percentiles : list Q) (resolution : nat)
  : list string * result (list label * list Q) :=
  let percentiles := sorted_reverse percentiles in
  match thresholds z resolution with
  | Raise e => ([], Raise e)
  | Ok t =>
      contours_from_table (fun v => isclose v 1) t (integrals z t) percentiles
        (map (fun p => p * sum (cells z)) percentiles)
  end.

(** The labels and thresholds of a result, the numbers in lowest terms. *)
Definition contours (r : list string * result (list label * list Q)) : result (list label * list Q) :=
  match snd r with
  | Ok (ls, ts) =>
      Ok (map (fun l => match l with Percentile p => Percentile (Qred p) | Min => Min end) ls,
          map Qred ts)
  | Raise e => Raise e
  end.

(** *** Properties of a run of the solver *)

(** The integral a percentile asks for: [p * z.sum()]. *)
Definition target (z : list (list Q)) (p : Q) : Q := p * sum (cells z).

(** A percentile is achievable when its target lies in the range of the
    tabulated integrals. *)
Definition achievable (z : list (list Q)) (t : list Q) (p : Q) : Prop :=
  exists lo hi,
    In lo (integrals z t) /\ In hi (integrals z t) /\ lo <= target z p <= hi.




(** How many thresholds tabulate the integral [v]. *)
Definition occurrences (v : Q) (l : list Q) : nat :=
  length (filter (fun u => Qeq_bool u v) l).

Definition knot_le (a b : Q * Q) : Prop := fst a <= fst b.


(** A knot of the table pairs a threshold that is not negative with the mass
    above it. *)
Definition knot_of (z : list (list Q)) (k : Q * Q) : Prop :=
  fst k = mass_above z (snd k) /\ 0 <= snd k.

(** The interpolation table of a run: the knots [(integral, threshold)],
    sorted by integral. *)
Definition table (z : list (list Q)) (t : list Q) : list (Q * Q) :=
  sort_knots (combine (integrals z t) t).


(** ** The head of [ternary_heatmap]: margin and bounds

    [ternary_heatmap] closes the data, settles the margin, and builds the three
    corners of what will be rendered with their Cartesian coordinates, before
    it fits the boundary spline. *)

(** [np.nanmin(a)]: a [ValueError] on an empty array. *)
Definition array_min (a : list Q) : result Q :=
  match a with
  | [] => Raise ValueError
  | x :: a' => Ok (fold_left (fun u v => if Qle_bool u v then u else v) a' x)
  end.

(** [data[data > 0]]. *)
Definition positive_entries (data : list (list Q)) : list Q :=
  filter (fun v => negb (Qle_bool v 0)) (concat data).

(** Python's [min([a, b])]. *)
Definition pymin (a b : Q) : Q := if Qle_bool a b then a else b.

(** [AXtfm = lambda x: ABC_to_xy(x, yscale=yscale).T]. *)
Definition AXtfm (yscale : Q) (x : list (list Q)) : result (list (list Q)) :=
  xy <- ABC_to_xy x 1 yscale ;; Ok (transpose 2 xy).

(** The margin [ternary_heatmap] works with. *)
Definition effective_margin (data : list (list Q)) (margin : Q) (force_margin : bool)
  : result Q :=
  let data := close data in
  if negb force_margin then
    m <- array_min (positive_entries data) ;; Ok (pymin margin m)
  else Ok margin.

Definition bounds (margin : Q) : list (list Q) :=
  [[margin; margin; 1 - 2 * margin];
   [margin; 1 - 2 * margin; margin];
   [1 - 2 * margin; margin; margin]].

(** The bounds and their Cartesian coordinates [xbounds, ybounds]. *)
Definition heatmap_bounds (data : list (list Q)) (margin : Q) (force_margin : bool)
    (yscale : Q) : result (list (list Q) * list (list Q)) :=
  margin <- effective_margin data margin force_margin ;;
  xy <- AXtfm yscale (bounds margin) ;;
  Ok (bounds margin, xy).

(** [bin_centres_to_edges(centres)]. *)
Definition bin_centres_to_edges (centres : list Q) : result (list Q) :=
  match centres with
  | c0 :: c1 :: _ =>
      let step := (c1 - c0) / 2 in
      Ok (map (fun c => c - step) centres ++ [last centres 0 + step])
  | _ => Raise IndexError
  end.

(** The extent of a coordinate: largest minus smallest. *)
Definition extent (l : list Q) : Q :=
  match array_max l, array_min l with
  | Ok hi, Ok lo => hi - lo
  | _, _ => 0
  end.

(** Bounds are non-degenerate when every part of every corner is positive (the
    corners are inside the simplex, off its vertices and edges) and the corners
    span a positive width and a positive height in the plane. *)
Definition nondegenerate (r : list (list Q) * list (list Q)) : Prop :=
  Forall (Forall (Qlt 0)) (fst r) /\ Forall (fun c => 0 < extent c) (snd r).

(** ** Bin centres from bin edges

    An array of edges has one axis or two; [ndim] tells which. *)
Inductive ndarray : Type :=
| Array1 (a : list Q)
| Array2 (a : list (list Q)).

(** [a + b] and [a - b] on two arrays of the same shape, entry by entry. *)
Definition zip_with (f : Q -> Q -> Q) (a b : list Q) : list Q :=
  map (fun p => f (fst p) (snd p)) (combine a b).

Definition zip_with2 (f : Q -> Q -> Q) (a b : list (list Q)) : list (list Q) :=
  map (fun p => zip_with f (fst p) (snd p)) (combine a b).

(** [bin_edges_to_centres(edges)]: [edges[1:]] is the tail, [edges[:-1]] all
    but the last; [edges[1:, 1:]] and [edges[:-1, :-1]] are the same on the
    rows and inside each row. *)
Definition bin_edges_to_centres (edges : ndarray) : ndarray :=
  match edges with
  | Array1 e =>
      let steps := map (fun d => d / 2) (zip_with Qminus (tl e) (removelast e)) in
      Array1 (zip_with Qplus (removelast e) steps)
  | Array2 e =>
      let upper := map (@tl Q) (tl e) in
      let lower := map (@removelast Q) (removelast e) in
      let steps := map (map (fun d => d / 2)) (zip_with2 Qminus upper lower) in
      Array2 (zip_with2 Qplus lower steps)
  end.

(** The entries of [l] are evenly spaced: entry [i] is [start + i * step]. *)
Definition evenly_spaced (start step : Q) (l : list Q) : Prop :=
  forall i, (i < length l)%nat -> nth i l 0 == start + inject_Z (Z.of_nat i) * step.

End Plot.

Import Plot.

(** * Rounding

    An arithmetic on the rationals is accurate when every sum, difference,
    product and quotient it computes whose exact value is at most [range] in
    absolute value is within a relative error [u] and an absolute error [eta]
    of the exact one, and the small integer literals are exact.
    Round-to-nearest binary64, read on the rationals ([binary64_Q]), is
    accurate with [u = 2^-53], [eta = 2^-1075] and any [range]; exact
    arithmetic is accurate with any [u], [eta] and [range]. *)

Module Rounding.

Record accurate (A : Arith Q) (u eta range : Q) : Prop := {
  acc_u : 0 <= u;
  acc_eta : 0 <= eta;
  acc_lit : forall z, (-2 <= z <= 2)%Z -> @of_Z Q A z == inject_Z z;
  acc_add : forall x y, Qabs (x + y) <= range ->
            Qabs (@add Q A x y - (x + y)) <= u * Qabs (x + y) + eta;
  acc_sub : forall x y, Qabs (x - y) <= range ->
            Qabs (@sub Q A x y - (x - y)) <= u * Qabs (x - y) + eta;
  acc_mul : forall x y, Qabs (x * y) <= range ->
            Qabs (@mul Q A x y - x * y) <= u * Qabs (x * y) + eta;
  acc_div : forall x y, ~ y == 0 -> Qabs (x / y) <= range ->
            Qabs (@div Q A x y - x / y) <= u * Qabs (x / y) + eta
}.

(** ** Round-to-nearest binary64 on the rationals

    A finite binary64 number is a multiple of [2^e] with a significand of at
    most 53 bits, [e] no less than [-1074].  [round64 x] is the multiple of
    [2^e] nearest to [x], ties to the even multiple, where [e] is the exponent
    of the binary64 numbers around [x].  Overflow is left out: the largest
    finite number is far above what the converter computes. *)

(** The integer nearest to [q], the even one of two at the same distance. *)
Definition nearest_even (q : Q) : Z :=
  let f := Qfloor q in
  match Qcompare (q - inject_Z f) (1 # 2) with
  | Lt => f
  | Gt => (f + 1)%Z
  | Eq => if Z.even f then f else (f + 1)%Z
  end.

(** [floor (log2 |x|)] for [x] other than zero. *)
Definition ilog2 (x : Q) : Z :=
  let k := (Z.log2 (Z.abs (Qnum x)) - Z.log2 (Zpos (Qden x)))%Z in
  if Qle_bool (2 ^ k) (Qabs x) then k else (k - 1)%Z.

Definition exponent (x : Q) : Z := Z.max (ilog2 x - 52) (-1074).

Definition round64 (x : Q) : Q :=
  if Qeq_bool x 0 then 0
  else inject_Z (nearest_even (x / 2 ^ exponent x)) * 2 ^ exponent x.

(** Binary64 arithmetic on the rationals: every operation is computed
    exactly and rounded. *)
Definition binary64_Q : Arith Q := {|
  of_Z := fun z => round64 (inject_Z z);
  add := fun x y => round64 (x + y);
  sub := fun x y => round64 (x - y);
  mul := fun x y => round64 (x * y);
  div := fun x y => round64 (x / y)
|}.

(** Whether the round trip of [rows] returns the same finite numbers in the
    kernel's binary64 floats and in [binary64_Q]. *)
Definition roundtrip_agrees (rows : list (list float)) (yscale : float) : bool :=
  match xy <- Plot.ABC_to_xy rows 1%float yscale ;; Plot.xy_to_ABC xy 1%float yscale,
        xy <- @Plot.ABC_to_xy Q binary64_Q (map (map binary64_value) rows) 1
                (binary64_value yscale) ;;
        @Plot.xy_to_ABC Q binary64_Q Q_zero xy 1 (binary64_value yscale)
  with
  | Ok F, Ok R =>
      forallb (forallb (fun f => match float_to_Q f with
                                 | Some _ => true
                                 | None => false
                                 end)) F
      && all2 (all2 Qeq_bool) (map (map binary64_value) F) R
  | _, _ => false
  end.

(** The expressions of the arithmetic.  The functions of the converter,
    written over any arithmetic, build the expression they compute when they
    are read at [expr]. *)
Inductive expr : Type :=
| Var (n : nat)
| Lit (z : Z)
| Add (a b : expr)
| Sub (a b : expr)
| Mul (a b : expr)
| Div (a b : expr).

#[export] Instance expr_arith : Arith expr := {
  of_Z := Lit;
  add := Add;
  sub := Sub;
  mul := Mul;
  div := Div
}.

Fixpoint eval (A : Arith Q) (env : nat -> Q) (e : expr) : Q :=
  match e with
  | Var n => env n
  | Lit z => @of_Z Q A z
  | Add a b => @add Q A (eval A env a) (eval A env b)
  | Sub a b => @sub Q A (eval A env a) (eval A env b)
  | Mul a b => @mul Q A (eval A env a) (eval A env b)
  | Div a b => @div Q A (eval A env a) (eval A env b)
  end.

Fixpoint expr_eqb (a b : expr) : bool :=
  match a, b with
  | Var n, Var m => Nat.eqb n m
  | Lit z, Lit w => Z.eqb z w
  | Add a1 a2, Add b1 b2 | Sub a1 a2, Sub b1 b2
  | Mul a1 a2, Mul b1 b2 | Div a1 a2, Div b1 b2 => expr_eqb a1 b1 && expr_eqb a2 b2
  | _, _ => false
  end.

(** [name s n e]: the expression [e] with the variable [n] in the place of
    every occurrence of the expression [s]. *)
Fixpoint name (s : expr) (n : nat) (e : expr) : expr :=
  if expr_eqb e s then Var n
  else match e with
       | Add a b => Add (name s n a) (name s n b)
       | Sub a b => Sub (name s n a) (name s n b)
       | Mul a b => Mul (name s n a) (name s n b)
       | Div a b => Div (name s n a) (name s n b)
       | _ => e
       end.

(** What is known of a computed number [x] and the exact number [ex] it
    stands for: [lower <= |ex| <= upper] and [|x - ex| <= err]. *)
Record bound : Type := { lower : Q; upper : Q; err : Q }.

Definition holds (b : bound) (x ex : Q) : Prop :=
  lower b <= Qabs ex /\ Qabs ex <= upper b /\ Qabs (x - ex) <= err b /\ 0 <= err b.

(** A number that is not smaller, with twenty-four decimals: bounds are
    rounded up to keep them short. *)
Definition up (q : Q) : Q :=
  let scale := (10 ^ 24)%positive in
  (Qnum q * Zpos scale / Zpos (Qden q) + 1) # scale.

(** The bound of the result of an operation: [M] bounds the exact result,
    [d] what the errors of the operands contribute. *)
Definition rounded (u eta range M d : Q) : option bound :=
  if Qle_bool (M + d) range
  then Some {| lower := 0; upper := M;
               err := up (up (d + up (u * up (M + d))) + eta) |}
  else None.

(** The bound of an expression from the bounds of its variables. *)
Fixpoint analyse (u eta range : Q) (benv : nat -> bound) (e : expr) : option bound :=
  match e with
  | Var n => Some (benv n)
  | Lit z =>
      if (Z.leb (-2) z && Z.leb z 2)%bool
      then Some {| lower := Qabs (inject_Z z); upper := Qabs (inject_Z z); err := 0 |}
      else None
  | Add a b | Sub a b =>
      match analyse u eta range benv a, analyse u eta range benv b with
      | Some ba, Some bb =>
          rounded u eta range (up (upper ba + upper bb)) (up (err ba + err bb))
      | _, _ => None
      end
  | Mul a b =>
      match analyse u eta range benv a, analyse u eta range benv b with
      | Some ba, Some bb =>
          rounded u eta range (up (upper ba * upper bb))
            (up (up (up (upper ba * err bb) + up (upper bb * err ba)) + up (err ba * err bb)))
      | _, _ => None
      end
  | Div a b =>
      match analyse u eta range benv a, analyse u eta range benv b with
      | Some ba, Some bb =>
          if Qle_bool (lower bb) (err bb) then None
          else
            let m' := lower bb - err bb in
            rounded u eta range (up (upper ba / lower bb))
              (up (up (err ba / m') + up (up (upper ba * err bb) / (lower bb * m'))))
      | _, _ => None
      end
  end.

(** ** The round trip of the converter as expressions

    The accuracy the round trip is analysed for, far coarser than binary64,
    and the range of the y scale, which holds [1.0] and [sqrt3_2]. *)
Definition rel_err : Q := 1 # 1000000000000000.
Definition abs_err : Q := 1 # 1000000000000000.
Definition magnitude : Q := 1000000.
Definition yscale_min : Q := 1 # 100.
Definition yscale_max : Q := 100.

(** How far from one the exact sum of the parts of a composition may be:
    binary64 parts such as [0.33; 0.33; 0.34] do not sum to one exactly. *)
Definition sum_tol : Q := 1 # 1000000000000.

Definition exactly (lo hi : Q) : bound := {| lower := lo; upper := hi; err := 0 |}.

Definition bounds_of (l : list bound) (n : nat) : bound := nth n l (exactly 0 0).

Definition values_of (l : list Q) (n : nat) : Q := nth n l 0.

(** The parts of a composition are the variables [0], [1] and [2], each below
    two; their computed sum is the variable [3], the y scale the variable [4],
    the x scale, which is one, the variable [5]. *)
Definition parts : list expr := [Var 0; Var 1; Var 2].

Definition total : expr := Plot.sum parts.

Definition part_bounds : list bound := [exactly 0 2; exactly 0 2; exactly 0 2].

Definition total_err : Q :=
  match analyse rel_err abs_err magnitude (bounds_of part_bounds) total with
  | Some b => err b
  | None => 1
  end.

(** How far from one the computed sum of the parts may be. *)
Definition total_dev : Q := total_err + sum_tol.

Definition roundtrip_bounds : list bound :=
  part_bounds ++
  [exactly (1 - total_dev) (1 + total_dev); exactly yscale_min yscale_max; exactly 1 1].

Definition roundtrip_exprs : list expr :=
  map (name total 3)
      (Plot.to_ABC_row (Var 5) (Var 4) (Plot.to_xy_row (Var 5) (Var 4) parts)).

(** The values of the variables in the round trip of the composition
    [[a; b; c]]. *)
Definition roundtrip_env (A : Arith Q) (a b c yscale : Q) : nat -> Q :=
  values_of [a; b; c; @Plot.sum Q A [a; b; c]; yscale; 1].

(** What the exact part of the round trip may cost: the parts are divided by
    their computed sum, not by one, and the third part is one minus the other
    two, whatever the sum was. *)
Definition closure_err : Q := 4 * (total_dev / (1 - total_dev)) + sum_tol.

End Rounding.

(** * The meltsfile codec *)

Module Meltsfile.

Local Open Scope string_scope.

(** ** Python strings

    A [string] holds the characters of a text, one code point below 256 per
    [ascii]. *)

Definition is_space (c : ascii) : bool :=
  match nat_of_ascii c with
  | 9 | 10 | 11 | 12 | 13 | 28 | 29 | 30 | 31 | 32 | 133 | 160 => true
  | _ => false
  end%nat.

Definition is_linebreak (c : ascii) : bool :=
  match nat_of_ascii c with
  | 10 | 11 | 12 | 13 | 28 | 29 | 30 | 133 => true
  | _ => false
  end%nat.

Definition snoc (s : string) (c : ascii) : string := s ++ String c "".

(** [s.splitlines()]. *)
Fixpoint splitlines_from (cur s : string) : list string :=
  match s with
  | "" => match cur with "" => [] | _ => [cur] end
  | String c s' =>
      if Ascii.eqb c "013" then
        match s' with
        | String "010" s'' => cur :: splitlines_from "" s''
        | _ => cur :: splitlines_from "" s'
        end
      else if is_linebreak c then cur :: splitlines_from "" s'
      else splitlines_from (snoc cur c) s'
  end.

Definition splitlines (s : string) : list string := splitlines_from "" s.

(** [s.split(": ")]. *)
Fixpoint split_colon_from (cur s : string) : list string :=
  match s with
  | "" => [cur]
  | String c s' =>
      if Ascii.eqb c ":" then
        match s' with
        | String " " s'' => cur :: split_colon_from "" s''
        | _ => split_colon_from (snoc cur c) s'
        end
      else split_colon_from (snoc cur c) s'
  end.

Definition split_colon (s : string) : list string := split_colon_from "" s.

Fixpoint lstrip (s : string) : string :=
  match s with
  | "" => ""
  | String c s' => if is_space c then lstrip s' else s
  end.

Definition reverse (s : string) : string :=
  string_of_list_ascii (rev (list_ascii_of_string s)).

(** [s.strip()]. *)
Definition strip (s : string) : string := reverse (lstrip (reverse (lstrip s))).

(** [s.split()]: the maximal runs without whitespace. *)
Fixpoint split_ws_from (cur s : string) : list string :=
  match s with
  | "" => match cur with "" => [] | _ => [cur] end
  | String c s' =>
      if is_space c then
        match cur with "" => split_ws_from "" s' | _ => cur :: split_ws_from "" s' end
      else split_ws_from (snoc cur c) s'
  end.

Definition split_ws (s : string) : list string := split_ws_from "" s.

Definition lower_char (c : ascii) : ascii :=
  let n := nat_of_ascii c in
  if (Nat.leb 65 n && Nat.leb n 90)%bool then ascii_of_nat (n + 32)
  else if (Nat.leb 192 n && Nat.leb n 222 && negb (Nat.eqb n 215))%bool then ascii_of_nat (n + 32)
  else c.

(** [s.lower()]. *)
Fixpoint lower (s : string) : string :=
  match s with
  | "" => ""
  | String c s' => String (lower_char c) (lower s')
  end.

Definition mem (k : string) (l : list string) : bool := existsb (String.eqb k) l.

(** ** Values and series

    A float is kept as the decimal numeral Python prints for it, integer part
    and fraction digits: [50.2] is [VFloat 50 2].  Floats that Python prints
    with an exponent are outside the model. *)

Inductive value : Type :=
| VStr (s : string)
| VInt (z : Z)
| VFloat (i : Decimal.int) (f : Decimal.uint)
| VNaN
| VNone.

(** [pd.isnull(v)]. *)
Definition isnull (v : value) : bool :=
  match v with
  | VNaN | VNone => true
  | _ => false
  end.

(** ["{}".format(v)]. *)
Definition format (v : value) : string :=
  match v with
  | VStr s => s
  | VInt z => DecimalString.NilZero.string_of_int (Z.to_int z)
  | VFloat i f =>
      DecimalString.NilZero.string_of_int i ++ "." ++ DecimalString.NilEmpty.string_of_uint f
  | VNaN => "nan"
  | VNone => "None"
  end.

(** A [pandas.Series]: its labels and values, in order. *)
Definition series : Type := list (string * value).

Definition index (ser : series) : list string := map fst ser.

(** [ser[k]], for a label that occurs once. *)
Definition get (ser : series) (k : string) : value :=
  match find (fun e => String.eqb (fst e) k) ser with
  | Some e => snd e
  | None => VNone
  end.

(** [ser.loc[keys].values]: for each key in turn, the values under that label. *)
Definition loc_values (ser : series) (keys : list string) : list value :=
  flat_map (fun k => map snd (filter (fun e => String.eqb (fst e) k) ser)) keys.

Section Writer.

(** [__common_oxides__] and [__common_elements__] of [pyrolite.geochem.ind],
    which is not among the sources. *)
Variable common_oxides : list string.
Variable common_elements : list string.

Definition component_lines (prefix : string) (table exclude : list string) (ser : series)
  : list string :=
  let keys := filter (fun i => mem i table && negb (mem i exclude)) (index ser) in
  flat_map (fun kv =>
              if negb (isnull (snd kv))
              then [prefix ++ ": " ++ fst kv ++ " " ++ format (snd kv)]
              else [])
           (combine keys (loc_values ser keys)).

Definition parameter_lines (ser : series) : list string :=
  flat_map (fun param =>
    flat_map (fun subparam =>
      let k := subparam ++ " " ++ param in
      if mem k (index ser) then
        let v := get ser k in
        if negb (isnull v) then [k ++ ": " ++ format v] else []
      else [])
      ["Initial"; "Final"; "Increment"])
    ["Temperature"; "Pressure"].

Definition path_lines (ser : series) : list string :=
  flat_map (fun k =>
    match filter (fun par => String.eqb (lower par) (lower k)) (index ser) with
    | par :: _ =>
        let v := get ser par in
        if negb (isnull v) then [k ++ ": " ++ format v] else []
    | [] => []
    end)
    ["dp/dt"; "log fo2 path"; "log fo2 delta"].

(** [to_meltsfile(ser, linesep, writetraces, modes, exclude)]. *)
Definition to_meltsfile (ser : series) (linesep : string) (writetraces : bool)
    (modes exclude : list string) : result string :=
  if mem "Title" (index ser) || mem "title" (index ser) then
    let title :=
      if mem "Title" (index ser) then "Title: " ++ format (get ser "Title")
      else "Title: " ++ format (get ser "title") in
    let majors := component_lines "Initial Composition" common_oxides exclude ser in
    let traces :=
      if writetraces then component_lines "Initial Trace" common_elements exclude ser
      else [] in
    let mode_lines := map (fun m => "Mode: " ++ m) modes in
    Ok (String.concat linesep
          ([title] ++ majors ++ traces ++ parameter_lines ser ++ path_lines ser ++ mode_lines))
  else Raise AssertionError.

End Writer.

(** ** Reading *)

(** What [from_meltsfile] may be given, and what a path names. *)
Inductive source : Type :=
| BytesIO (content : string)
| StringIO (content : string)
| Str (s : string)
| PathObject (p : string).

Inductive entry : Type :=
| Missing
| File (content : string)
| Directory
| Unreadable
| NameTooLong.

(** [open(p)]. *)
Definition open (fs : string -> entry) (p : string) : result string :=
  match fs p with
  | File content => Ok content
  | Missing => Raise FileNotFoundError
  | Directory => Raise IsADirectoryError
  | Unreadable => Raise PermissionError
  | NameTooLong => Raise OSError
  end.

(** What the variable [file] holds once the source is read. *)
Inductive pyobject : Type :=
| Text (s : string)
| PathValue (p : string).

(** Modelled from the spec: [pyrolite.util.pd.to_numeric] with
    [errors="ignore"], which is not among the sources; "numeric coercion where
    possible else leaves the raw string".  A string that reads as a plain
    decimal numeral becomes an integer or a float; any other value is left as
    it is, numerals with an exponent and the names of infinity and NaN among
    them, which pandas would coerce.  The statements about every record are
    made on the column before this coercion ([read_column]). *)
Definition split_point (s : string) : option (string * string) :=
  match String.index 0 "." s with
  | Some n => Some (substring 0 n s, substring (S n) (String.length s - S n) s)
  | None => None
  end.

Definition strip_zeros (f : Decimal.uint) : Decimal.uint :=
  match Decimal.rev (Decimal.nzhead (Decimal.rev f)) with
  | Decimal.Nil => Decimal.D0 Decimal.Nil
  | f' => f'
  end.

(** An optional sign in front of the digits. *)
Definition split_sign (s : string) : bool * string :=
  match s with
  | String "-" s' => (true, s')
  | String "+" s' => (false, s')
  | _ => (false, s)
  end.

Definition signed (negative : bool) (d : Decimal.uint) : Decimal.int :=
  if negative then Decimal.Neg (Decimal.unorm d) else Decimal.Pos (Decimal.unorm d).

Definition numeral (s : string) : value :=
  let (negative, digits) := split_sign s in
  match DecimalString.NilZero.uint_of_string digits with
  | Some d => VInt (Z.of_int (signed negative d))
  | None =>
      match split_point digits with
      | Some (a, b) =>
          match DecimalString.NilEmpty.uint_of_string a,
                DecimalString.NilEmpty.uint_of_string b with
          | Some i, Some f =>
              if (String.eqb a "" && String.eqb b "")%bool then VStr s
              else VFloat (signed negative i) (strip_zeros f)
          | _, _ => VStr s
          end
      | None => VStr s
      end
  end.

Definition to_numeric (ser : list (option string * value)) : list (option string * value) :=
  map (fun e => (fst e, match snd e with VStr s => numeral s | v => v end)) ser.

Section Reader.

(** [bytes.decode()]. *)
Variable decode : string -> result string.

Variable fs : string -> entry.

(** The first statement of [from_meltsfile]: what [file] is bound to. *)
Definition read_source (filename : source) : result pyobject :=
  match filename with
  | BytesIO content => s <- decode content ;; Ok (Text s)
  | StringIO content => Ok (Text content)
  | Str p =>
      match open fs p with
      | Ok _ => Raise AttributeError
      | Raise FileNotFoundError => Ok (Text p)
      | Raise e => Raise e
      end
  | PathObject p =>
      match open fs p with
      | Ok _ => Raise AttributeError
      | Raise FileNotFoundError => Ok (PathValue p)
      | Raise e => Raise e
      end
  end.

Fixpoint format_lines (lines : list (list string)) : result (list (list string)) :=
  match lines with
  | [] => Ok []
  | args :: rest =>
      fmt <- (if mem (lower (strip (nth 0 args ""))) ["initial composition"; "initial trace"]
              then match args with
                   | _ :: a1 :: _ => Ok (split_ws (strip a1))
                   | _ => Raise IndexError
                   end
              else Ok (map strip args)) ;;
      fmtlines <- format_lines rest ;;
      Ok (fmt :: fmtlines)
  end.

(** [pd.DataFrame.from_records(fmtlines).set_index(0, drop=True)[1]]. *)
Definition second_column (fmtlines : list (list string)) : result (list (option string * value)) :=
  if existsb (fun r => Nat.leb 2 (length r)) fmtlines then
    Ok (map (fun r => (nth_error r 0,
                       match nth_error r 1 with Some s => VStr s | None => VNone end))
            fmtlines)
  else Raise KeyError.

(** The statements of [from_meltsfile] after the source is read, up to the
    column [df] of strings that is handed to [to_numeric]. *)
Definition column (file : pyobject) : result (list (option string * value)) :=
  match file with
  | PathValue _ => Raise AttributeError
  | Text s =>
      let lines :=
        map split_colon
            (filter (fun line => negb (String.eqb (strip line) "")) (splitlines s)) in
      fmtlines <- format_lines lines ;;
      second_column fmtlines
  end.

(** The statements of [from_meltsfile] after the source is read. *)
Definition parse (file : pyobject) : result (list (option string * value)) :=
  col <- column file ;; Ok (to_numeric col).

(** [from_meltsfile(filename)]. *)
Definition from_meltsfile (filename : source) : result (list (option string * value)) :=
  file <- read_source filename ;; parse file.

(** [from_meltsfile(filename)] up to its last statement: the column of
    strings, before [to_numeric] coerces it. *)
Definition read_column (filename : source) : result (list (option string * value)) :=
  file <- read_source filename ;; column file.

End Reader.

(** ** The round-trip scenario *)

Definition LF : string := String "010" "".
Definition CRLF : string := String "013" (String "010" "").

(** The float [50.2]. *)
Definition fifty_point_two : value :=
  VFloat (Decimal.Pos (Decimal.D5 (Decimal.D0 Decimal.Nil))) (Decimal.D2 Decimal.Nil).

(** A record of the scenario: its labels are distinct, it holds the three
    fields, and every other field it holds is missing (NaN). *)
Definition scenario_record (ser : series) : Prop :=
  NoDup (index ser) /\
  In ("Title", VStr "A") ser /\
  In ("SiO2", fifty_point_two) ser /\
  In ("Initial Temperature", VInt 1200) ser /\
  forall k v, In (k, v) ser ->
    k <> "Title" -> k <> "SiO2" -> k <> "Initial Temperature" -> isnull v = true.

Definition scenario_text (linesep : string) : string :=
  "Title: A" ++ linesep ++ "Initial Composition: SiO2 50.2" ++ linesep ++
  "Initial Temperature: 1200".

Definition scenario_pairs : list (option string * value) :=
  [(Some "Title", VStr "A"); (Some "SiO2", fifty_point_two);
   (Some "Initial Temperature", VInt 1200)].

(** The tables hold the oxide of the scenario and none of its other labels. *)
Definition scenario_tables (common_oxides common_elements : list string) : Prop :=
  mem "SiO2" common_oxides = true /\
  mem "Title" common_oxides = false /\
  mem "Initial Temperature" common_oxides = false /\
  mem "SiO2" common_elements = false /\
  mem "Title" common_elements = false /\
  mem "Initial Temperature" common_elements = false.

(** ** Writing many records

    What [to_meltsfiles] may be given: a frame, as the rows [df.iloc[ix, :]]
    takes from it, a series, or anything else. *)
Inductive frame : Type :=
| DataFrame (rows : list series)
| Series (ser : series)
| Other.

(** A list comprehension over a function that may raise: the results in
    order, or what the first call that raises raises. *)
Fixpoint collect (A B : Type) (f : A -> result B) (l : list A) : result (list B) :=
  match l with
  | [] => Ok []
  | a :: l' => b <- f a ;; bs <- collect f l' ;; Ok (b :: bs)
  end.

Section Frames.

Variable common_oxides : list string.
Variable common_elements : list string.

(** [os.linesep]. *)
Variable os_linesep : string.

(** [to_meltsfiles(df, linesep, **kwargs)]: a list of texts, or [None] when
    [df] is neither a frame nor a series. *)
Definition to_meltsfiles (df : frame) (linesep : string) (writetraces : bool)
    (modes exclude : list string) : result (option (list string)) :=
  match df with
  | DataFrame rows =>
      texts <- collect (fun row => to_meltsfile common_oxides common_elements row os_linesep
                                     writetraces modes exclude) rows ;;
      Ok (Some texts)
  | Series ser =>
      text <- to_meltsfile common_oxides common_elements ser os_linesep
                writetraces modes exclude ;;
      Ok (Some [text])
  | Other => Ok None
  end.

End Frames.

(** ** Records and texts

    What the properties of the codec are stated with. *)

(** The record has a title. *)
Definition has_title (ser : series) : bool :=
  mem "Title" (index ser) || mem "title" (index ser).

(** The labels [to_meltsfile] looks up whatever [exclude] holds, in lower
    case. *)
Definition reserved : list string :=
  ["title"; "initial temperature"; "final temperature"; "increment temperature";
   "initial pressure"; "final pressure"; "increment pressure";
   "dp/dt"; "log fo2 path"; "log fo2 delta"].

(** [ser.drop(exclude, errors="ignore")]: the record without the entries
    under the labels of [exclude]. *)
Definition without (exclude : list string) (ser : series) : series :=
  filter (fun e => negb (mem (fst e) exclude)) ser.

(** [ser.dropna()]: the record without the entries whose value is missing. *)
Definition dropna (ser : series) : series :=
  filter (fun e => negb (isnull (snd e))) ser.

(** No character of the string satisfies [p]. *)
Fixpoint free_of (p : ascii -> bool) (s : string) : bool :=
  match s with
  | "" => true
  | String c s' => negb (p c) && free_of p s'
  end.

Definition is_colon (c : ascii) : bool := Ascii.eqb c ":".

(** A word: not empty, no whitespace, no colon. *)
Definition word (s : string) : bool :=
  negb (String.eqb s "") && free_of is_space s && free_of is_colon s.

(** A plain text: no line break, no colon. *)
Definition plain (s : string) : bool :=
  free_of is_linebreak s && free_of is_colon s.

(** [line.strip()] is not empty: the lines [from_meltsfile] keeps. *)
Definition nonblank (line : string) : bool := negb (String.eqb (strip line) "").

Definition keywords : list string := ["initial composition"; "initial trace"].

(** One turn of the loop of [from_meltsfile]: the formatted line of one
    split line. *)
Definition format_line (args : list string) : result (list string) :=
  if mem (lower (strip (nth 0 args ""))) keywords
  then match args with
       | _ :: a1 :: _ => Ok (split_ws (strip a1))
       | _ => Raise IndexError
       end
  else Ok (map strip args).

(** What [to_meltsfile] writes, as labels and values: the title, the major
    oxides, the trace elements, the parameters, the paths and the modes. *)
Definition title_field (ser : series) : string * value :=
  if mem "Title" (index ser) then ("Title", get ser "Title") else ("Title", get ser "title").

Definition component_fields (table exclude : list string) (ser : series)
  : list (string * value) :=
  filter (fun e => mem (fst e) table && negb (mem (fst e) exclude) && negb (isnull (snd e))) ser.

Definition parameter_labels : list string :=
  ["Initial Temperature"; "Final Temperature"; "Increment Temperature";
   "Initial Pressure"; "Final Pressure"; "Increment Pressure"].

Definition path_labels : list string := ["dp/dt"; "log fo2 path"; "log fo2 delta"].

Definition parameter_fields (ser : series) : list (string * value) :=
  flat_map (fun k =>
              if mem k (index ser) && negb (isnull (get ser k)) then [(k, get ser k)] else [])
           parameter_labels.

Definition path_fields (ser : series) : list (string * value) :=
  flat_map (fun k =>
              match filter (fun par => String.eqb (lower par) (lower k)) (index ser) with
              | par :: _ => if negb (isnull (get ser par)) then [(k, get ser par)] else []
              | [] => []
              end)
           path_labels.

Definition mode_fields (modes : list string) : list (string * value) :=
  map (fun m => ("Mode", VStr m)) modes.

Section Fields.

Variable common_oxides : list string.
Variable common_elements : list string.

Definition components (ser : series) (writetraces : bool) (exclude : list string)
  : list (string * value) :=
  component_fields common_oxides exclude ser ++
  (if writetraces then component_fields common_elements exclude ser else []).

Definition fields (ser : series) (writetraces : bool) (modes exclude : list string)
  : list (string * value) :=
  title_field ser :: components ser writetraces exclude ++
  parameter_fields ser ++ path_fields ser ++ mode_fields modes.

End Fields.

(** The line of a field, and the line of a component under its prefix. *)
Definition field_line (f : string * value) : string := fst f ++ ": " ++ format (snd f).

Definition component_line (prefix : string) (f : string * value) : string :=
  prefix ++ ": " ++ fst f ++ " " ++ format (snd f).

(** What [from_meltsfile] makes of a written field before the numeric
    coercion: the label, and the printed value, stripped. *)
Definition read_back (f : string * value) : option string * value :=
  (Some (fst f), VStr (strip (format (snd f)))).

Definition row_of (f : string * value) : list string := [fst f; strip (format (snd f))].

(** A line [l] reads as the row [row]. *)
Definition reads (l : string) (row : list string) : Prop :=
  free_of is_linebreak l = true /\ nonblank l = true /\ format_line (split_colon l) = Ok row.

Definition starts_solid (s : string) : bool :=
  match s with
  | String c _ => negb (is_space c)
  | "" => false
  end.

(** A label that is read back as it is written: no colon, no line break, not
    changed by [strip], not one of the two keywords, not empty. *)
Definition label_ok (key : string) : bool :=
  free_of is_colon key && free_of is_linebreak key && String.eqb (strip key) key &&
  negb (mem (lower (strip key)) keywords) && starts_solid key.

End Meltsfile.

(** * Facts about the arrays *)

Lemma map_seq_nth (A B : Type) (d : A) (l : list A) :
  forall (G : nat -> B) (F : A -> B),
    (forall j, (j < length l)%nat -> G j = F (nth j l d)) ->
    map G (seq 0 (length l)) = map F l.
Proof.
  induction l as [|a l IH]; intros G F HG; simpl.
  - reflexivity.
  - rewrite (HG 0%nat) by (simpl; lia). simpl. f_equal.
    rewrite <- seq_shift, map_map.
    apply IH. intros j Hj. apply (HG (S j)). simpl. lia.
Qed.

Section ArrayFacts.
Context {T : Type} `{Arith T} `{ZeroTest T}.
Local Open Scope arith_scope.

Lemma nth_map_default (A : Type) (f : A -> T) (l : list A) (d : A) (j : nat) :
  (j < length l)%nat -> nth j (map f l) (of_Z 0) = f (nth j l d).
Proof.
  intros Hj. rewrite (nth_indep _ (of_Z 0) (f d)) by (rewrite length_map; exact Hj).
  apply map_nth.
Qed.

Lemma transpose_2 (A : Type) (f g : A -> T) (l : list A) :
  transpose (length l) [map f l; map g l] = map (fun r => [f r; g r]) l.
Proof.
  unfold transpose. destruct l as [|a l'] eqn:E; [reflexivity|]. rewrite <- E.
  apply (map_seq_nth a). intros j Hj. simpl map.
  now rewrite !(nth_map_default _ _ a Hj).
Qed.

Lemma transpose_3 (A : Type) (f g h : A -> T) (l : list A) :
  transpose (length l) [map f l; map g l; map h l] = map (fun r => [f r; g r; h r]) l.
Proof.
  unfold transpose. destruct l as [|a l'] eqn:E; [reflexivity|]. rewrite <- E.
  apply (map_seq_nth a). intros j Hj. simpl map.
  now rewrite !(nth_map_default _ _ a Hj).
Qed.

Lemma transpose_rows (l : array2) :
  transpose 2 l = [map (fun r => nth 0 r (of_Z 0)) l; map (fun r => nth 1 r (of_Z 0)) l].
Proof. reflexivity. Qed.

Lemma nth_ones (n j : nat) : (j < n)%nat -> nth j (ones n) (of_Z 0) = of_Z 1.
Proof.
  intros Hj. unfold ones. rewrite (nth_indep _ (of_Z 0) (of_Z 1)) by (now rewrite repeat_length).
  apply nth_repeat.
Qed.

(** [affine_transform] returns the row of first coordinates and the row of
    second coordinates of the transformed points. *)
Lemma affine_transform_rows (r0 r1 r2 : list T) (data : array2) :
  affine_transform [r0; r1; r2] data =
  [map (fun p => nth 0 (apply_affine r0 r1 p) (of_Z 0)) data;
   map (fun p => nth 1 (apply_affine r0 r1 p) (of_Z 0)) data].
Proof.
  unfold affine_transform, matmul, vstack. rewrite transpose_rows.
  set (xy := map (firstn 2) data). cbn [firstn app map]. subst xy.
  assert (E : transpose (length (map (firstn 2) data))
                [map (fun r => nth 0 r (of_Z 0)) (map (firstn 2) data);
                 map (fun r => nth 1 r (of_Z 0)) (map (firstn 2) data);
                 ones (length (map (firstn 2) data))]
              = map (fun p => [nth 0 p (of_Z 0); nth 1 p (of_Z 0); of_Z 1]) data).
  { rewrite length_map, !map_map. unfold transpose.
    destruct data as [|a l'] eqn:E; [reflexivity|]. rewrite <- E.
    apply (map_seq_nth a). intros j Hj. simpl map.
    rewrite !(nth_map_default _ _ a Hj), (nth_ones Hj).
    destruct (nth j data a) as [|x [|y r]]; reflexivity. }
  rewrite E, !map_map. reflexivity.
Qed.

Lemma affine_transform_T (r0 r1 r2 : list T) (data : array2) :
  transpose (length data) (affine_transform [r0; r1; r2] data) =
  map (apply_affine r0 r1) data.
Proof. rewrite affine_transform_rows. apply transpose_2. Qed.

Lemma combine_map (A : Type) (f g : A -> T) (l : list A) :
  combine (map f l) (map g l) = map (fun r => (f r, g r)) l.
Proof. induction l; simpl; congruence. Qed.

(** Row by row, [ABC_to_xy] closes, shears and scales. *)
Lemma ABC_to_xy_rows (ABC : array2) (xscale yscale : T) :
  shape_last_is 3 ABC = true ->
  ABC_to_xy ABC xscale yscale = Ok (map (to_xy_row xscale yscale) ABC).
Proof.
  intros Hs. unfold ABC_to_xy. rewrite Hs. f_equal.
  assert (L : length (close ABC) = length ABC) by apply length_map.
  rewrite <- L at 2. rewrite affine_transform_T.
  rewrite <- L, <- (length_map (apply_affine [of_Z 1; of_Z 1 / of_Z 2; of_Z 0]
    [of_Z 0; of_Z 1; of_Z 0]) (close ABC)).
  rewrite affine_transform_T. unfold close. rewrite !map_map. reflexivity.
Qed.

(** Row by row, [xy_to_ABC] unscales, unshears and derives the third part. *)
Lemma xy_to_ABC_rows (xy : array2) (xscale yscale : T) :
  shape_last_is 2 xy = true -> is_zero xscale = false -> is_zero yscale = false ->
  xy_to_ABC xy xscale yscale = Ok (map (to_ABC_row xscale yscale) xy).
Proof.
  intros Hs Hx Hy. unfold xy_to_ABC, reciprocal. rewrite Hs, Hx, Hy. cbn [bind].
  rewrite affine_transform_T, affine_transform_rows.
  rewrite combine_map. f_equal. unfold vstack. cbn [app].
  rewrite !map_map. cbn [fst snd]. now rewrite transpose_3.
Qed.

End ArrayFacts.

(** * The barycentric and Cartesian converter *)

(** A rational that is not zero passes the test of the division. *)
Lemma Q_nonzero (x : Q) : ~ x == 0 -> is_zero x = false.
Proof.
  intros Hx. unfold is_zero, Q_zero.
  destruct (Qeq_bool x 0) eqn:E; [|reflexivity].
  apply Qeq_bool_iff in E. contradiction.
Qed.

Lemma approx_Qeq (u v : Q) : u == v -> approx tol u v.
Proof.
  intros E. unfold approx. rewrite E.
  setoid_replace (v - v) with 0 by ring. discriminate.
Qed.

Lemma shape_last_is_map (T A : Type) (k : nat) (f : A -> list T) (l : list A) :
  (forall a, length (f a) = k) -> shape_last_is k (map f l) = true.
Proof.
  intros Hf. unfold shape_last_is. apply forallb_forall.
  intros r Hr. apply in_map_iff in Hr. destruct Hr as (a & <- & _).
  apply Nat.eqb_eq, Hf.
Qed.

Lemma composition_shape (P : list (list Q)) :
  Forall composition P -> shape_last_is 3 P = true.
Proof.
  intros HP. apply forallb_forall. intros r Hr.
  rewrite Forall_forall in HP. destruct (HP r Hr) as (a & b & c & -> & _). reflexivity.
Qed.

(** The binary64 number [np.sqrt(3) / 2] is the rational [sqrt3_2]. *)
Lemma sqrt3_2_value : float_to_Q sqrt3_2_binary64 = Some sqrt3_2 /\ ~ sqrt3_2 == 0.
Proof. split; [vm_compute; reflexivity | discriminate]. Qed.

(** The integer literals of the code, read in [Q]. *)
Ltac q_literals :=
  cbn [of_Z add sub mul div Q_arith] in *;
  change (inject_Z 0) with 0 in *;
  change (inject_Z 1) with 1 in *;
  change (inject_Z 2) with 2 in *;
  change (inject_Z (-1)) with (-1) in *.

Lemma roundtrip_row (yscale : Q) (r : list Q) :
  ~ yscale == 0 -> composition r ->
  Forall2 Qeq (to_ABC_row 1 yscale (to_xy_row 1 yscale r)) r.
Proof.
  intros Hy (a & b & c & -> & Ha & Hb & Hc & Hs).
  unfold to_ABC_row, to_xy_row, apply_affine, close_row, dot.
  cbn in Hs |- *. q_literals.
  assert (Ec : c == 1 - a - b) by lra.
  constructor; [ | constructor; [ | constructor; [ | constructor]]];
    rewrite !Hs; [ | | rewrite Ec at 1 ]; field; auto.
Qed.

(** Barycentric to Cartesian and back is the identity, in exact arithmetic,
    for every array of compositions (three positive parts that sum to one),
    an x scale of one and every non-zero y scale, [1.0] and [sqrt3_2] among
    them. *)
Theorem ABC_roundtrip (P : list (list Q)) (yscale : Q) :
  Forall composition P ->
  ~ yscale == 0 ->
  exists xy P',
    ABC_to_xy P 1 yscale = Ok xy /\
    xy_to_ABC xy 1 yscale = Ok P' /\
    Forall2 (Forall2 Qeq) P' P.
Proof.
  intros HP Hy.
  exists (map (to_xy_row 1 yscale) P).
  exists (map (to_ABC_row 1 yscale) (map (to_xy_row 1 yscale) P)).
  split; [apply ABC_to_xy_rows, composition_shape, HP|].
  split.
  { apply xy_to_ABC_rows; [apply shape_last_is_map; reflexivity | reflexivity |].
    now apply Q_nonzero. }
  induction HP as [|r P Hr HP IH]; simpl; constructor; [|exact IH].
  apply roundtrip_row; assumption.
Qed.

Lemma ABC_roundtrip_witness :
  exists xy P',
    ABC_to_xy [[8 # 10; 1 # 10; 1 # 10]; [33 # 100; 33 # 100; 34 # 100]] 1 sqrt3_2 = Ok xy /\
    xy_to_ABC xy 1 sqrt3_2 = Ok P' /\
    Forall2 (Forall2 Qeq) P' [[8 # 10; 1 # 10; 1 # 10]; [33 # 100; 33 # 100; 34 # 100]].
Proof.
  apply (@ABC_roundtrip [[8 # 10; 1 # 10; 1 # 10]; [33 # 100; 33 # 100; 34 # 100]] sqrt3_2).
  - repeat constructor.
    + exists (8 # 10), (1 # 10), (1 # 10). repeat split.
    + exists (33 # 100), (33 # 100), (34 # 100). repeat split.
  - discriminate.
Defined.

(** The same round trip evaluated in binary64, for two compositions and both
    aspect scales: the result is not the input bit for bit, and is within
    [1e-9] of it. *)
Example roundtrip_binary64 :
  let P := [[8 / 10; 1 / 10; 1 / 10]; [33 / 100; 33 / 100; 34 / 100]]%float in
  forallb (fun yscale =>
    match xy <- ABC_to_xy P 1%float yscale ;; xy_to_ABC xy 1%float yscale with
    | Ok P' => all2 (all2 (within_binary64 tol)) P' P
               && negb (all2 (all2 PrimFloat.eqb) P' P)
    | Raise _ => false
    end) [1%float; sqrt3_2_binary64] = true.
Proof. vm_compute. reflexivity. Qed.

Lemma sum_3 (a b c : Q) : sum [a; b; c] == a + b + c.
Proof. unfold sum. cbn. q_literals. ring. Qed.

(** C7, as amended.  On every array of points, on the simplex or not, and
    for non-zero scales, [xy_to_ABC] returns one row [a; b; 1 - (a + b)] per
    point: the third part is built from the other two, and in exact arithmetic
    the row sums to exactly one. *)
Theorem C7_closure_by_construction (xy : list (list Q)) (xscale yscale : Q) :
  shape_last_is 2 xy = true ->
  ~ xscale == 0 -> ~ yscale == 0 ->
  exists abc,
    xy_to_ABC xy xscale yscale = Ok abc /\
    length abc = length xy /\
    Forall (fun row => exists a b, row = [a; b; 1 - (a + b)] /\ sum row == 1) abc.
Proof.
  intros Hs Hx Hy. exists (map (to_ABC_row xscale yscale) xy).
  split; [apply xy_to_ABC_rows; auto using Q_nonzero|]. split; [apply length_map|].
  apply Forall_forall. intros row Hrow.
  apply in_map_iff in Hrow. destruct Hrow as (p & <- & _).
  unfold to_ABC_row. cbv zeta.
  eexists _, _. split; [reflexivity|].
  rewrite sum_3. q_literals. ring.
Qed.

Lemma C7_closure_by_construction_witness :
  exists abc,
    xy_to_ABC [[5 # 8; 3 # 16]; [7; -3]] 1 sqrt3_2 = Ok abc /\
    length abc = length [[5 # 8; 3 # 16]; [7; -3 # 1]] /\
    Forall (fun row => exists a b, row = [a; b; 1 - (a + b)] /\ sum row == 1) abc.
Proof.
  apply (@C7_closure_by_construction [[5 # 8; 3 # 16]; [7; -3]] 1 sqrt3_2);
    [reflexivity | discriminate ..].
Defined.

(** C7 as stated fails in binary64, the arithmetic the code runs in: for the
    point [(1e20, 0)] the third part is [1.0 - 1e20], which rounds to [-1e20],
    and the row [1e20; 0; -1e20] sums to [0], not to [1]. *)
Lemma C7_counterexample_binary64 :
  xy_to_ABC [[1e20; 0]]%float 1%float 1%float = Ok [[1e20; 0; -1e20]%float] /\
  sum [1e20; 0; -1e20]%float = 0%float /\
  PrimFloat.eqb (sum [1e20; 0; -1e20]%float) 1 = false.
Proof. vm_compute. repeat split. Qed.

(** ** Shapes, the way back, units and the triangle *)

Lemma shape_last_is_length (T : Type) (k : nat) (a : list (list T)) :
  shape_last_is k a = true <-> Forall (fun r => length r = k) a.
Proof.
  unfold shape_last_is. rewrite forallb_forall, Forall_forall.
  split; intros H r Hr; apply Nat.eqb_eq, H, Hr.
Qed.

Section Shapes.
Context {T : Type} `{Arith T} `{ZeroTest T}.

(** Whatever the arithmetic, the converters refuse an array of the wrong
    width with an [AssertionError]; on an array of the right width
    [xy_to_ABC] raises a [ZeroDivisionError] when a scale is zero; otherwise
    each converter keeps the number of rows and returns what the other
    accepts. *)
Theorem converter_shapes (a : list (list T)) (xscale yscale : T) :
  (shape_last_is 3 a = false -> ABC_to_xy a xscale yscale = Raise AssertionError) /\
  (shape_last_is 2 a = false -> xy_to_ABC a xscale yscale = Raise AssertionError) /\
  (shape_last_is 2 a = true -> is_zero xscale || is_zero yscale = true ->
   xy_to_ABC a xscale yscale = Raise ZeroDivisionError) /\
  (shape_last_is 3 a = true ->
   exists xy,
     ABC_to_xy a xscale yscale = Ok xy /\ length xy = length a /\
     shape_last_is 2 xy = true /\
     (is_zero xscale || is_zero yscale = false ->
      exists abc,
        xy_to_ABC xy xscale yscale = Ok abc /\ length abc = length a /\
        shape_last_is 3 abc = true)) /\
  (shape_last_is 2 a = true -> is_zero xscale || is_zero yscale = false ->
   exists abc xy,
     xy_to_ABC a xscale yscale = Ok abc /\ length abc = length a /\
     ABC_to_xy abc xscale yscale = Ok xy /\ length xy = length a /\
     shape_last_is 2 xy = true).
Proof.
  split; [|split; [|split; [|split]]].
  - intros E. unfold ABC_to_xy. now rewrite E.
  - intros E. unfold xy_to_ABC. now rewrite E.
  - intros E Z. unfold xy_to_ABC, reciprocal. rewrite E.
    destruct (is_zero xscale); [reflexivity|].
    cbn [orb] in Z. rewrite Z. reflexivity.
  - intros E.
    exists (map (to_xy_row xscale yscale) a).
    split; [now apply ABC_to_xy_rows|]. split; [apply length_map|].
    split; [apply shape_last_is_map; reflexivity|].
    intros Z. apply orb_false_iff in Z. destruct Z as [Zx Zy].
    exists (map (to_ABC_row xscale yscale) (map (to_xy_row xscale yscale) a)).
    split; [apply xy_to_ABC_rows; [apply shape_last_is_map; reflexivity|assumption ..]|].
    split; [now rewrite !length_map|]. apply shape_last_is_map. reflexivity.
  - intros E Z. apply orb_false_iff in Z. destruct Z as [Zx Zy].
    exists (map (to_ABC_row xscale yscale) a).
    exists (map (to_xy_row xscale yscale) (map (to_ABC_row xscale yscale) a)).
    split; [now apply xy_to_ABC_rows|]. split; [apply length_map|].
    split; [apply ABC_to_xy_rows, shape_last_is_map; reflexivity|].
    split; [now rewrite !length_map|]. apply shape_last_is_map. reflexivity.
Qed.

End Shapes.

Lemma xy_row_roundtrip (xscale yscale : Q) (p : list Q) :
  ~ xscale == 0 -> ~ yscale == 0 -> length p = 2%nat ->
  Forall2 Qeq (to_xy_row xscale yscale (to_ABC_row xscale yscale p)) p.
Proof.
  intros Hx Hy Hp. destruct p as [|x [|y [|? ?]]]; try discriminate.
  unfold to_xy_row, to_ABC_row, apply_affine, close_row, dot.
  cbn. q_literals.
  assert (Hxy : ~ xscale * yscale == 0).
  { intros E. apply Qmult_integral in E. tauto. }
  repeat constructor; field; repeat split; auto; intros E; apply Hxy; lra.
Qed.

(** Cartesian to barycentric and back is the identity, in exact arithmetic,
    for every array of points and non-zero scales. *)
Theorem xy_roundtrip (xy : list (list Q)) (xscale yscale : Q) :
  shape_last_is 2 xy = true ->
  ~ xscale == 0 -> ~ yscale == 0 ->
  exists abc xy',
    xy_to_ABC xy xscale yscale = Ok abc /\
    ABC_to_xy abc xscale yscale = Ok xy' /\
    Forall2 (Forall2 Qeq) xy' xy.
Proof.
  intros Hs Hx Hy.
  exists (map (to_ABC_row xscale yscale) xy).
  exists (map (to_xy_row xscale yscale) (map (to_ABC_row xscale yscale) xy)).
  split; [apply xy_to_ABC_rows; auto using Q_nonzero|].
  split; [apply ABC_to_xy_rows, shape_last_is_map; reflexivity|].
  apply shape_last_is_length in Hs.
  induction Hs as [|p xy Hp Hs IH]; simpl; constructor; [|exact IH].
  now apply xy_row_roundtrip.
Qed.

Lemma xy_roundtrip_witness :
  exists abc xy',
    xy_to_ABC [[1 # 2; 1 # 3]; [5; -7]] 2 sqrt3_2 = Ok abc /\
    ABC_to_xy abc 2 sqrt3_2 = Ok xy' /\
    Forall2 (Forall2 Qeq) xy' [[1 # 2; 1 # 3]; [5; -7]].
Proof.
  apply (@xy_roundtrip [[1 # 2; 1 # 3]; [5; -7]] 2 sqrt3_2); [reflexivity | discriminate ..].
Defined.

Lemma units_row (k xscale yscale : Q) (r : list Q) :
  ~ k == 0 -> length r = 3%nat -> ~ sum r == 0 ->
  Forall2 Qeq (to_xy_row xscale yscale (map (Qmult k) r)) (to_xy_row xscale yscale r).
Proof.
  intros Hk Hr Hs. destruct r as [|a [|b [|c [|? ?]]]]; try discriminate.
  unfold to_xy_row, apply_affine, close_row, dot.
  cbn in Hs |- *. q_literals.
  assert (Hks : ~ k * (0 + a + b + c) == 0).
  { intros E. apply Qmult_integral in E. tauto. }
  repeat constructor; field; repeat split; auto; intros E; apply Hks; lra.
Qed.

(** The image of a composition does not depend on its unit: multiplying
    every part of every row by a non-zero factor (percent for fractions)
    leaves the Cartesian coordinates unchanged, in exact arithmetic. *)
Theorem ABC_to_xy_unit_free (ABC : list (list Q)) (k xscale yscale : Q) :
  ~ k == 0 ->
  Forall (fun r => length r = 3%nat /\ ~ sum r == 0) ABC ->
  exists xy xy',
    ABC_to_xy ABC xscale yscale = Ok xy /\
    ABC_to_xy (map (map (Qmult k)) ABC) xscale yscale = Ok xy' /\
    Forall2 (Forall2 Qeq) xy' xy.
Proof.
  intros Hk HA.
  exists (map (to_xy_row xscale yscale) ABC).
  exists (map (to_xy_row xscale yscale) (map (map (Qmult k)) ABC)).
  split; [|split].
  - apply ABC_to_xy_rows, shape_last_is_length.
    eapply Forall_impl; [|exact HA]. intros r [Hr _]. exact Hr.
  - apply ABC_to_xy_rows, shape_last_is_length, Forall_map.
    eapply Forall_impl; [|exact HA]. intros r [Hr _]. now rewrite length_map.
  - induction HA as [|r ABC [Hr Hs] HA IH]; simpl; constructor; [|exact IH].
    now apply units_row.
Qed.

Lemma ABC_to_xy_unit_free_witness :
  exists xy xy',
    ABC_to_xy [[1; 2; 5]; [3; 0; 1]] 1 sqrt3_2 = Ok xy /\
    ABC_to_xy (map (map (Qmult 100)) [[1; 2; 5]; [3; 0; 1]]) 1 sqrt3_2 = Ok xy' /\
    Forall2 (Forall2 Qeq) xy' xy.
Proof.
  apply (@ABC_to_xy_unit_free [[1; 2; 5]; [3; 0; 1]] 100 1 sqrt3_2); [discriminate|].
  repeat constructor; discriminate.
Defined.

Lemma triangle_row (xscale yscale : Q) (r : list Q) :
  0 < xscale -> 0 < yscale ->
  length r = 3%nat -> Forall (Qle 0) r -> 0 < sum r ->
  exists x y,
    to_xy_row xscale yscale r = [x; y] /\
    0 <= y <= yscale /\
    xscale * (y / yscale) / 2 <= x <= xscale * (1 - y / yscale / 2).
Proof.
  intros Hx Hy Hr Hpos Hs. destruct r as [|a [|b [|c [|? ?]]]]; try discriminate.
  apply Forall_cons_iff in Hpos as [Ha Hpos].
  apply Forall_cons_iff in Hpos as [Hb Hpos].
  apply Forall_cons_iff in Hpos as [Hc _].
  eexists. eexists. split; [reflexivity|].
  unfold dot, close_row. cbn in Hs |- *. q_literals.
  set (s := 0 + a + b + c) in *.
  assert (Ea : a / s == a * / s) by reflexivity.
  assert (Eb : b / s == b * / s) by reflexivity.
  assert (Hi : 0 < / s) by (apply Qinv_lt_0_compat; exact Hs).
  assert (Ha' : 0 <= a / s) by (rewrite Ea; apply Qmult_le_0_compat; lra).
  assert (Hb' : 0 <= b / s) by (rewrite Eb; apply Qmult_le_0_compat; lra).
  assert (Hc' : 0 <= c / s) by (apply Qmult_le_0_compat; lra).
  assert (Hsum : a / s + b / s + c / s == 1) by (unfold s; field; unfold s in Hs; lra).
  assert (Ey : (0 + 0 * (0 + 1 * (a / s) + 1 / 2 * (b / s) + 0 * 1)
                 + yscale * (0 + 0 * (a / s) + 1 * (b / s) + 0 * 1) + 0 * 1) / yscale
               == b / s) by (field; lra).
  rewrite Ey. clear Ey Ea Eb.
  revert Ha' Hb' Hc' Hsum. generalize (a / s), (b / s), (c / s). intros A B C HA HB HC Hsum.
  assert (P1 : 0 <= yscale * B) by (apply Qmult_le_0_compat; lra).
  assert (P2 : 0 <= yscale * (A + C)) by (apply Qmult_le_0_compat; lra).
  assert (P3 : 0 <= xscale * A) by (apply Qmult_le_0_compat; lra).
  assert (P4 : 0 <= xscale * C) by (apply Qmult_le_0_compat; lra).
  assert (E1 : yscale * (A + C) == yscale - yscale * B).
  { setoid_replace (A + C) with (1 - B) by lra. ring. }
  assert (E2 : xscale * C == xscale - xscale * A - xscale * B).
  { setoid_replace C with (1 - A - B) by lra. ring. }
  match goal with
  | |- _ /\ (_ <= ?e <= _) =>
      setoid_replace e with (xscale * A + xscale * B / 2) by field
  end.
  setoid_replace (xscale * (1 - B / 2)) with (xscale - xscale * B / 2) by field.
  assert (Eh : xscale * B / 2 == (1 # 2) * (xscale * B)) by field.
  repeat split; lra.
Qed.

(** The image of a composition lies in the triangle of the diagram: for
    positive scales and rows of three parts that are not negative and not all
    zero, every point [(x, y)] is between the base [y = 0] and the apex height
    [yscale], and between the left and the right edge. *)
Theorem ABC_to_xy_in_triangle (ABC : list (list Q)) (xscale yscale : Q) :
  0 < xscale -> 0 < yscale ->
  Forall (fun r => length r = 3%nat /\ Forall (Qle 0) r /\ 0 < sum r) ABC ->
  exists xy,
    ABC_to_xy ABC xscale yscale = Ok xy /\
    length xy = length ABC /\
    Forall (fun p => exists x y,
              p = [x; y] /\
              0 <= y <= yscale /\
              xscale * (y / yscale) / 2 <= x <= xscale * (1 - y / yscale / 2)) xy.
Proof.
  intros Hx Hy HA.
  exists (map (to_xy_row xscale yscale) ABC).
  split; [|split].
  - apply ABC_to_xy_rows, shape_last_is_length.
    eapply Forall_impl; [|exact HA]. intros r [Hr _]. exact Hr.
  - apply length_map.
  - apply Forall_map. eapply Forall_impl; [|exact HA].
    intros r (Hr & Hpos & Hs). now apply triangle_row.
Qed.

Lemma ABC_to_xy_in_triangle_witness :
  exists xy,
    ABC_to_xy [[1; 2; 5]; [3; 0; 1]; [0; 0; 4]] 1 sqrt3_2 = Ok xy /\
    length xy = 3%nat /\
    Forall (fun p => exists x y,
              p = [x; y] /\
              0 <= y <= sqrt3_2 /\
              1 * (y / sqrt3_2) / 2 <= x <= 1 * (1 - y / sqrt3_2 / 2)) xy.
Proof.
  apply (@ABC_to_xy_in_triangle [[1; 2; 5]; [3; 0; 1]; [0; 0; 4]] 1 sqrt3_2);
    [reflexivity | reflexivity |].
  repeat constructor; discriminate.
Defined.

(** ** The round trip in an arithmetic that rounds *)

Section RoundedArithmetic.
Import Rounding.

Lemma Qabs_near (x' x d : Q) : Qabs (x' - x) <= d -> Qabs x' <= Qabs x + d /\ Qabs x - d <= Qabs x'.
Proof.
  intros H.
  pose proof (Qabs_triangle_reverse x' x). pose proof (Qabs_triangle_reverse x x').
  assert (E : Qabs (x - x') == Qabs (x' - x)).
  { rewrite <- Qabs_opp. apply Qabs_wd. ring. }
  split; lra.
Qed.

Lemma Qabs_between (a b c : Q) : Qabs (a - c) <= Qabs (a - b) + Qabs (b - c).
Proof.
  assert (E : a - c == (a - b) + (b - c)) by ring.
  rewrite E. apply Qabs_triangle.
Qed.

Lemma Qmult_le_both (a b c d : Q) : 0 <= a <= c -> 0 <= b <= d -> a * b <= c * d.
Proof. intros [? ?] [? ?]. nra. Qed.

Lemma Qdiv_le_both (a b c d : Q) : 0 <= a <= c -> 0 < d <= b -> a / b <= c / d.
Proof.
  intros [? ?] [? ?].
  apply Qle_shift_div_l; [lra|].
  assert (E : a / b * d == (a * d) / b) by (field; lra).
  rewrite E. apply Qle_shift_div_r; [lra|]. nra.
Qed.

Lemma Qabs_Qdiv (a b : Q) : Qabs (a / b) == Qabs a / Qabs b.
Proof. unfold Qdiv. rewrite Qabs_Qmult, Qabs_Qinv. reflexivity. Qed.

Lemma up_ge (q : Q) : q <= up q.
Proof.
  unfold up, Qle. cbn [Qnum Qden].
  set (S := Zpos (10 ^ 24)). set (n := Qnum q). set (d := Zpos (Qden q)).
  assert (Hd : (0 < d)%Z) by (unfold d; lia).
  pose proof (Z.mul_succ_div_gt (n * S) d Hd). nia.
Qed.

(** Rounding up keeps an upper bound. *)
Lemma up_le (x q : Q) : x <= q -> x <= up q.
Proof. intros H. apply Qle_trans with q; [exact H|apply up_ge]. Qed.

(** *** Rounding to binary64 is accurate *)

Lemma nearest_even_spec (q : Q) : Qabs (inject_Z (nearest_even q) - q) <= 1 # 2.
Proof.
  unfold nearest_even.
  pose proof (Qfloor_le q) as Hl. pose proof (Qlt_floor q) as Hu.
  rewrite inject_Z_plus in Hu. change (inject_Z 1) with 1 in Hu.
  set (f := Qfloor q) in *.
  apply Qabs_Qle_condition.
  destruct (Qcompare_spec (q - inject_Z f) (1 # 2)) as [E|L|G].
  - destruct (Z.even f); [|rewrite inject_Z_plus; change (inject_Z 1) with 1]; split; lra.
  - split; lra.
  - rewrite inject_Z_plus. change (inject_Z 1) with 1. split; lra.
Qed.

Lemma two_power_pos (e : Z) : 0 < 2 ^ e.
Proof. apply Qpower_0_lt. reflexivity. Qed.

Lemma ilog2_lower (x : Q) : ~ x == 0 -> 2 ^ ilog2 x <= Qabs x.
Proof.
  intros Hx. unfold ilog2.
  set (n := Z.abs (Qnum x)). set (d := Zpos (Qden x)).
  destruct (Qle_bool (2 ^ (Z.log2 n - Z.log2 d)) (Qabs x)) eqn:E.
  - now apply Qle_bool_iff.
  - clear E.
    assert (Hn : (0 < n)%Z).
    { unfold n. assert (Qnum x <> 0%Z); [|lia].
      intros E. apply Hx. unfold Qeq. rewrite E. reflexivity. }
    assert (Hd : (0 < d)%Z) by (unfold d; lia).
    destruct (Z.log2_spec n Hn) as [Ln _]. destruct (Z.log2_spec d Hd) as [_ Ud].
    pose proof (Z.log2_nonneg n) as Nn. pose proof (Z.log2_nonneg d) as Nd.
    assert (Ex : Qabs x == inject_Z n / inject_Z d).
    { destruct x as [xn xd]. unfold n, d. cbn [Qnum Qden Qabs]. apply Qmake_Qdiv. }
    assert (Qn : 2 ^ Z.log2 n <= inject_Z n).
    { change 2 with (inject_Z 2). rewrite <- Zpower_Qpower by exact Nn.
      rewrite <- Zle_Qle. exact Ln. }
    assert (Qd : inject_Z d <= 2 ^ (Z.log2 d + 1)).
    { change 2 with (inject_Z 2). rewrite <- Zpower_Qpower by lia.
      rewrite <- Zle_Qle. unfold Z.succ in Ud. lia. }
    assert (Pd : 0 < inject_Z d).
    { change 0 with (inject_Z 0). rewrite <- Zlt_Qlt. exact Hd. }
    replace (Z.log2 n - Z.log2 d - 1)%Z with (Z.log2 n - (Z.log2 d + 1))%Z by lia.
    rewrite Qpower_minus by discriminate. rewrite Ex.
    pose proof (two_power_pos (Z.log2 n)). pose proof (two_power_pos (Z.log2 d + 1)).
    apply Qdiv_le_both; split; lra.
Qed.

Lemma ilog2_upper (x : Q) : Qabs x < 2 ^ (ilog2 x + 1).
Proof.
  unfold ilog2.
  set (n := Z.abs (Qnum x)). set (d := Zpos (Qden x)).
  destruct (Qle_bool (2 ^ (Z.log2 n - Z.log2 d)) (Qabs x)) eqn:E.
  - clear E.
    assert (Hd : (0 < d)%Z) by (unfold d; lia).
    assert (Hn : (0 <= n)%Z) by (unfold n; lia).
    destruct (Z.log2_spec d Hd) as [Ld _].
    pose proof (Z.log2_nonneg n) as Nn. pose proof (Z.log2_nonneg d) as Nd.
    assert (Un : (n < 2 ^ (Z.log2 n + 1))%Z).
    { destruct (Z.eq_dec n 0) as [->|Hn0].
      - cbn. lia.
      - destruct (Z.log2_spec n) as [_ U]; [lia|]. exact U. }
    assert (Ex : Qabs x == inject_Z n / inject_Z d).
    { destruct x as [xn xd]. unfold n, d. cbn [Qnum Qden Qabs]. apply Qmake_Qdiv. }
    assert (Qn : inject_Z n < 2 ^ (Z.log2 n + 1)).
    { change 2 with (inject_Z 2). rewrite <- Zpower_Qpower by lia.
      rewrite <- Zlt_Qlt. exact Un. }
    assert (Qd : 2 ^ Z.log2 d <= inject_Z d).
    { change 2 with (inject_Z 2). rewrite <- Zpower_Qpower by lia.
      rewrite <- Zle_Qle. exact Ld. }
    pose proof (two_power_pos (Z.log2 d)) as Pd.
    replace (Z.log2 n - Z.log2 d + 1)%Z with (Z.log2 n + 1 - Z.log2 d)%Z by lia.
    rewrite Qpower_minus by discriminate. rewrite Ex.
    apply Qlt_shift_div_l; [lra|].
    assert (N0 : 0 <= inject_Z n) by (rewrite <- (Zle_Qle 0); exact Hn).
    revert Qn Qd Pd N0. generalize (inject_Z n), (inject_Z d), (2 ^ Z.log2 d),
      (2 ^ (Z.log2 n + 1)).
    intros N D p q Qn Qd Pd N0.
    assert (Er : N / D * p == N * p / D) by (field; lra).
    rewrite Er. apply Qle_lt_trans with N; [|exact Qn].
    apply Qle_shift_div_r; [lra|]. nra.
  - replace (Z.log2 n - Z.log2 d - 1 + 1)%Z with (Z.log2 n - Z.log2 d)%Z by lia.
    apply Qnot_le_lt. intros H. apply Qle_bool_iff in H. congruence.
Qed.

Lemma round64_error (x : Q) :
  Qabs (round64 x - x) <= (1 # 9007199254740992) * Qabs x + 2 ^ (-1075).
Proof.
  pose proof (Qabs_nonneg x) as Nx. pose proof (two_power_pos (-1075)) as Pe.
  unfold round64. destruct (Qeq_bool x 0) eqn:E.
  - apply Qeq_bool_iff in E. rewrite E. change (Qabs (0 - 0)) with 0. change (Qabs 0) with 0. lra.
  - assert (Hx : ~ x == 0) by (intros H; apply Qeq_bool_iff in H; congruence).
    clear E. set (e := exponent x).
    pose proof (two_power_pos e) as Pp.
    set (N := inject_Z (nearest_even (x / 2 ^ e))).
    assert (Es : N * 2 ^ e - x == (N - x / 2 ^ e) * 2 ^ e) by (field; lra).
    rewrite Es, Qabs_Qmult, (Qabs_pos (2 ^ e)) by lra.
    pose proof (nearest_even_spec (x / 2 ^ e)) as Hn. fold N in Hn.
    assert (Hh : Qabs (N - x / 2 ^ e) * 2 ^ e <= (1 # 2) * 2 ^ e).
    { apply Qmult_le_compat_r; lra. }
    eapply Qle_trans; [exact Hh|]. clear Hh Hn Es N.
    unfold e, exponent. destruct (Z.max_spec (ilog2 x - 52) (-1074)) as [[_ ->] | [_ ->]].
    + assert (Eh : (1 # 2) * 2 ^ (-1074) == 2 ^ (-1075)) by reflexivity.
      rewrite Eh. lra.
    + rewrite Qpower_minus by discriminate.
      pose proof (ilog2_lower Hx) as Hl.
      assert (E52 : 2 ^ 52 == 4503599627370496) by reflexivity.
      rewrite E52. revert Hl. generalize (2 ^ ilog2 x). intros p Hl.
      assert (Ep : (1 # 2) * (p / 4503599627370496) == (1 # 9007199254740992) * p) by field.
      rewrite Ep. lra.
Qed.

(** What [round64] returns is a binary64 number: a multiple of [2^e], [e] at
    least [-1074], by an integer of at most [2^53] in absolute value. *)
Lemma round64_significand (x : Q) :
  (Z.abs (nearest_even (x / 2 ^ exponent x)) <= 2 ^ 53)%Z /\ (-1074 <= exponent x)%Z.
Proof.
  split; [|unfold exponent; lia].
  set (e := exponent x). pose proof (two_power_pos e) as Pe.
  assert (Hv : Qabs (x / 2 ^ e) < 2 ^ 53).
  { rewrite Qabs_Qdiv, (Qabs_pos (2 ^ e)) by lra.
    apply Qlt_shift_div_r; [exact Pe|].
    eapply Qlt_le_trans; [apply ilog2_upper|].
    rewrite <- Qpower_plus by discriminate.
    apply Qpower_le_compat_l; [unfold e, exponent; lia|discriminate]. }
  pose proof (nearest_even_spec (x / 2 ^ e)) as Hn.
  set (N := nearest_even (x / 2 ^ e)) in *.
  assert (HN : Qabs (inject_Z N) < 2 ^ 53 + 1).
  { destruct (Qabs_near Hn) as [H _]. lra. }
  assert (E53 : 2 ^ 53 + 1 == inject_Z (2 ^ 53 + 1)) by reflexivity.
  rewrite E53 in HN.
  assert (Ea : Qabs (inject_Z N) == inject_Z (Z.abs N)).
  { unfold inject_Z, Qabs. reflexivity. }
  rewrite Ea in HN. rewrite <- Zlt_Qlt in HN. lia.
Qed.

(** Round-to-nearest binary64 on the rationals is within a relative error
    [2^-53] and an absolute error [2^-1075] of exact arithmetic, whatever the
    range, and keeps the integers from [-2] to [2]. *)
Lemma binary64_Q_accurate (range : Q) :
  accurate binary64_Q (1 # 9007199254740992) (2 ^ (-1075)) range.
Proof.
  constructor; cbn [of_Z add sub mul div binary64_Q]; intros.
  - discriminate.
  - apply Qlt_le_weak, two_power_pos.
  - assert (Hz : z = (-2)%Z \/ z = (-1)%Z \/ z = 0%Z \/ z = 1%Z \/ z = 2%Z) by lia.
    destruct Hz as [-> | [-> | [-> | [-> | ->]]]]; vm_compute; reflexivity.
  - apply round64_error.
  - apply round64_error.
  - apply round64_error.
  - apply round64_error.
Qed.

(** A more accurate arithmetic is accurate. *)
Lemma accurate_weaken (A : Arith Q) (u eta range u' eta' range' : Q) :
  accurate A u eta range -> u <= u' -> eta <= eta' -> range' <= range ->
  accurate A u' eta' range'.
Proof.
  intros HA Hu He Hr.
  pose proof (acc_u HA). pose proof (acc_eta HA).
  assert (W : forall v x, Qabs v <= u * Qabs x + eta -> Qabs v <= u' * Qabs x + eta').
  { intros v x Hv. pose proof (Qabs_nonneg x). nra. }
  constructor; intros; try lra.
  - now apply (acc_lit HA).
  - apply W, (acc_add HA). lra.
  - apply W, (acc_sub HA). lra.
  - apply W, (acc_mul HA). lra.
  - apply W, (acc_div HA); [assumption|lra].
Qed.

Lemma binary64_Q_analysed : accurate binary64_Q rel_err abs_err magnitude.
Proof.
  apply (@accurate_weaken _ _ _ magnitude _ _ _ (binary64_Q_accurate magnitude)).
  - vm_compute. discriminate.
  - vm_compute. discriminate.
  - apply Qle_refl.
Qed.

Section Soundness.
Variables (A : Arith Q) (u eta range : Q).
Hypothesis HA : accurate A u eta range.
Variables (env : nat -> Q) (benv : nat -> bound).
Hypothesis Henv : forall n, holds (benv n) (env n) (env n).

Lemma rounded_sound (M d : Q) (b : bound) (fl x' ex : Q) :
  rounded u eta range M d = Some b ->
  Qabs ex <= M -> Qabs (x' - ex) <= d ->
  (Qabs x' <= range -> Qabs (fl - x') <= u * Qabs x' + eta) ->
  holds b fl ex.
Proof.
  unfold rounded. intros Hr HM Hd Hfl.
  destruct (Qle_bool (M + d) range) eqn:Hc; [|discriminate].
  apply Qle_bool_iff in Hc.
  assert (Eb : b = {| lower := 0; upper := M;
                       err := up (up (d + up (u * up (M + d))) + eta) |})
    by congruence.
  subst b. clear Hr.
  destruct (Qabs_near Hd) as [Hx' _].
  pose proof (acc_u HA) as Hu.
  assert (Hf : Qabs (fl - x') <= u * Qabs x' + eta) by (apply Hfl; lra).
  pose proof (Qabs_between fl x' ex) as Ht.
  pose proof (Qabs_nonneg ex) as N1. pose proof (Qabs_nonneg (fl - ex)) as N2.
  pose proof (up_ge (M + d)) as U1.
  pose proof (up_ge (u * up (M + d))) as U2.
  pose proof (up_ge (d + up (u * up (M + d)))) as U3.
  pose proof (up_ge (up (d + up (u * up (M + d))) + eta)) as U4.
  assert (Hux : u * Qabs x' <= u * up (M + d)).
  { rewrite !(Qmult_comm u). apply Qmult_le_compat_r; [lra|exact Hu]. }
  unfold holds, lower, upper, err; cbv beta iota.
  revert U2 U3 U4 Hux. generalize (u * up (M + d)). intros p U2.
  generalize (up p) U2. intros cp U2'. generalize (up (d + cp)). intros cq U3.
  generalize (up (cq + eta)). intros cr U4 Hux.
  repeat split; lra.
Qed.

Lemma analyse_sound (e : expr) (b : bound) :
  analyse u eta range benv e = Some b -> holds b (eval A env e) (eval Q_arith env e).
Proof.
  revert b. induction e as [n|z|a IHa c IHc|a IHa c IHc|a IHa c IHc|a IHa c IHc];
    intros b Hb; cbn [analyse eval] in *.
  - injection Hb as <-. apply Henv.
  - destruct (Z.leb (-2) z && Z.leb z 2)%bool eqn:Hz; [|discriminate].
    apply andb_true_iff in Hz. destruct Hz as [H1 H2].
    apply Z.leb_le in H1, H2.
    assert (Eb : b = {| lower := Qabs (inject_Z z); upper := Qabs (inject_Z z); err := 0 |})
      by congruence.
    subst b. clear Hb. unfold holds, lower, upper, err; cbv beta iota.
    cbn [of_Z Q_arith]. rewrite (acc_lit HA (conj H1 H2)).
    setoid_replace (inject_Z z - inject_Z z) with 0 by ring.
    repeat split; try apply Qle_refl.
  - destruct (analyse u eta range benv a) as [ba|]; [|discriminate].
    destruct (analyse u eta range benv c) as [bc|]; [|discriminate].
    destruct (IHa ba eq_refl) as (_ & Ua & Ea & _).
    destruct (IHc bc eq_refl) as (_ & Uc & Ec & _).
    cbn [add Q_arith].
    apply (rounded_sound (x' := eval A env a + eval A env c) Hb).
    + apply up_le. pose proof (Qabs_triangle (eval Q_arith env a) (eval Q_arith env c)). lra.
    + apply up_le.
      setoid_replace (eval A env a + eval A env c - (eval Q_arith env a + eval Q_arith env c))
        with ((eval A env a - eval Q_arith env a) + (eval A env c - eval Q_arith env c)) by ring.
      pose proof (Qabs_triangle (eval A env a - eval Q_arith env a) (eval A env c - eval Q_arith env c)).
      lra.
    + apply (acc_add HA).
  - destruct (analyse u eta range benv a) as [ba|]; [|discriminate].
    destruct (analyse u eta range benv c) as [bc|]; [|discriminate].
    destruct (IHa ba eq_refl) as (_ & Ua & Ea & _).
    destruct (IHc bc eq_refl) as (_ & Uc & Ec & _).
    cbn [sub Q_arith].
    apply (rounded_sound (x' := eval A env a - eval A env c) Hb).
    + apply up_le. pose proof (Qabs_triangle (eval Q_arith env a) (- eval Q_arith env c)).
      rewrite Qabs_opp in *. unfold Qminus. lra.
    + apply up_le.
      setoid_replace (eval A env a - eval A env c - (eval Q_arith env a - eval Q_arith env c))
        with ((eval A env a - eval Q_arith env a) + - (eval A env c - eval Q_arith env c)) by ring.
      pose proof (Qabs_triangle (eval A env a - eval Q_arith env a) (- (eval A env c - eval Q_arith env c))).
      rewrite Qabs_opp in *. lra.
    + apply (acc_sub HA).
  - destruct (analyse u eta range benv a) as [ba|]; [|discriminate].
    destruct (analyse u eta range benv c) as [bc|]; [|discriminate].
    destruct (IHa ba eq_refl) as (_ & Ua & Ea & Pa).
    destruct (IHc bc eq_refl) as (_ & Uc & Ec & Pc).
    cbn [mul Q_arith].
    set (x := eval Q_arith env a) in *. set (y := eval Q_arith env c) in *.
    set (x' := eval A env a) in *. set (y' := eval A env c) in *.
    pose proof (Qabs_nonneg x). pose proof (Qabs_nonneg y).
    pose proof (Qabs_nonneg (x' - x)). pose proof (Qabs_nonneg (y' - y)).
    apply (rounded_sound (x' := x' * y') Hb).
    + apply up_le. rewrite Qabs_Qmult. apply Qmult_le_both; split; assumption.
    + setoid_replace (x' * y' - x * y)
        with (x * (y' - y) + y * (x' - x) + (x' - x) * (y' - y)) by ring.
      apply up_le. eapply Qle_trans; [apply Qabs_triangle|].
      apply Qplus_le_compat;
        [apply up_le; eapply Qle_trans; [apply Qabs_triangle|]; apply Qplus_le_compat|];
        apply up_le; rewrite Qabs_Qmult; apply Qmult_le_both; split; assumption.
    + apply (acc_mul HA).
  - destruct (analyse u eta range benv a) as [ba|]; [|discriminate].
    destruct (analyse u eta range benv c) as [bc|]; [|discriminate].
    destruct (Qle_bool (lower bc) (err bc)) eqn:Hl; [discriminate|].
    assert (Hlt : err bc < lower bc).
    { apply Qnot_le_lt. intros Hle. apply Qle_bool_iff in Hle. congruence. }
    destruct (IHa ba eq_refl) as (_ & Ua & Ea & Pa).
    destruct (IHc bc eq_refl) as (Lc & Uc & Ec & Pc).
    cbn [div Q_arith].
    set (x := eval Q_arith env a) in *. set (y := eval Q_arith env c) in *.
    set (x' := eval A env a) in *. set (y' := eval A env c) in *.
    pose proof (Qabs_nonneg x). pose proof (Qabs_nonneg (x' - x)).
    pose proof (Qabs_nonneg (y' - y)).
    destruct (Qabs_near Ec) as [_ Ly'].
    assert (Hy : ~ y == 0).
    { intros E. rewrite E in Lc. change (Qabs 0) with 0 in Lc. lra. }
    assert (Hy' : ~ y' == 0).
    { intros E. rewrite E in Ly'. change (Qabs 0) with 0 in Ly'. lra. }
    apply (rounded_sound (x' := x' / y') Hb).
    + apply up_le. rewrite Qabs_Qdiv. apply Qdiv_le_both; split; try assumption; lra.
    + setoid_replace (x' / y' - x / y)
        with ((x' - x) / y' + - (x * (y' - y) / (y * y'))) by (field; split; assumption).
      apply up_le. eapply Qle_trans; [apply Qabs_triangle|]. rewrite Qabs_opp.
      apply Qplus_le_compat; apply up_le; rewrite Qabs_Qdiv.
      * apply Qdiv_le_both; split; try assumption; lra.
      * rewrite !Qabs_Qmult. apply Qdiv_le_both; split.
        -- apply Qmult_le_0_compat; assumption.
        -- apply up_le. apply Qmult_le_both; split; assumption.
        -- apply Qmult_lt_0_compat; lra.
        -- apply Qmult_le_both; split; lra.
    + intros Hr. apply (acc_div HA); assumption.
Qed.
End Soundness.

Lemma expr_eqb_eq (a b : expr) : expr_eqb a b = true -> a = b.
Proof.
  revert b. induction a as [n|z|a1 IH1 a2 IH2|a1 IH1 a2 IH2|a1 IH1 a2 IH2|a1 IH1 a2 IH2];
    intros [m|w|b1 b2|b1 b2|b1 b2|b1 b2]; cbn [expr_eqb]; try discriminate; intros E.
  - apply Nat.eqb_eq in E. congruence.
  - apply Z.eqb_eq in E. congruence.
  - apply andb_true_iff in E. destruct E as [E1 E2]. f_equal; auto.
  - apply andb_true_iff in E. destruct E as [E1 E2]. f_equal; auto.
  - apply andb_true_iff in E. destruct E as [E1 E2]. f_equal; auto.
  - apply andb_true_iff in E. destruct E as [E1 E2]. f_equal; auto.
Qed.

Lemma eval_name (A : Arith Q) (env : nat -> Q) (s : expr) (n : nat) (e : expr) :
  env n = eval A env s -> eval A env (name s n e) = eval A env e.
Proof.
  intros Hn. induction e as [m|z|a IHa b IHb|a IHa b IHb|a IHa b IHb|a IHa b IHb];
    cbn [name];
    match goal with |- context [expr_eqb ?x s] => destruct (expr_eqb x s) eqn:E end;
    try (apply expr_eqb_eq in E; subst s; exact Hn);
    cbn [eval]; congruence.
Qed.

Lemma Q_exact (u eta range : Q) : 0 <= u -> 0 <= eta -> accurate Q_arith u eta range.
Proof.
  intros Hu He.
  assert (Z : forall x, Qabs (x - x) <= u * Qabs x + eta).
  { intros x. setoid_replace (x - x) with 0 by ring. change (Qabs 0) with 0.
    pose proof (Qabs_nonneg x). nra. }
  constructor; cbn [of_Z add sub mul div Q_arith]; intros; auto; try reflexivity.
Qed.

Lemma near_one (a s e : Q) :
  Qabs a <= 2 -> Qabs (s - 1) <= e -> e < 1 -> Qabs (a / s - a) <= 2 * (e / (1 - e)).
Proof.
  intros Ha Hs He.
  destruct (Qabs_near Hs) as [_ Ls]. change (Qabs 1) with 1 in Ls.
  assert (Hs0 : ~ s == 0).
  { intros E. rewrite E in Ls. change (Qabs 0) with 0 in Ls. lra. }
  setoid_replace (a / s - a) with (a * (1 - s) / s) by (field; assumption).
  rewrite Qabs_Qdiv, Qabs_Qmult.
  assert (E : Qabs (1 - s) == Qabs (s - 1)).
  { rewrite <- Qabs_opp. apply Qabs_wd. ring. }
  pose proof (Qabs_nonneg a). pose proof (Qabs_nonneg (s - 1)).
  assert (Ed : 2 * (e / (1 - e)) == 2 * e / (1 - e)) by (field; lra).
  rewrite Ed.
  apply Qdiv_le_both; split; try lra.
  - apply Qmult_le_0_compat; lra.
  - apply Qmult_le_both; split; lra.
Qed.

Lemma part_holds (a : Q) : 0 <= a <= 2 -> holds (exactly 0 2) a a.
Proof.
  intros [? ?]. unfold holds, exactly, lower, upper, err.
  rewrite (Qabs_pos a) by assumption.
  setoid_replace (a - a) with 0 by ring. change (Qabs 0) with 0.
  repeat split; lra.
Qed.

Lemma exactly_holds (lo hi a : Q) : 0 <= lo -> lo <= a <= hi -> holds (exactly lo hi) a a.
Proof.
  intros ? [? ?]. unfold holds, exactly, lower, upper, err.
  rewrite (Qabs_pos a) by lra.
  setoid_replace (a - a) with 0 by ring. change (Qabs 0) with 0.
  repeat split; lra.
Qed.

Lemma total_dev_small : 0 <= total_dev /\ total_dev < 1.
Proof. split; vm_compute; [discriminate | reflexivity]. Qed.

(** Every expression of the round trip is analysed, and its error with the
    error of the closure is within the tolerance. *)
Lemma roundtrip_checked :
  forallb (fun e => match analyse rel_err abs_err magnitude (bounds_of roundtrip_bounds) e with
                    | Some b => Qle_bool (err b + closure_err) tol
                    | None => false
                    end) roundtrip_exprs = true.
Proof. vm_compute. reflexivity. Qed.

Lemma Forall2_map_In (A B C : Type) (R : A -> C -> Prop) (S : B -> C -> Prop) (f : A -> B)
    (l : list A) (m : list C) :
  (forall x y, In x l -> R x y -> S (f x) y) -> Forall2 R l m -> Forall2 S (map f l) m.
Proof.
  intros H HF. induction HF as [|x y l m Hxy HF IH]; cbn [map]; constructor.
  - apply H; [now left|exact Hxy].
  - apply IH. intros x' y' Hx'. apply H. now right.
Qed.

Section Row.
Variable A : Arith Q.
Hypothesis HA : accurate A rel_err abs_err magnitude.
Variables a b c yscale : Q.
Hypothesis Ha : 0 < a.
Hypothesis Hb : 0 < b.
Hypothesis Hc : 0 < c.
Hypothesis Hs : Qabs (a + b + c - 1) <= sum_tol.
Hypothesis Hy : yscale_min <= yscale <= yscale_max.

Lemma parts_below_two : a <= 2 /\ b <= 2 /\ c <= 2.
Proof.
  pose proof Hs as H. apply Qabs_Qle_condition in H.
  assert (Et : sum_tol <= 1) by discriminate.
  revert H Et. generalize sum_tol. intros d H Et. repeat split; lra.
Qed.

Lemma total_near_one : Qabs (@sum Q A [a; b; c] - 1) <= total_dev.
Proof.
  pose (env0 := values_of [a; b; c]).
  destruct parts_below_two as (Ba & Bb & Bc).
  assert (Henv0 : forall n, holds (bounds_of part_bounds n) (env0 n) (env0 n)).
  { intros [|[|[|[|n]]]]; cbn; try (apply part_holds; lra);
      apply exactly_holds; lra. }
  destruct (analyse rel_err abs_err magnitude (bounds_of part_bounds) total) as [bt|] eqn:Et;
    [|vm_compute in Et; discriminate].
  assert (Ee : total_err = err bt) by (unfold total_err; rewrite Et; reflexivity).
  destruct (@analyse_sound _ _ _ _ HA env0 _ Henv0 total _ Et) as (_ & _ & H & _).
  assert (Ex : eval Q_arith env0 total == a + b + c).
  { cbn. q_literals. lra. }
  rewrite Ex in H. unfold total_dev. rewrite Ee.
  pose proof (Qabs_between (@sum Q A [a; b; c]) (a + b + c) 1) as Ht.
  change (eval A env0 total) with (@sum Q A [a; b; c]) in H.
  revert H Hs Ht. generalize (err bt), sum_tol. intros. lra.
Qed.

Lemma env_holds (n : nat) :
  holds (bounds_of roundtrip_bounds n)
    (roundtrip_env A a b c yscale n) (roundtrip_env A a b c yscale n).
Proof.
  pose proof total_near_one as Ht. pose proof total_dev_small as [H0 H1].
  destruct parts_below_two as (Ba & Bb & Bc).
  apply Qabs_Qle_condition in Ht.
  unfold roundtrip_env, values_of, bounds_of, roundtrip_bounds, part_bounds.
  revert Ht H0 H1. generalize total_dev. intros te Ht H0 H1.
  assert (Hy' : (1 # 100) <= yscale <= 100) by exact Hy.
  destruct n as [|[|[|[|[|[|[|n]]]]]]]; cbn [nth app]; try (apply part_holds; lra);
    apply exactly_holds; try lra; try exact Hy; try discriminate.
Qed.

Lemma roundtrip_exact_at (s e : Q) :
  Qabs (s - 1) <= e -> 0 <= e -> e < 1 ->
  Forall2 (fun x v => Qabs (eval Q_arith (values_of [a; b; c; s; yscale; 1]) x - v)
                      <= 4 * (e / (1 - e)) + sum_tol)
    roundtrip_exprs [a; b; c].
Proof.
  intros Ht H H0.
  assert (Hs0 : ~ s == 0).
  { destruct (Qabs_near Ht) as [_ Ls]. change (Qabs 1) with 1 in Ls.
    intros E. rewrite E in Ls. change (Qabs 0) with 0 in Ls. lra. }
  assert (Hy0 : ~ yscale == 0).
  { assert (Hy' : (1 # 100) <= yscale) by apply Hy. lra. }
  destruct parts_below_two as (Ba & Bb & Bc).
  assert (Aa : Qabs a <= 2) by (rewrite Qabs_pos; lra).
  assert (Ab : Qabs b <= 2) by (rewrite Qabs_pos; lra).
  assert (Na := @near_one a s e Aa Ht H0). assert (Nb := @near_one b s e Ab Ht H0).
  assert (P : 0 <= e / (1 - e)).
  { apply Qle_shift_div_l; lra. }
  assert (Pt : 0 <= sum_tol) by discriminate.
  pose proof Hs as Hs'. revert Pt Hs'. generalize sum_tol. intros d Pt Hs'.
  let l := eval vm_compute in roundtrip_exprs in change roundtrip_exprs with l.
  repeat constructor; cbn [eval values_of nth]; q_literals.
  - match goal with |- Qabs ?x <= _ => setoid_replace x with (a / s - a) end; [lra|].
    field. auto.
  - match goal with |- Qabs ?x <= _ => setoid_replace x with (b / s - b) end; [lra|].
    field. auto.
  - match goal with
    | |- Qabs ?x <= _ =>
        setoid_replace x with (- ((a / s - a) + (b / s - b)) + - (a + b + c - 1))
    end.
    + eapply Qle_trans; [apply Qabs_triangle|]. rewrite !Qabs_opp.
      pose proof (Qabs_triangle (a / s - a) (b / s - b)). lra.
    + field. auto.
Qed.

Lemma roundtrip_exact :
  Forall2 (fun e v => Qabs (eval Q_arith (roundtrip_env A a b c yscale) e - v) <= closure_err)
    roundtrip_exprs [a; b; c].
Proof.
  apply roundtrip_exact_at; [apply total_near_one | apply total_dev_small ..].
Qed.

Lemma roundtrip_component (e : expr) (v : Q) :
  In e roundtrip_exprs ->
  Qabs (eval Q_arith (roundtrip_env A a b c yscale) e - v) <= closure_err ->
  approx tol (eval A (roundtrip_env A a b c yscale) e) v.
Proof.
  intros He Hex.
  pose proof (proj1 (forallb_forall _ _) roundtrip_checked e He) as Hchk. cbv beta in Hchk.
  destruct (analyse rel_err abs_err magnitude (bounds_of roundtrip_bounds) e) as [be|] eqn:Ee;
    [|discriminate].
  apply Qle_bool_iff in Hchk.
  set (env := roundtrip_env A a b c yscale) in *.
  pose proof (proj1 (proj2 (proj2 (@analyse_sound _ _ _ _ HA env _ env_holds e _ Ee)))) as Hr.
  pose proof (Qabs_between (eval A env e) (eval Q_arith env e) v) as Ht.
  unfold approx. revert Hex Hchk. generalize closure_err, tol. intros D T Hex Hchk. lra.
Qed.

Lemma roundtrip_code :
  to_ABC_row 1 yscale (to_xy_row 1 yscale [a; b; c]) =
  map (eval A (roundtrip_env A a b c yscale)) roundtrip_exprs.
Proof.
  unfold roundtrip_exprs. rewrite map_map.
  erewrite map_ext; [|intros e; apply eval_name; reflexivity].
  reflexivity.
Qed.

Lemma roundtrip_row_rounded :
  Forall2 (approx tol) (to_ABC_row 1 yscale (to_xy_row 1 yscale [a; b; c])) [a; b; c].
Proof.
  rewrite roundtrip_code.
  apply (Forall2_map_In
           (R := fun e v => Qabs (eval Q_arith (roundtrip_env A a b c yscale) e - v)
                            <= closure_err)).
  - intros e v. apply roundtrip_component.
  - exact roundtrip_exact.
Qed.

End Row.

(** The round trip in an arithmetic that rounds.  Whatever the arithmetic, as
    long as each of its operations is within a relative error of [1e-15] and
    an absolute error of [1e-15] of the exact one on results up to [1e6] in
    absolute value, and the integers from [-2] to [2] are exact: for every
    array of rows of three positive parts whose exact sum is within [1e-12]
    of one, an x scale of one and every y scale between [0.01] and [100],
    [ABC_to_xy] returns, [xy_to_ABC] returns on its result, and every part of
    the result is within [1e-9] of the part it started from. *)
Lemma roundtrip_with_rounding (A : Arith Q) (P : list (list Q)) (yscale : Q) :
  accurate A rel_err abs_err magnitude ->
  Forall (composition_within sum_tol) P ->
  yscale_min <= yscale <= yscale_max ->
  exists xy P',
    @ABC_to_xy Q A P 1 yscale = Ok xy /\
    @xy_to_ABC Q A Q_zero xy 1 yscale = Ok P' /\
    Forall2 (Forall2 (approx tol)) P' P.
Proof.
  intros HA HP Hy.
  exists (map (@to_xy_row Q A 1 yscale) P).
  exists (map (@to_ABC_row Q A 1 yscale) (map (@to_xy_row Q A 1 yscale) P)).
  split.
  { apply ABC_to_xy_rows, shape_last_is_length.
    eapply Forall_impl; [|exact HP].
    intros r (a & b & c & -> & _). reflexivity. }
  split.
  { apply xy_to_ABC_rows; [apply shape_last_is_map; reflexivity | reflexivity |].
    apply Q_nonzero. assert (Hy' : (1 # 100) <= yscale) by apply Hy. lra. }
  induction HP as [|r P Hr HP IH]; simpl; constructor; [|exact IH].
  destruct Hr as (a & b & c & -> & Ha & Hb & Hc & Hs).
  apply (@roundtrip_row_rounded A HA a b c yscale); assumption.
Qed.

(** C1. Round trip in binary64: for every array of compositions, three
    positive parts whose exact sum is one within [1e-12] (binary64 parts such
    as [0.33; 0.33; 0.34] sum to one only up to rounding), an x scale of one
    and every y scale between [0.01] and [100], [1.0] and [sqrt3_2], the
    binary64 value of [np.sqrt(3) / 2], among them: computed with every
    operation rounded to the nearest binary64 number, [ABC_to_xy] returns,
    [xy_to_ABC] returns on its result, and every part of the result is within
    [1e-9] of the part it started from. *)
Theorem C1_roundtrip (P : list (list Q)) (yscale : Q) :
  Forall (composition_within sum_tol) P ->
  yscale_min <= yscale <= yscale_max ->
  exists xy P',
    @ABC_to_xy Q binary64_Q P 1 yscale = Ok xy /\
    @xy_to_ABC Q binary64_Q Q_zero xy 1 yscale = Ok P' /\
    Forall2 (Forall2 (approx tol)) P' P.
Proof.
  intros HP Hy. now apply roundtrip_with_rounding; [apply binary64_Q_analysed| |].
Qed.

Lemma C1_roundtrip_witness :
  exists xy P',
    @ABC_to_xy Q binary64_Q (map (map binary64_value) spec_rows) 1 sqrt3_2 = Ok xy /\
    @xy_to_ABC Q binary64_Q Q_zero xy 1 sqrt3_2 = Ok P' /\
    Forall2 (Forall2 (approx tol)) P' (map (map binary64_value) spec_rows).
Proof.
  apply (@C1_roundtrip (map (map binary64_value) spec_rows) sqrt3_2).
  - repeat constructor.
    + exists (binary64_value (8 / 10)), (binary64_value (1 / 10)), (binary64_value (1 / 10)).
      split; [reflexivity|]. repeat split; vm_compute; (reflexivity || discriminate).
    + exists (binary64_value (33 / 100)), (binary64_value (33 / 100)),
        (binary64_value (34 / 100)).
      split; [reflexivity|]. repeat split; vm_compute; (reflexivity || discriminate).
  - split; discriminate.
Defined.

(** The rounding of [binary64_Q] is the rounding of the kernel's binary64
    floats on the round trip of the rows of the specification and of a few
    other compositions, with parts down to [2^-997], for both aspect scales:
    the two computations return the same numbers, bit for bit.  On the rows
    of the specification they are not the input. *)
Example binary64_Q_agrees :
  forallb (roundtrip_agrees
             (spec_rows ++
              [[1 / 3; 1 / 3; 1 / 3]; [98 / 100; 1 / 100; 1 / 100];
               [1 / 1000; 2 / 1000; 997 / 1000]; [0x1p-997; 1 / 2; 1 / 2];
               [7 / 10; 2 / 10; 1 / 10]]%float))
    [1%float; sqrt3_2_binary64] = true /\
  forallb (fun yscale =>
    match xy <- @ABC_to_xy Q binary64_Q (map (map binary64_value) spec_rows) 1 yscale ;;
          @xy_to_ABC Q binary64_Q Q_zero xy 1 yscale with
    | Ok R => negb (all2 (all2 Qeq_bool) R (map (map binary64_value) spec_rows))
    | Raise _ => false
    end) [1; sqrt3_2] = true.
Proof. split; vm_compute; reflexivity. Qed.

End RoundedArithmetic.

(** * The percentile contour solver *)

Lemma Qle_bool_false (a b : Q) : Qle_bool a b = false -> b < a.
Proof.
  intros E. apply Qnot_le_lt. intros L. apply Qle_bool_iff in L. congruence.
Qed.

Lemma Qeq_bool_false (a b : Q) : Qeq_bool a b = false -> ~ a == b.
Proof. intros E L. apply Qeq_bool_iff in L. congruence. Qed.

Lemma fold_left_Qplus (l : list Q) (acc : Q) :
  fold_left Qplus l acc == acc + fold_left Qplus l 0.
Proof.
  revert acc. induction l as [|a l IH]; intros acc; simpl.
  - ring.
  - rewrite (IH (acc + a)), (IH (0 + a)). ring.
Qed.

Lemma sum_cons (a : Q) (l : list Q) : sum (a :: l) == a + sum l.
Proof.
  unfold sum. cbn. change (inject_Z 0) with 0.
  rewrite fold_left_Qplus. ring.
Qed.

Lemma sum_nil : sum (@nil Q) == 0.
Proof. reflexivity. Qed.

(** The mass above a threshold does not grow with the threshold, as long as
    the thresholds are not negative. *)
Lemma mass_above_antitone (z : list (list Q)) (t t' : Q) :
  0 <= t -> t <= t' -> mass_above z t' <= mass_above z t.
Proof.
  intros H0 Ht. unfold mass_above.
  induction (cells z) as [|v l IH]; [apply Qle_refl|].
  cbn [map]. rewrite !sum_cons.
  apply Qplus_le_compat; [|exact IH].
  destruct (Qle_bool t' v) eqn:E'; destruct (Qle_bool t v) eqn:E.
  - apply Qle_refl.
  - apply Qle_bool_iff in E'. apply Qle_bool_false in E. lra.
  - apply Qle_bool_iff in E. lra.
  - apply Qle_refl.
Qed.

Lemma mass_above_mono_strict (z : list (list Q)) (t t' : Q) :
  0 <= t -> 0 <= t' -> mass_above z t < mass_above z t' -> t' <= t.
Proof.
  intros H0 H0' Hlt. destruct (Qlt_le_dec t t') as [L|L]; [|exact L].
  pose proof (@mass_above_antitone z t t' H0 (Qlt_le_weak _ _ L)). lra.
Qed.

(** *** The table of knots *)

Lemma insert_knot_In (k k' : Q * Q) (l : list (Q * Q)) :
  In k' (insert_knot k l) <-> k' = k \/ In k' l.
Proof.
  induction l as [|h l IH]; simpl.
  - intuition.
  - destruct (Qle_bool (fst k) (fst h)); simpl; [intuition|].
    rewrite IH. intuition.
Qed.

Lemma sort_knots_In (k : Q * Q) (l : list (Q * Q)) :
  In k (sort_knots l) <-> In k l.
Proof.
  induction l as [|h l IH]; simpl; [tauto|].
  rewrite insert_knot_In, IH. intuition.
Qed.

#[local] Instance knot_le_trans : Transitive knot_le.
Proof. intros a b c. unfold knot_le. apply Qle_trans. Qed.

Lemma insert_knot_sorted (k : Q * Q) (l : list (Q * Q)) :
  Sorted knot_le l -> Sorted knot_le (insert_knot k l).
Proof.
  induction l as [|h l IH]; intros Hs; simpl.
  - repeat constructor.
  - destruct (Qle_bool (fst k) (fst h)) eqn:E.
    + constructor; [exact Hs|]. constructor. now apply Qle_bool_iff.
    + apply Qle_bool_false in E. inversion Hs as [|? ? Hl Hh]; subst.
      constructor; [now apply IH|].
      destruct l as [|h' l']; simpl.
      * constructor. unfold knot_le. lra.
      * destruct (Qle_bool (fst k) (fst h')); constructor.
        -- unfold knot_le. lra.
        -- now inversion Hh.
Qed.

Lemma sort_knots_sorted (l : list (Q * Q)) : StronglySorted knot_le (sort_knots l).
Proof.
  apply Sorted_StronglySorted; [exact knot_le_trans|].
  induction l as [|h l IH]; simpl; [constructor|].
  now apply insert_knot_sorted.
Qed.

Lemma sort_knots_Forall (P : Q * Q -> Prop) (l : list (Q * Q)) :
  Forall P l -> Forall P (sort_knots l).
Proof.
  rewrite !Forall_forall. intros H k Hk. apply H. now apply sort_knots_In.
Qed.




Lemma map_fst_combine (A B : Type) (l : list A) (f : A -> B) :
  map fst (combine (map f l) l) = map f l.
Proof. induction l; simpl; congruence. Qed.

Lemma knots_of_table (z : list (list Q)) (t : list Q) :
  Forall (Qle 0) t -> Forall (knot_of z) (sort_knots (combine (integrals z t) t)).
Proof.
  intros Ht. apply sort_knots_Forall. unfold integrals.
  induction Ht as [|a t Ha Ht IH]; simpl; constructor; [|exact IH].
  split; [reflexivity|exact Ha].
Qed.

(** *** Linear interpolation between two knots *)

Lemma lerp_form (x0 x1 y0 y1 x : Q) :
  x0 < x1 ->
  (y1 - y0) / (x1 - x0) * (x - x0) + y0 == y0 - (y0 - y1) * ((x - x0) / (x1 - x0)).
Proof. intros Hx. field. lra. Qed.

Lemma ratio_bounds (x0 x1 x : Q) :
  x0 < x1 -> x0 <= x <= x1 -> 0 <= (x - x0) / (x1 - x0) <= 1.
Proof.
  intros Hx [Hl Hr]. split.
  - apply Qle_shift_div_l; lra.
  - apply Qle_shift_div_r; lra.
Qed.

Lemma lerp_between (x0 x1 y0 y1 x : Q) :
  x0 < x1 -> x0 <= x <= x1 -> y1 <= y0 ->
  y1 <= (y1 - y0) / (x1 - x0) * (x - x0) + y0 <= y0.
Proof.
  intros Hx Hin Hy. rewrite (lerp_form y0 y1 x Hx).
  pose proof (ratio_bounds Hx Hin) as [L0 L1].
  set (r := (x - x0) / (x1 - x0)) in *.
  assert (P0 : 0 <= (y0 - y1) * r) by (apply Qmult_le_0_compat; lra).
  assert (P1 : 0 <= (y0 - y1) * (1 - r)) by (apply Qmult_le_0_compat; lra).
  split; lra.
Qed.

Lemma lerp_antitone (x0 x1 y0 y1 a b : Q) :
  x0 < x1 -> y1 <= y0 -> a <= b ->
  (y1 - y0) / (x1 - x0) * (b - x0) + y0 <= (y1 - y0) / (x1 - x0) * (a - x0) + y0.
Proof.
  intros Hx Hy Hab.
  assert (S0 : 0 <= (y0 - y1) / (x1 - x0)) by (apply Qle_shift_div_l; lra).
  assert (P : 0 <= (y0 - y1) / (x1 - x0) * (b - a)) by (apply Qmult_le_0_compat; lra).
  setoid_replace ((y1 - y0) / (x1 - x0)) with (- ((y0 - y1) / (x1 - x0))) by (field; lra).
  lra.
Qed.

(** Two knots with different integrals have their thresholds in the opposite
    order. *)
Lemma knots_opposite (z : list (list Q)) (k0 k1 : Q * Q) :
  knot_of z k0 -> knot_of z k1 -> fst k0 < fst k1 -> snd k1 <= snd k0.
Proof.
  intros [E0 P0] [E1 P1] Hlt. rewrite E0, E1 in Hlt.
  now apply (mass_above_mono_strict z).
Qed.

Lemma last_cons2 (A : Type) (a b d : A) (l : list A) :
  last (a :: b :: l) d = last (b :: l) d.
Proof. reflexivity. Qed.

Lemma last_default (A : Type) (a d d' : A) (l : list A) :
  last (a :: l) d = last (a :: l) d'.
Proof.
  revert a. induction l as [|b l IH]; intros a; [reflexivity|].
  rewrite !last_cons2. apply IH.
Qed.

(** Inside its range the interpolant returns a threshold whose mass lies
    between the two neighbouring tabulated integrals that enclose the
    argument. *)
Lemma interp_bracket (z : list (list Q)) (knots : list (Q * Q)) :
  StronglySorted knot_le knots ->
  Forall (knot_of z) knots ->
  forall (k0 : Q * Q) (x : Q),
    hd_error knots = Some k0 ->
    fst k0 <= x -> x <= fst (last knots k0) ->
    exists lo hi,
      In lo (map fst knots) /\ In hi (map fst knots) /\
      (forall v, In v (map fst knots) -> ~ (lo < v /\ v < hi)) /\
      lo <= x <= hi /\
      0 <= interp_linear knots x /\
      lo <= mass_above z (interp_linear knots x) <= hi.
Proof.
  induction knots as [|[x0 y0] tl IH]; intros Hs Hk k0 x Hhd Hlo Hhi; [discriminate|].
  injection Hhd as <-. cbn [fst] in Hlo.
  apply StronglySorted_inv in Hs as [Hs' Hall].
  pose proof (Forall_inv Hk) as [E0 P0]. apply Forall_inv_tail in Hk as Hk'.
  cbn [fst snd] in E0, P0.
  destruct tl as [|[x1 y1] tl'].
  - cbn in Hhi |- *. exists x0, x0. rewrite <- E0.
    repeat split; auto; try lra. intros v _ [A B]. lra.
  - rewrite last_cons2, (last_default _ _ (x1, y1)) in Hhi.
    cbn [interp_linear]. destruct (Qle_bool x1 x) eqn:E1.
    + apply Qle_bool_iff in E1.
      destruct (IH Hs' Hk' (x1, y1) x eq_refl E1 Hhi)
        as (lo & hi & Il & Ih & Hgap & Hx & Ht & Hm).
      exists lo, hi. repeat split; try tauto; try (now right).
      intros v [<-|Hv]; [|now apply Hgap].
      apply in_map_iff in Il. destruct Il as (kl & <- & Il).
      rewrite Forall_forall in Hall. specialize (Hall kl Il). unfold knot_le in Hall.
      cbn [fst] in Hall |- *. intros [A B]. lra.
    + apply Qle_bool_false in E1.
      pose proof (Forall_inv Hk') as [E1' P1]. cbn [fst snd] in E1', P1.
      destruct (Qeq_bool x x0) eqn:E2.
      * apply Qeq_bool_iff in E2. exists x0, x0. rewrite <- E0.
        repeat split; auto; try lra; try (now left). intros v _ [A B]. lra.
      * apply Qeq_bool_false in E2.
        assert (Hx01 : x0 < x1) by lra.
        assert (Hy : y1 <= y0).
        { apply (@knots_opposite z (x0, y0) (x1, y1)); [split|split|]; assumption. }
        pose proof (@lerp_between x0 x1 y0 y1 x Hx01 (conj Hlo (Qlt_le_weak _ _ E1)) Hy) as [T1 T0].
        set (t := (y1 - y0) / (x1 - x0) * (x - x0) + y0) in *.
        assert (Pt : 0 <= t) by lra.
        exists x0, x1. repeat split; try lra.
        -- now left.
        -- right. now left.
        -- intros v [<-|[<-|Hv]] [A B]; cbn [fst] in *; try lra.
           apply StronglySorted_inv in Hs' as [_ Hall1].
           apply in_map_iff in Hv. destruct Hv as (kv & <- & Hv).
           rewrite Forall_forall in Hall1. specialize (Hall1 kv Hv).
           unfold knot_le in Hall1. cbn [fst] in Hall1. lra.
        -- rewrite E0. now apply mass_above_antitone.
        -- rewrite E1'. now apply mass_above_antitone.
Qed.

(** *** The run of the solver *)

Lemma fold_Qmax_In (l : list Q) (x : Q) : In (fold_left Qmax' l x) (x :: l).
Proof.
  revert x. induction l as [|a l IH]; intros x; [now left|].
  cbn [fold_left]. destruct (IH (Qmax' x a)) as [E|Hin].
  - rewrite <- E. unfold Qmax'. destruct (Qle_bool x a); [right|]; now left.
  - right. now right.
Qed.

Lemma array_max_In (l : list Q) (m : Q) : array_max l = Ok m -> In m l.
Proof.
  destruct l as [|x l]; [discriminate|]. intros [= <-]. apply fold_Qmax_In.
Qed.

Lemma fold_Qmax_upper (l : list Q) (x : Q) :
  x <= fold_left Qmax' l x /\ Forall (fun v => v <= fold_left Qmax' l x) l.
Proof.
  revert x. induction l as [|a l IH]; intros x; simpl; [split; [apply Qle_refl|constructor]|].
  destruct (IH (Qmax' x a)) as [H1 H2].
  assert (Hx : x <= Qmax' x a /\ a <= Qmax' x a).
  { unfold Qmax'. destruct (Qle_bool x a) eqn:E.
    - apply Qle_bool_iff in E. split; lra.
    - apply Qle_bool_false in E. split; lra. }
  split; [lra|]. constructor; [lra|exact H2].
Qed.

Lemma array_max_upper (l : list Q) (m : Q) :
  array_max l = Ok m -> Forall (fun v => v <= m) l.
Proof.
  destruct l as [|x l]; [discriminate|]. intros [= <-].
  destruct (fold_Qmax_upper l x). now constructor.
Qed.

Lemma linspace_length (start stop : Q) (num : nat) : length (linspace start stop num) = num.
Proof.
  destruct num as [|[|n]]; [reflexivity| reflexivity|].
  unfold linspace. rewrite length_app, length_map, length_seq. simpl. lia.
Qed.

Lemma nth_map_seq (f : nat -> Q) (n i : nat) :
  (i < n)%nat -> nth i (map f (seq 0 n)) 0 = f i.
Proof.
  intros Hi. rewrite (nth_indep _ 0 (f 0%nat)) by (now rewrite length_map, length_seq).
  rewrite map_nth, seq_nth by exact Hi. reflexivity.
Qed.

(** [np.linspace] is evenly spaced, its last sample included. *)
Lemma linspace_evenly_spaced (lo hi : Q) (n : nat) :
  (2 <= n)%nat ->
  evenly_spaced lo ((hi - lo) / inject_Z (Z.of_nat (n - 1))) (linspace lo hi n).
Proof.
  intros Hn. destruct n as [|[|m]]; try lia.
  replace (S (S m) - 1)%nat with (S m) by lia.
  intros i Hi. rewrite linspace_length in Hi.
  assert (Hm : ~ inject_Z (Z.of_nat (S m)) == 0).
  { intros E. assert (H : 0 < inject_Z (Z.of_nat (S m))) by (rewrite <- (Zlt_Qlt 0); lia).
    rewrite E in H. discriminate. }
  unfold linspace.
  destruct (Nat.eq_dec i (S m)) as [->|Ne].
  - rewrite app_nth2 by (rewrite length_map, length_seq; lia).
    rewrite length_map, length_seq, Nat.sub_diag. cbn [nth]. field. exact Hm.
  - rewrite app_nth1 by (rewrite length_map, length_seq; lia).
    rewrite nth_map_seq by lia. ring.
Qed.

Lemma linspace_nonneg (stop : Q) (num : nat) :
  0 <= stop -> Forall (Qle 0) (linspace 0 stop num).
Proof.
  intros Hs. destruct num as [|[|n]]; [constructor|repeat constructor; apply Qle_refl|].
  unfold linspace. apply Forall_app. split; [|repeat constructor; exact Hs].
  apply Forall_forall. intros v Hv. apply in_map_iff in Hv. destruct Hv as (i & <- & _).
  assert (0 <= inject_Z (Z.of_nat i)).
  { rewrite <- (Zle_Qle 0). lia. }
  assert (0 <= (stop - 0) / inject_Z (Z.of_nat (S n))).
  { apply Qle_shift_div_l; [|lra]. rewrite <- (Zlt_Qlt 0). lia. }
  assert (0 <= inject_Z (Z.of_nat i) * ((stop - 0) / inject_Z (Z.of_nat (S n))))
    by (now apply Qmult_le_0_compat).
  lra.
Qed.

Lemma thresholds_nonneg (z : list (list Q)) (resolution : nat) (t : list Q) :
  Forall (Forall (Qle 0)) z ->
  thresholds z resolution = Ok t ->
  Forall (Qle 0) t /\ length t = resolution.
Proof.
  intros Hz. unfold thresholds.
  destruct (array_max (cells z)) as [zmax|e] eqn:E; [|discriminate].
  intros [= <-]. split; [|apply linspace_length].
  apply linspace_nonneg. apply array_max_In in E.
  unfold cells in E. apply in_concat in E. destruct E as (row & Hrow & Hin).
  rewrite Forall_forall in Hz. specialize (Hz row Hrow).
  rewrite Forall_forall in Hz. now apply Hz.
Qed.

Lemma interp1d_table (z : list (list Q)) (t : list Q) :
  (2 <= length t)%nat -> interp1d (integrals z t) t = Ok (table z t).
Proof. destruct t as [|a [|b t]]; simpl; intros; try lia; reflexivity. Qed.

(** The solver is [contours_from_table] on the thresholds, the integrals and
    the targets it computes. *)
Lemma solver_from_table (z : list (list Q)) (percentiles : list Q) (resolution : nat)
    (t : list Q) :
  thresholds z resolution = Ok t ->
  percentile_contour_values_from_meshz z percentiles resolution =
  contours_from_table (fun v => isclose v 1) t (integrals z t) (sorted_reverse percentiles)
    (map (target z) (sorted_reverse percentiles)).
Proof. intros Ht. unfold percentile_contour_values_from_meshz. now rewrite Ht. Qed.

Lemma table_fst (z : list (list Q)) (t : list Q) (v : Q) :
  In v (map fst (table z t)) <-> In v (integrals z t).
Proof.
  unfold table. rewrite <- (map_fst_combine t (mass_above z)) at 2.
  fold (integrals z t). rewrite !in_map_iff.
  split; intros (k & E & Hk); exists k; (split; [exact E|]); now apply sort_knots_In.
Qed.

Lemma sorted_last (l : list (Q * Q)) (d k : Q * Q) :
  StronglySorted knot_le l -> In k l -> knot_le k (last l d).
Proof.
  revert k. induction l as [|a l IH]; intros k Hs Hk; [contradiction|].
  apply StronglySorted_inv in Hs as [Hs Hall].
  destruct l as [|b l'].
  - destruct Hk as [<-|[]]. apply Qle_refl.
  - rewrite last_cons2. destruct Hk as [<-|Hk]; [|now apply IH].
    rewrite Forall_forall in Hall. transitivity b; [apply Hall; now left|].
    apply IH; [exact Hs|now left].
Qed.

Lemma in_bounds_iff (knots : list (Q * Q)) (k0 : Q * Q) (x : Q) :
  hd_error knots = Some k0 ->
  out_of_bounds knots x = false <-> fst k0 <= x /\ x <= fst (last knots k0).
Proof.
  destruct knots as [|k tl]; [discriminate|]. intros [= <-].
  unfold out_of_bounds. rewrite orb_false_iff, !negb_false_iff, !Qle_bool_iff. tauto.
Qed.

Lemma in_range_in_bounds (z : list (list Q)) (t : list Q) (x : Q) :
  (exists lo hi, In lo (integrals z t) /\ In hi (integrals z t) /\ lo <= x <= hi) ->
  out_of_bounds (table z t) x = false.
Proof.
  intros (lo & hi & Hlo & Hhi & Hl & Hh).
  apply table_fst in Hlo, Hhi. apply in_map_iff in Hlo, Hhi.
  destruct Hlo as (kl & <- & Hkl), Hhi as (kh & <- & Hkh).
  pose proof (sort_knots_sorted (combine (integrals z t) t)) as Hs. fold (table z t) in Hs.
  destruct (table z t) as [|k0 tl] eqn:E; [contradiction|].
  apply (@in_bounds_iff _ k0); [reflexivity|]. split.
  - apply Qle_trans with (fst kl); [|exact Hl].
    destruct Hkl as [<-|Hkl]; [apply Qle_refl|].
    apply StronglySorted_inv in Hs as [_ Hall]. rewrite Forall_forall in Hall. now apply Hall.
  - apply Qle_trans with (fst kh); [exact Hh|]. now apply sorted_last.
Qed.

Lemma achievable_in_bounds (z : list (list Q)) (t : list Q) (p : Q) :
  achievable z t p -> out_of_bounds (table z t) (target z p) = false.
Proof. apply in_range_in_bounds. Qed.

Lemma insert_desc_In (p q : Q) (l : list Q) :
  In q (insert_desc p l) <-> q = p \/ In q l.
Proof.
  induction l as [|h l IH]; simpl.
  - intuition.
  - destruct (Qle_bool h p); simpl; [intuition|]. rewrite IH. intuition.
Qed.

Lemma sorted_reverse_In (q : Q) (l : list Q) : In q (sorted_reverse l) <-> In q l.
Proof.
  induction l as [|h l IH]; simpl; [tauto|].
  rewrite insert_desc_In, IH. intuition.
Qed.




(** When every requested percentile is achievable the solver logs nothing and
    returns the percentiles, sorted, with the interpolated thresholds. *)
Lemma solver_achievable (z : list (list Q)) (percentiles : list Q) (resolution : nat)
    (t : list Q) :
  thresholds z resolution = Ok t ->
  (2 <= length t)%nat ->
  Forall (achievable z t) percentiles ->
  percentile_contour_values_from_meshz z percentiles resolution =
  ([], Ok (map Percentile (sorted_reverse percentiles),
           map (fun p => interp_linear (table z t) (target z p)) (sorted_reverse percentiles))).
Proof.
  intros Ht Hne Hall. unfold percentile_contour_values_from_meshz, contours_from_table.
  rewrite Ht, (@interp1d_table z t Hne). unfold interp_call.
  assert (E : existsb (out_of_bounds (table z t))
                (map (fun p => p * sum (cells z)) (sorted_reverse percentiles)) = false).
  { apply not_true_is_false. intros Hex. apply existsb_exists in Hex.
    destruct Hex as (x & Hx & Hout). apply in_map_iff in Hx. destruct Hx as (p & <- & Hp).
    apply -> sorted_reverse_In in Hp. rewrite Forall_forall in Hall.
    pose proof (achievable_in_bounds (Hall p Hp)) as Hin. unfold target in Hin. congruence. }
  rewrite E, map_map. reflexivity.
Qed.

Lemma table_hd (z : list (list Q)) (t : list Q) :
  t <> [] -> exists k0, hd_error (table z t) = Some k0.
Proof.
  intros Hne. destruct (table z t) as [|k0 tl] eqn:E; [|now exists k0].
  exfalso. destruct t as [|a t']; [congruence|].
  assert (Hin : In (mass_above z a, a) (table z (a :: t'))).
  { apply sort_knots_In. now left. }
  rewrite E in Hin. contradiction.
Qed.









(** *** Monotonicity of the interpolant *)








Lemma sum_nonneg (l : list Q) : Forall (Qle 0) l -> 0 <= sum l.
Proof.
  induction 1 as [|a l Ha _ IH]; [apply Qle_refl|]. rewrite sum_cons. lra.
Qed.

Lemma cells_nonneg (z : list (list Q)) : Forall (Forall (Qle 0)) z -> Forall (Qle 0) (cells z).
Proof.
  intros Hz. apply Forall_forall. intros v Hv. unfold cells in Hv.
  apply in_concat in Hv. destruct Hv as (row & Hrow & Hin).
  rewrite Forall_forall in Hz. specialize (Hz row Hrow).
  rewrite Forall_forall in Hz. now apply Hz.
Qed.

Lemma target_mono (z : list (list Q)) (p1 p2 : Q) :
  Forall (Forall (Qle 0)) z -> p1 <= p2 -> target z p1 <= target z p2.
Proof.
  intros Hz Hp. unfold target.
  pose proof (sum_nonneg (cells_nonneg Hz)).
  apply Qmult_le_compat_r; assumption.
Qed.


Lemma in_combine_map (A B : Type) (f : A -> B) (l : list A) (a : A) (b : B) :
  In (a, b) (combine l (map f l)) -> b = f a.
Proof.
  induction l as [|x l IH]; simpl; [contradiction|].
  intros [[= -> ->]|H]; [reflexivity|now apply IH].
Qed.

(** C4 at its failing input.  On the matrix [[1; 4; 8]] with nine thresholds
    the percentiles [7/8 < 15/16] are both achievable, and the solver returns
    the threshold [47/16] for [7/8] and [13/4] for [15/16]: the larger
    percentile gets the larger threshold.  The tabulated integral [12], between
    the two targets, is a plateau of three thresholds; [interp1d] sorts the
    knots by integral and keeps the thresholds of a plateau in ascending
    order, so the interpolant jumps upwards there.  Every number involved is a
    multiple of [1/16] well below [2^53], so binary64 computes the same. *)
Lemma C4_plateau_inverts_thresholds :
  Forall (achievable [[1; 4; 8]] (linspace 0 8 9)) [7 # 8; 15 # 16] /\
  contours (percentile_contour_values_from_meshz [[1; 4; 8]] [7 # 8; 15 # 16] 9) =
    Ok ([Percentile (15 # 16); Percentile (7 # 8)], [13 # 4; 47 # 16]) /\
  7 # 8 < 15 # 16 /\ 47 # 16 < 13 # 4 /\
  occurrences 12 (integrals [[1; 4; 8]] (linspace 0 8 9)) = 3%nat /\
  map (fun k => (Qred (fst k), Qred (snd k))) (table [[1; 4; 8]] (linspace 0 8 9)) =
    [(8, 5); (8, 6); (8, 7); (8, 8); (12, 2); (12, 3); (12, 4); (13, 0); (13, 1)].
Proof.
  split.
  { repeat constructor; exists 8, 13; vm_compute; intuition discriminate. }
  vm_compute. repeat split.
Qed.



(** In the run of this witness the tabulated integrals are [24; 23; 20; 15;
    8], each tabulated once; [15] and [20] lie between the targets [12] and
    [22] of the two percentiles, and the returned thresholds are [8/3] for
    [11/12] and [48/7] for [1/2]. *)
Example ascending_thresholds_run :
  integrals [[1; 3; 5; 7; 8]] (linspace 0 8 5) = [24; 23; 20; 15; 8] /\
  map (fun p => Qred (target [[1; 3; 5; 7; 8]] p)) [1 # 2; 11 # 12] = [12; 22] /\
  contours (percentile_contour_values_from_meshz [[1; 3; 5; 7; 8]] [1 # 2; 11 # 12] 5) =
    Ok ([Percentile (11 # 12); Percentile (1 # 2)], [8 # 3; 48 # 7]).
Proof. vm_compute. repeat split. Qed.


(** *** The enclosed mass *)

Lemma interp_linear_step (x0 y0 x1 y1 x : Q) (tl : list (Q * Q)) :
  interp_linear ((x0, y0) :: (x1, y1) :: tl) x =
  if Qle_bool x1 x then interp_linear ((x1, y1) :: tl) x
  else if Qeq_bool x x0 then y0
  else (y1 - y0) / (x1 - x0) * (x - x0) + y0.
Proof. reflexivity. Qed.

Lemma interp_mass_monotone (z : list (list Q)) (knots : list (Q * Q)) :
  StronglySorted knot_le knots ->
  Forall (knot_of z) knots ->
  forall (k0 : Q * Q) (a b : Q),
    hd_error knots = Some k0 ->
    fst k0 <= a -> a <= b -> b <= fst (last knots k0) ->
    mass_above z (interp_linear knots a) <= mass_above z (interp_linear knots b).
Proof.
  induction knots as [|[x0 y0] tl IH]; intros Hs Hk k0 a b Hhd Ha Hab Hb; [discriminate|].
  injection Hhd as <-. cbn [fst] in Ha.
  destruct tl as [|[x1 y1] tl']; [apply Qle_refl|].
  rewrite last_cons2, (last_default _ _ (x1, y1)) in Hb.
  pose proof (Forall_inv Hk) as [E0 P0]. pose proof (Forall_inv_tail Hk) as Hk'.
  pose proof (Forall_inv Hk') as [E1 P1]. cbn [fst snd] in E0, P0, E1, P1.
  apply StronglySorted_inv in Hs as [Hs' Hall].
  rewrite !interp_linear_step. destruct (Qle_bool x1 a) eqn:Ea.
  - apply Qle_bool_iff in Ea.
    assert (Eb : Qle_bool x1 b = true) by (apply Qle_bool_iff; lra). rewrite Eb.
    exact (IH Hs' Hk' (x1, y1) a b eq_refl Ea Hab Hb).
  - apply Qle_bool_false in Ea.
    assert (Hx : x0 < x1) by lra.
    assert (Hy : y1 <= y0).
    { apply (@knots_opposite z (x0, y0) (x1, y1));
        [exact (Forall_inv Hk) | exact (Forall_inv Hk') | exact Hx]. }
    pose proof (@lerp_between x0 x1 y0 y1 a Hx (conj Ha (Qlt_le_weak _ _ Ea)) Hy) as [La Ua].
    set (ta := if Qeq_bool a x0 then y0 else (y1 - y0) / (x1 - x0) * (a - x0) + y0).
    assert (Hta : y1 <= ta <= y0) by (unfold ta; destruct (Qeq_bool a x0); lra).
    destruct (Qle_bool x1 b) eqn:Eb.
    + apply Qle_bool_iff in Eb.
      destruct (@interp_bracket z _ Hs' Hk' (x1, y1) b eq_refl Eb Hb)
        as (lo & hi & Il & _ & _ & _ & _ & Hm).
      assert (Hlo : x1 <= lo).
      { destruct Il as [<-|Il]; [apply Qle_refl|].
        apply StronglySorted_inv in Hs' as [_ Hall1].
        apply in_map_iff in Il. destruct Il as (kl & <- & Il).
        rewrite Forall_forall in Hall1. exact (Hall1 kl Il). }
      apply Qle_trans with x1; [|lra].
      rewrite E1. apply mass_above_antitone; lra.
    + apply Qle_bool_false in Eb.
      pose proof (@lerp_between x0 x1 y0 y1 b Hx
                    (conj (Qle_trans _ _ _ Ha Hab) (Qlt_le_weak _ _ Eb)) Hy) as [Lb Ub].
      unfold ta. destruct (Qeq_bool a x0) eqn:Ea0.
      * destruct (Qeq_bool b x0); [apply Qle_refl|].
        apply mass_above_antitone; lra.
      * apply Qeq_bool_false in Ea0.
        assert (Eb0 : Qeq_bool b x0 = false).
        { apply not_true_is_false. intros E. apply Qeq_bool_iff in E. apply Ea0. lra. }
        rewrite Eb0. apply mass_above_antitone; [lra|]. now apply lerp_antitone.
Qed.

(** In exact arithmetic, with a resolution of at least two and every
    requested percentile achievable, the mass enclosed by the returned
    threshold does not decrease with the percentile, plateaus or not. *)
Theorem enclosed_mass_monotone (z : list (list Q)) (percentiles : list Q) (resolution : nat)
    (t : list Q) :
  Forall (Forall (Qle 0)) z ->
  (2 <= resolution)%nat ->
  thresholds z resolution = Ok t ->
  Forall (achievable z t) percentiles ->
  exists ts,
    percentile_contour_values_from_meshz z percentiles resolution =
      ([], Ok (map Percentile (sorted_reverse percentiles), ts)) /\
    forall p1 t1 p2 t2,
      In (p1, t1) (combine (sorted_reverse percentiles) ts) ->
      In (p2, t2) (combine (sorted_reverse percentiles) ts) ->
      p1 <= p2 ->
      mass_above z t1 <= mass_above z t2.
Proof.
  intros Hz Hres Ht Hall.
  destruct (thresholds_nonneg resolution Hz Ht) as [Hpos Hlen].
  assert (Hne : t <> []) by (intros ->; simpl in Hlen; lia).
  assert (Hl2 : (2 <= length t)%nat) by lia.
  eexists. split; [exact (@solver_achievable z percentiles resolution t Ht Hl2 Hall)|].
  intros p1 t1 p2 t2 H1 H2 Hle.
  pose proof (in_combine_l _ _ _ _ H1) as Hp1. apply -> sorted_reverse_In in Hp1.
  pose proof (in_combine_l _ _ _ _ H2) as Hp2. apply -> sorted_reverse_In in Hp2.
  apply in_combine_map in H1, H2. subst t1 t2.
  rewrite Forall_forall in Hall.
  destruct (table_hd z Hne) as [k0 Hk0].
  pose proof (achievable_in_bounds (Hall p1 Hp1)) as B1.
  pose proof (achievable_in_bounds (Hall p2 Hp2)) as B2.
  apply (in_bounds_iff _ _ Hk0) in B1, B2.
  apply (@interp_mass_monotone z (table z t) (sort_knots_sorted _) (knots_of_table z Hpos) k0);
    try tauto. now apply target_mono.
Qed.

Lemma enclosed_mass_monotone_witness :
  exists ts,
    percentile_contour_values_from_meshz [[1; 4; 8]] [7 # 8; 15 # 16] 9 =
      ([], Ok (map Percentile (sorted_reverse [7 # 8; 15 # 16]), ts)) /\
    forall p1 t1 p2 t2,
      In (p1, t1) (combine (sorted_reverse [7 # 8; 15 # 16]) ts) ->
      In (p2, t2) (combine (sorted_reverse [7 # 8; 15 # 16]) ts) ->
      p1 <= p2 ->
      mass_above [[1; 4; 8]] t1 <= mass_above [[1; 4; 8]] t2.
Proof.
  apply (@enclosed_mass_monotone [[1; 4; 8]] [7 # 8; 15 # 16] 9 (linspace 0 8 9)).
  - repeat constructor; discriminate.
  - lia.
  - reflexivity.
  - repeat constructor; exists 8, 13; vm_compute; intuition discriminate.
Defined.

(** *** Below the achievable minimum *)

Lemma existsb_first (A : Type) (f : A -> bool) (l : list A) (a : A) :
  In a l -> f a = true -> existsb f l = true.
Proof. intros Hin Hf. apply existsb_exists. now exists a. Qed.

Lemma sorted_in_bounds (knots : list (Q * Q)) (x : Q) :
  StronglySorted knot_le knots ->
  (exists kl kh, In kl knots /\ In kh knots /\ fst kl <= x <= fst kh) ->
  out_of_bounds knots x = false.
Proof.
  intros Hs (kl & kh & Hkl & Hkh & Hl & Hh).
  destruct knots as [|k0 tl] eqn:E; [contradiction|]. rewrite <- E in Hkh.
  apply (@in_bounds_iff _ k0); [reflexivity|]. rewrite <- E. split.
  - apply Qle_trans with (fst kl); [|exact Hl].
    destruct Hkl as [<-|Hkl]; [apply Qle_refl|].
    apply StronglySorted_inv in Hs as [_ Hall]. rewrite Forall_forall in Hall. now apply Hall.
  - apply Qle_trans with (fst kh); [exact Hh|]. rewrite <- E in Hs. now apply sorted_last.
Qed.

(** At the integral of a knot the interpolant is the threshold of a knot with
    that integral: nothing is computed. *)
Lemma interp_linear_knot (knots : list (Q * Q)) (m : Q) :
  StronglySorted knot_le knots ->
  (exists k, In k knots /\ fst k == m) ->
  exists k, In k knots /\ fst k == m /\ interp_linear knots m = snd k.
Proof.
  induction knots as [|[x0 y0] tl IH]; intros Hs (k & Hk & Ek); [contradiction|].
  destruct tl as [|[x1 y1] tl'].
  - destruct Hk as [<-|[]]. exists (x0, y0). repeat split; [now left|exact Ek].
  - rewrite interp_linear_step.
    apply StronglySorted_inv in Hs as [Hs' Hall].
    pose proof (Forall_inv Hall) as H01. unfold knot_le in H01. cbn [fst] in H01.
    destruct (Qle_bool x1 m) eqn:E1.
    + apply Qle_bool_iff in E1.
      destruct (IH Hs') as (k' & Hk' & Ek' & Ik').
      { destruct Hk as [<-|Hk]; [|now exists k].
        exists (x1, y1). split; [now left|]. cbn [fst] in *. lra. }
      exists k'. repeat split; [now right|exact Ek'|exact Ik'].
    + apply Qle_bool_false in E1.
      destruct Hk as [<-|Hk].
      * cbn [fst] in Ek. exists (x0, y0).
        assert (Q0 : Qeq_bool m x0 = true) by (apply Qeq_bool_iff; now symmetry).
        rewrite Q0. repeat split; [now left|exact Ek].
      * exfalso. destruct Hk as [<-|Hk]; [cbn [fst] in Ek; lra|].
        apply StronglySorted_inv in Hs' as [_ Hall']. rewrite Forall_forall in Hall'.
        specialize (Hall' k Hk). unfold knot_le in Hall'. cbn [fst] in Hall'. lra.
Qed.

Lemma combine_In_fst (A B : Type) (l : list A) (m : list B) (a : A) :
  length l = length m -> In a l -> exists b, In (a, b) (combine l m).
Proof.
  revert m. induction l as [|x l IH]; intros [|y m] Hl Ha; try contradiction; try discriminate.
  destruct Ha as [<-|Ha].
  - exists y. now left.
  - injection Hl as Hl. destruct (IH m Hl Ha) as (b & Hb). exists b. now right.
Qed.

(** The fallback, whatever was computed: once [f] has refused a target, and
    with a tabulated integral that is not close to one, one debug entry is
    written and the single label ["min"] is returned with the threshold
    tabulated with the largest such integral. *)
Lemma fallback_from_table (close_to_one : Q -> bool) (t integral percentiles targets : list Q)
    (x : Q) :
  (2 <= length t)%nat -> length integral = length t ->
  In x targets -> out_of_bounds (sort_knots (combine integral t)) x = true ->
  (exists v, In v integral /\ close_to_one v = false) ->
  exists m th,
    In m integral /\ close_to_one m = false /\
    (forall v, In v integral -> close_to_one v = false -> v <= m) /\
    (exists v, v == m /\ In (v, th) (combine integral t)) /\
    contours_from_table close_to_one t integral percentiles targets =
      ([debug_message], Ok ([Min], [th])).
Proof.
  intros H2 Hlen Hx Hout (v0 & Hv0 & Hc0).
  set (knots := sort_knots (combine integral t)) in *.
  set (non_one := filter (fun v => negb (close_to_one v)) integral).
  assert (Hv0' : In v0 non_one) by (apply filter_In; split; [exact Hv0|now rewrite Hc0]).
  destruct (array_max non_one) as [m|e] eqn:Em;
    [|destruct non_one; [contradiction|discriminate]].
  pose proof (array_max_In _ Em) as Hm. apply filter_In in Hm. destruct Hm as [Hm Hcm].
  apply negb_true_iff in Hcm.
  destruct (@combine_In_fst _ _ integral t m Hlen Hm) as (tm & Htm).
  assert (Hkm : In (m, tm) knots) by (now apply sort_knots_In).
  destruct (@interp_linear_knot knots m (sort_knots_sorted _)) as (k & Hk & Ek & Ik).
  { exists (m, tm). split; [exact Hkm|reflexivity]. }
  exists m, (snd k). repeat split; [exact Hm|exact Hcm| | |].
  - intros v Hv Hc. pose proof (array_max_upper _ Em) as Hup.
    rewrite Forall_forall in Hup. apply Hup. apply filter_In. split; [exact Hv|now rewrite Hc].
  - exists (fst k). split; [exact Ek|]. unfold knots in Hk.
    apply -> sort_knots_In in Hk. now destruct k.
  - unfold contours_from_table.
    assert (Ei : interp1d integral t = Ok knots).
    { destruct integral as [|a [|b l]]; simpl in Hlen; try lia; reflexivity. }
    rewrite Ei.
    assert (Eout : interp_call knots targets = Raise ValueError).
    { unfold interp_call. now rewrite (@existsb_first _ _ _ x Hx Hout). }
    rewrite Eout. fold non_one. rewrite Em. unfold interp_call. cbn [existsb bind].
    rewrite (@sorted_in_bounds knots m (sort_knots_sorted _));
      [cbn [orb map bind]; now rewrite Ik|].
    exists (m, tm), (m, tm). repeat split; auto; apply Qle_refl.
Qed.

(** C3, as amended.  Whatever numbers the solver computed for its thresholds
    (at least two), its integrals and its targets: when a target is below
    every tabulated integral and some tabulated integral is not close to one,
    nothing is raised; one debug entry is written and the single label
    ["min"] is returned with a single threshold, the threshold tabulated with
    [m], the largest of the tabulated integrals that are not close to one. *)
Theorem C3_below_minimum (close_to_one : Q -> bool)
    (t integral percentiles targets : list Q) :
  (2 <= length t)%nat -> length integral = length t ->
  (exists x, In x targets /\ Forall (fun v => x < v) integral) ->
  (exists v, In v integral /\ close_to_one v = false) ->
  exists m th,
    In m integral /\ close_to_one m = false /\
    (forall v, In v integral -> close_to_one v = false -> v <= m) /\
    (exists v, v == m /\ In (v, th) (combine integral t)) /\
    contours_from_table close_to_one t integral percentiles targets =
      ([debug_message], Ok ([Min], [th])).
Proof.
  intros H2 Hlen (x & Hx & Hbelow) Hv.
  apply (@fallback_from_table close_to_one t integral percentiles targets x); auto.
  destruct (sort_knots (combine integral t)) as [|k0 tl] eqn:E; [reflexivity|].
  assert (Hk : In k0 (combine integral t)).
  { apply sort_knots_In. rewrite E. now left. }
  destruct k0 as [x0 y0]. apply in_combine_l in Hk.
  rewrite Forall_forall in Hbelow. specialize (Hbelow _ Hk).
  unfold out_of_bounds. cbn [fst].
  destruct (Qle_bool x0 x) eqn:Q; [|reflexivity].
  apply Qle_bool_iff in Q. lra.
Qed.

Lemma C3_below_minimum_witness :
  exists m th,
    In m (integrals [[1; 3]] (linspace 0 3 5)) /\ isclose m 1 = false /\
    (forall v, In v (integrals [[1; 3]] (linspace 0 3 5)) -> isclose v 1 = false -> v <= m) /\
    (exists v, v == m /\
       In (v, th) (combine (integrals [[1; 3]] (linspace 0 3 5)) (linspace 0 3 5))) /\
    contours_from_table (fun v => isclose v 1) (linspace 0 3 5)
      (integrals [[1; 3]] (linspace 0 3 5)) (sorted_reverse [95 # 100; 33 # 100])
      (map (target [[1; 3]]) (sorted_reverse [95 # 100; 33 # 100])) =
      ([debug_message], Ok ([Min], [th])).
Proof.
  apply (@C3_below_minimum (fun v => isclose v 1) (linspace 0 3 5)
           (integrals [[1; 3]] (linspace 0 3 5)) (sorted_reverse [95 # 100; 33 # 100])
           (map (target [[1; 3]]) (sorted_reverse [95 # 100; 33 # 100]))).
  - vm_compute. lia.
  - reflexivity.
  - exists (target [[1; 3]] (33 # 100)). split; [right; now left|]. repeat constructor.
  - exists 4. split; [now left|reflexivity].
Defined.

(** The run of this witness is a run of the solver. *)
Example below_minimum_run :
  percentile_contour_values_from_meshz [[1; 3]] [95 # 100; 33 # 100] 5 =
  contours_from_table (fun v => isclose v 1) (linspace 0 3 5)
    (integrals [[1; 3]] (linspace 0 3 5)) (sorted_reverse [95 # 100; 33 # 100])
    (map (target [[1; 3]]) (sorted_reverse [95 # 100; 33 # 100])).
Proof. now apply solver_from_table. Qed.

(** C3 as stated fails twice.  On the one-cell matrix [[1]] every tabulated
    integral is [1], the target of the percentile [0.95] is below them all, and
    the solver raises a [ValueError] after its debug entry.  On [[1; 3]] with
    the percentile [0.33] the tabulated integrals are [4; 4; 3; 3; 3]: the
    solver returns the threshold [3/4], the one interpolated at the largest
    integral, [4], and not at the achievable minimum, [3]. *)
Lemma C3_counterexample :
  percentile_contour_values_from_meshz [[1]] [95 # 100] 5 =
    ([debug_message], Raise ValueError) /\
  integrals [[1; 3]] (linspace 0 3 5) = [4; 4; 3; 3; 3] /\
  contours (percentile_contour_values_from_meshz [[1; 3]] [33 # 100] 5) = Ok ([Min], [3 # 4]) /\
  Qred (interp_linear (table [[1; 3]] (linspace 0 3 5)) 4) = 3 # 4 /\
  Qred (interp_linear (table [[1; 3]] (linspace 0 3 5)) 3) = 3.
Proof. vm_compute. repeat split. Qed.

(** *** What the solver returns and raises *)

(** A target is inside the range of the table exactly when it is achievable. *)
Lemma in_bounds_achievable (z : list (list Q)) (t : list Q) (p : Q) :
  t <> [] ->
  out_of_bounds (table z t) (target z p) = false -> achievable z t p.
Proof.
  intros Hne Hin. destruct (table_hd z Hne) as [k0 Hk0].
  apply (in_bounds_iff _ _ Hk0) in Hin. destruct Hin as [Hlo Hhi].
  exists (fst k0), (fst (last (table z t) k0)). repeat split.
  - apply table_fst. destruct (table z t) as [|k tl]; [discriminate|].
    injection Hk0 as ->. now left.
  - apply table_fst. apply in_map. destruct (table z t) as [|k tl] eqn:E; [discriminate|].
    destruct (exists_last (l := k :: tl)) as (l' & a & El); [discriminate|].
    rewrite El, last_last. apply in_or_app. right. now left.
  - exact Hlo.
  - exact Hhi.
Qed.

Lemma thresholds_length (z : list (list Q)) (resolution : nat) (t : list Q) :
  thresholds z resolution = Ok t -> length t = resolution.
Proof.
  unfold thresholds. destruct (array_max (cells z)); [|discriminate].
  intros [= <-]. apply linspace_length.
Qed.

(** The fallback of the solver: what it returns once [f] has refused a
    target. *)
Lemma solver_fallback (z : list (list Q)) (percentiles : list Q) (resolution : nat)
    (t : list Q) (p : Q) :
  thresholds z resolution = Ok t ->
  (2 <= length t)%nat ->
  In p percentiles ->
  out_of_bounds (table z t) (target z p) = true ->
  (exists v, In v (integrals z t) /\ isclose v 1 = false) ->
  exists m,
    In m (integrals z t) /\ isclose m 1 = false /\
    (forall v, In v (integrals z t) -> isclose v 1 = false -> v <= m) /\
    percentile_contour_values_from_meshz z percentiles resolution =
      ([debug_message], Ok ([Min], [interp_linear (table z t) m])).
Proof.
  intros Ht Hne Hp Hout (v0 & Hv0 & Hc0).
  set (non_one := filter (fun v => negb (isclose v 1)) (integrals z t)).
  assert (Hv0' : In v0 non_one) by (apply filter_In; split; [exact Hv0|now rewrite Hc0]).
  destruct (array_max non_one) as [m|e] eqn:Em;
    [|destruct non_one; [contradiction|discriminate]].
  pose proof (array_max_In _ Em) as Hm. apply filter_In in Hm. destruct Hm as [Hm Hcm].
  apply negb_true_iff in Hcm.
  exists m. repeat split; [exact Hm|exact Hcm| |].
  - intros v Hv Hc. pose proof (array_max_upper _ Em) as Hup.
    rewrite Forall_forall in Hup. apply Hup. apply filter_In. split; [exact Hv|now rewrite Hc].
  - unfold percentile_contour_values_from_meshz, contours_from_table.
    rewrite Ht, (@interp1d_table z t Hne). fold non_one. rewrite Em.
    assert (Eout : interp_call (table z t)
                     (map (fun q => q * sum (cells z)) (sorted_reverse percentiles))
                   = Raise ValueError).
    { unfold interp_call. rewrite (@existsb_first _ _ _ (target z p)); [reflexivity| |exact Hout].
      apply in_map_iff. exists p. split; [reflexivity|now apply sorted_reverse_In]. }
    rewrite Eout. unfold interp_call. cbn [existsb bind].
    rewrite (@in_range_in_bounds z t m); [reflexivity|].
    exists m, m. repeat split; auto; apply Qle_refl.
Qed.

(** In exact arithmetic, with a density matrix that has a cell, a resolution
    of at least two and a tabulated integral that is not close to one, the
    solver never raises.  It returns one threshold per percentile when every
    target is in the range of the table; as soon as one target is outside,
    below or above, it writes one debug entry and returns the single label
    ["min"] with one threshold. *)
Theorem solver_never_raises (z : list (list Q)) (percentiles : list Q) (resolution : nat)
    (t : list Q) :
  (2 <= resolution)%nat ->
  thresholds z resolution = Ok t ->
  (exists v, In v (integrals z t) /\ isclose v 1 = false) ->
  (Forall (achievable z t) percentiles /\
   exists ts,
     percentile_contour_values_from_meshz z percentiles resolution =
       ([], Ok (map Percentile (sorted_reverse percentiles), ts)) /\
     length ts = length percentiles) \/
  (exists p, In p percentiles /\ ~ achievable z t p) /\
  exists m,
    In m (integrals z t) /\
    percentile_contour_values_from_meshz z percentiles resolution =
      ([debug_message], Ok ([Min], [interp_linear (table z t) m])).
Proof.
  intros Hres Ht Hv.
  assert (Hne : t <> []).
  { intros ->. apply thresholds_length in Ht. simpl in Ht. lia. }
  assert (H2 : (2 <= length t)%nat) by (rewrite (thresholds_length _ _ Ht); exact Hres).
  destruct (existsb (out_of_bounds (table z t)) (map (target z) percentiles)) eqn:E.
  - right. apply existsb_exists in E. destruct E as (x & Hx & Hout).
    apply in_map_iff in Hx. destruct Hx as (p & <- & Hp).
    split.
    + exists p. split; [exact Hp|]. intros Ha.
      apply achievable_in_bounds in Ha. congruence.
    + destruct (@solver_fallback z percentiles resolution t p Ht H2 Hp Hout Hv)
        as (m & Hm & _ & _ & Em).
      exists m. split; assumption.
  - left.
    assert (Hall : Forall (achievable z t) percentiles).
    { apply Forall_forall. intros p Hp. apply in_bounds_achievable; [exact Hne|].
      apply not_true_is_false. intros Hout.
      assert (existsb (out_of_bounds (table z t)) (map (target z) percentiles) = true).
      { apply existsb_exists. exists (target z p). split; [now apply in_map|exact Hout]. }
      congruence. }
    split; [exact Hall|]. eexists. split.
    + exact (@solver_achievable z percentiles resolution t Ht H2 Hall).
    + rewrite length_map. clear. induction percentiles as [|p l IH]; [reflexivity|].
      cbn [sorted_reverse fold_right]. fold (sorted_reverse l).
      assert (L : forall q m, length (insert_desc q m) = S (length m)).
      { intros q m. induction m as [|h m IHm]; [reflexivity|].
        cbn [insert_desc]. destruct (Qle_bool h q); cbn [length]; congruence. }
      rewrite L, IH. reflexivity.
Qed.

Lemma solver_never_raises_witness :
  (Forall (achievable [[1; 3]] (linspace 0 3 5)) [95; 1 # 2] /\
   exists ts,
     percentile_contour_values_from_meshz [[1; 3]] [95; 1 # 2] 5 =
       ([], Ok (map Percentile (sorted_reverse [95; 1 # 2]), ts)) /\
     length ts = length [95; 1 # 2]) \/
  (exists p, In p [95; 1 # 2] /\ ~ achievable [[1; 3]] (linspace 0 3 5) p) /\
  exists m,
    In m (integrals [[1; 3]] (linspace 0 3 5)) /\
    percentile_contour_values_from_meshz [[1; 3]] [95; 1 # 2] 5 =
      ([debug_message], Ok ([Min], [interp_linear (table [[1; 3]] (linspace 0 3 5)) m])).
Proof.
  apply (@solver_never_raises [[1; 3]] [95; 1 # 2] 5 (linspace 0 3 5)).
  - lia.
  - reflexivity.
  - exists 4. split; [left; reflexivity | reflexivity].
Defined.

Lemma linspace_upper (stop : Q) (num : nat) :
  0 <= stop -> Forall (fun v => v <= stop) (linspace 0 stop num).
Proof.
  intros Hs. destruct num as [|[|n]]; [constructor|repeat constructor; exact Hs|].
  unfold linspace. apply Forall_app. split; [|repeat constructor; apply Qle_refl].
  apply Forall_forall. intros v Hv. apply in_map_iff in Hv. destruct Hv as (i & <- & Hi).
  apply in_seq in Hi.
  assert (Hn : 0 < inject_Z (Z.of_nat (S n))) by (rewrite <- (Zlt_Qlt 0); lia).
  assert (Hin : inject_Z (Z.of_nat i) <= inject_Z (Z.of_nat (S n))) by (rewrite <- Zle_Qle; lia).
  assert (H0 : 0 <= inject_Z (Z.of_nat i)) by (rewrite <- (Zle_Qle 0); lia).
  setoid_replace (inject_Z (Z.of_nat i) * ((stop - 0) / inject_Z (Z.of_nat (S n))) + 0)
    with (inject_Z (Z.of_nat i) * stop / inject_Z (Z.of_nat (S n))) by (field; lra).
  apply Qle_shift_div_r; [exact Hn|].
  rewrite (Qmult_comm stop). apply Qmult_le_compat_r; assumption.
Qed.

Lemma lerp_range (x0 x1 y0 y1 x lo hi : Q) :
  x0 < x1 -> x0 <= x <= x1 -> lo <= y0 <= hi -> lo <= y1 <= hi ->
  lo <= (y1 - y0) / (x1 - x0) * (x - x0) + y0 <= hi.
Proof.
  intros Hx Hin H0 H1.
  pose proof (ratio_bounds Hx Hin) as [R0 R1].
  setoid_replace ((y1 - y0) / (x1 - x0) * (x - x0) + y0)
    with (y0 + (y1 - y0) * ((x - x0) / (x1 - x0))) by (field; lra).
  revert R0 R1. generalize ((x - x0) / (x1 - x0)). intros r R0 R1.
  assert (P1 : 0 <= r * (y1 - lo)) by (apply Qmult_le_0_compat; lra).
  assert (P2 : 0 <= (1 - r) * (y0 - lo)) by (apply Qmult_le_0_compat; lra).
  assert (P3 : 0 <= r * (hi - y1)) by (apply Qmult_le_0_compat; lra).
  assert (P4 : 0 <= (1 - r) * (hi - y0)) by (apply Qmult_le_0_compat; lra).
  assert (E1 : y0 + (y1 - y0) * r - lo == r * (y1 - lo) + (1 - r) * (y0 - lo)) by ring.
  assert (E2 : hi - (y0 + (y1 - y0) * r) == r * (hi - y1) + (1 - r) * (hi - y0)) by ring.
  split.
  - apply (Qplus_le_l _ _ (- lo)). setoid_replace (lo + - lo) with 0 by ring.
    unfold Qminus in E1. rewrite E1. lra.
  - apply (Qplus_le_l _ _ (- (y0 + (y1 - y0) * r))).
    setoid_replace (y0 + (y1 - y0) * r + - (y0 + (y1 - y0) * r)) with 0 by ring.
    unfold Qminus in E2 at 1. rewrite E2. lra.
Qed.

(** The interpolant stays within the range of the values of its knots. *)
Lemma interp_linear_range (lo hi : Q) (knots : list (Q * Q)) :
  StronglySorted knot_le knots ->
  Forall (fun k => lo <= snd k <= hi) knots ->
  forall (k0 : Q * Q) (x : Q),
    hd_error knots = Some k0 -> fst k0 <= x ->
    lo <= interp_linear knots x <= hi.
Proof.
  induction knots as [|[x0 y0] tl IH]; intros Hs Hr k0 x Hk0 Hx; [discriminate|].
  injection Hk0 as <-. cbn [fst] in Hx.
  destruct tl as [|[x1 y1] tl'].
  - cbn [interp_linear]. exact (Forall_inv Hr).
  - rewrite interp_linear_step.
    destruct (Qle_bool x1 x) eqn:E1.
    + apply Qle_bool_iff in E1.
      apply (IH (proj1 (StronglySorted_inv Hs)) (Forall_inv_tail Hr) (x1, y1)); [reflexivity|exact E1].
    + apply Qle_bool_false in E1.
      destruct (Qeq_bool x x0) eqn:E0; [exact (Forall_inv Hr)|].
      apply Qeq_bool_false in E0.
      apply lerp_range.
      * lra.
      * lra.
      * exact (Forall_inv Hr).
      * exact (Forall_inv (Forall_inv_tail Hr)).
Qed.

Lemma table_values (z : list (list Q)) (t : list Q) (P : Q -> Prop) :
  Forall P t -> Forall (fun k => P (snd k)) (table z t).
Proof.
  intros Ht. apply sort_knots_Forall. apply Forall_forall. intros [x y] Hk.
  apply in_combine_r in Hk. rewrite Forall_forall in Ht. now apply Ht.
Qed.

Lemma interp_in_range (z : list (list Q)) (t : list Q) (zmax x : Q) :
  t <> [] ->
  Forall (fun v => 0 <= v <= zmax) t ->
  out_of_bounds (table z t) x = false ->
  0 <= interp_linear (table z t) x <= zmax.
Proof.
  intros Hne Ht Hin. destruct (table_hd z Hne) as [k0 Hk0].
  apply (in_bounds_iff _ _ Hk0) in Hin.
  apply (@interp_linear_range 0 zmax (table z t) (sort_knots_sorted _)
           (@table_values z t (fun v => 0 <= v <= zmax) Ht) k0 x Hk0).
  tauto.
Qed.

(** In exact arithmetic, with a resolution of at least two: whatever it
    returns, percentiles or the single ["min"], the thresholds of the solver
    are levels of the density: each lies between [0] and [z.max()]. *)
Theorem thresholds_are_levels (z : list (list Q)) (percentiles : list Q) (resolution : nat)
    (zmax : Q) :
  Forall (Forall (Qle 0)) z ->
  (2 <= resolution)%nat ->
  array_max (cells z) = Ok zmax ->
  (exists v, In v (integrals z (linspace 0 zmax resolution)) /\ isclose v 1 = false) ->
  exists log labels ts,
    percentile_contour_values_from_meshz z percentiles resolution = (log, Ok (labels, ts)) /\
    Forall (fun v => 0 <= v <= zmax) ts.
Proof.
  intros Hz Hres Hmax Hv. set (t := linspace 0 zmax resolution) in *.
  assert (Ht : thresholds z resolution = Ok t) by (unfold thresholds; now rewrite Hmax).
  assert (Hne : t <> []).
  { intros E. apply thresholds_length in Ht. rewrite E in Ht. simpl in Ht. lia. }
  assert (H2 : (2 <= length t)%nat) by (rewrite (thresholds_length _ _ Ht); exact Hres).
  assert (H0 : 0 <= zmax).
  { pose proof (cells_nonneg Hz) as Hc. rewrite Forall_forall in Hc.
    apply Hc. now apply array_max_In. }
  assert (Hr : Forall (fun v => 0 <= v <= zmax) t).
  { pose proof (linspace_nonneg resolution H0) as L.
    pose proof (linspace_upper resolution H0) as U.
    unfold t. rewrite Forall_forall in *. intros v Hin. split; [now apply L|now apply U]. }
  destruct (existsb (out_of_bounds (table z t)) (map (target z) percentiles)) eqn:E.
  - apply existsb_exists in E. destruct E as (x & Hx & Hout).
    apply in_map_iff in Hx. destruct Hx as (p & <- & Hp).
    destruct (@solver_fallback z percentiles resolution t p Ht H2 Hp Hout Hv)
      as (m & Hm & _ & _ & Em).
    exists [debug_message], [Min], [interp_linear (table z t) m].
    split; [exact Em|]. constructor; [|constructor].
    apply interp_in_range; [exact Hne|exact Hr|].
    apply in_range_in_bounds. exists m, m. repeat split; auto; apply Qle_refl.
  - assert (Hin : forall p, In p percentiles -> out_of_bounds (table z t) (target z p) = false).
    { intros p Hp. apply not_true_is_false. intros Hout.
      assert (existsb (out_of_bounds (table z t)) (map (target z) percentiles) = true).
      { apply existsb_exists. exists (target z p). split; [now apply in_map|exact Hout]. }
      congruence. }
    assert (Hall : Forall (achievable z t) percentiles).
    { apply Forall_forall. intros p Hp. apply in_bounds_achievable; [exact Hne|now apply Hin]. }
    eexists. eexists. eexists.
    split; [exact (@solver_achievable z percentiles resolution t Ht H2 Hall)|].
    apply Forall_map, Forall_forall. intros p Hp. apply -> sorted_reverse_In in Hp.
    apply interp_in_range; [exact Hne|exact Hr|now apply Hin].
Qed.

Lemma thresholds_are_levels_witness :
  exists log labels ts,
    percentile_contour_values_from_meshz [[1; 4; 8]] [7 # 8; 15 # 16] 9 = (log, Ok (labels, ts)) /\
    Forall (fun v => 0 <= v <= 8) ts.
Proof.
  apply (@thresholds_are_levels [[1; 4; 8]] [7 # 8; 15 # 16] 9 8).
  - repeat constructor; discriminate.
  - lia.
  - reflexivity.
  - exists 13. split; [left; reflexivity | reflexivity].
Defined.

(** A density matrix without a cell, or a resolution of zero, makes the solver
    raise a [ValueError] before it logs anything, whatever the percentiles. *)
Theorem solver_empty_input (z : list (list Q)) (percentiles : list Q) (resolution : nat) :
  cells z = [] \/ resolution = 0%nat ->
  percentile_contour_values_from_meshz z percentiles resolution = ([], Raise ValueError).
Proof.
  intros [Hz | ->]; unfold percentile_contour_values_from_meshz, contours_from_table, thresholds.
  - rewrite Hz. reflexivity.
  - destruct (array_max (cells z)) as [zmax|e] eqn:E.
    + reflexivity.
    + destruct (cells z); [injection E as <-; reflexivity | discriminate].
Qed.

Lemma solver_empty_input_witness :
  percentile_contour_values_from_meshz [[]; []] [1 # 2] 10 = ([], Raise ValueError) /\
  percentile_contour_values_from_meshz [[1; 2]] [1 # 2] 0 = ([], Raise ValueError).
Proof.
  split.
  - apply (@solver_empty_input [[]; []] [1 # 2] 10). left. reflexivity.
  - apply (@solver_empty_input [[1; 2]] [1 # 2] 0). right. reflexivity.
Defined.

(** A resolution of one makes the solver raise a [ValueError] with nothing
    logged, whatever the density matrix and the percentiles: [interp1d]
    refuses a single knot. *)
Theorem solver_single_threshold (z : list (list Q)) (percentiles : list Q) :
  percentile_contour_values_from_meshz z percentiles 1 = ([], Raise ValueError).
Proof.
  unfold percentile_contour_values_from_meshz, contours_from_table, thresholds.
  destruct (array_max (cells z)) as [zmax|e] eqn:E; [reflexivity|].
  destruct (cells z); [injection E as <-; reflexivity | discriminate].
Qed.

(** How the solver raises, in exact arithmetic, on a density matrix that has
    a cell, with a resolution of at least two: when every tabulated integral
    is close to one, as for a uniform density that sums to one, and some
    percentile is not achievable.  The solver then logs its debug message,
    finds no integral that is not close to one to fall back on, and
    [np.nanmax] raises a [ValueError], which nothing catches. *)
Theorem solver_fallback_raises (z : list (list Q)) (percentiles : list Q) (resolution : nat)
    (t : list Q) :
  (2 <= resolution)%nat ->
  thresholds z resolution = Ok t ->
  Forall (fun v => isclose v 1 = true) (integrals z t) ->
  (exists p, In p percentiles /\ ~ achievable z t p) ->
  percentile_contour_values_from_meshz z percentiles resolution =
    ([debug_message], Raise ValueError).
Proof.
  intros Hres Ht Hclose (p & Hp & Hna).
  assert (Hne : t <> []).
  { intros ->. apply thresholds_length in Ht. simpl in Ht. lia. }
  assert (H2 : (2 <= length t)%nat) by (rewrite (thresholds_length _ _ Ht); exact Hres).
  assert (Hout : out_of_bounds (table z t) (target z p) = true).
  { destruct (out_of_bounds (table z t) (target z p)) eqn:E; [reflexivity|].
    exfalso. apply Hna. now apply in_bounds_achievable. }
  assert (Hnone : filter (fun v => negb (isclose v 1)) (integrals z t) = []).
  { clear -Hclose. induction Hclose as [|v l Hv Hl IH]; [reflexivity|].
    cbn [filter]. rewrite Hv. exact IH. }
  unfold percentile_contour_values_from_meshz, contours_from_table.
  rewrite Ht, (@interp1d_table z t H2), Hnone.
  assert (Eout : interp_call (table z t)
                   (map (fun q => q * sum (cells z)) (sorted_reverse percentiles))
                 = Raise ValueError).
  { unfold interp_call. rewrite (@existsb_first _ _ _ (target z p)); [reflexivity| |exact Hout].
    apply in_map_iff. exists p. split; [reflexivity|now apply sorted_reverse_In]. }
  rewrite Eout. reflexivity.
Qed.

Lemma solver_fallback_raises_witness :
  percentile_contour_values_from_meshz [[1 # 4; 1 # 4]; [1 # 4; 1 # 4]] [95 # 100; 1 # 2] 5 =
    ([debug_message], Raise ValueError).
Proof.
  apply (@solver_fallback_raises [[1 # 4; 1 # 4]; [1 # 4; 1 # 4]] [95 # 100; 1 # 2] 5
           (linspace 0 (1 # 4) 5)).
  - lia.
  - reflexivity.
  - vm_compute. repeat constructor.
  - exists (1 # 2). split; [right; left; reflexivity|].
    intros (lo & hi & Hlo & _ & Hle & _).
    assert (Hall : Forall (fun v => ~ v <= 1 # 2)
                     (integrals [[1 # 4; 1 # 4]; [1 # 4; 1 # 4]] (linspace 0 (1 # 4) 5))).
    { vm_compute. repeat constructor; intros H; apply H; reflexivity. }
    rewrite Forall_forall in Hall. apply (Hall lo Hlo).
    eapply Qle_trans; [exact Hle|]. vm_compute. discriminate.
Defined.

(** * The margin of [ternary_heatmap] *)


Lemma fold_Qmin_lower (l : list Q) (x : Q) :
  let m := fold_left (fun u v => if Qle_bool u v then u else v) l x in
  m <= x /\ Forall (fun v => m <= v) l.
Proof.
  revert x. induction l as [|a l IH]; intros x; simpl; [split; [apply Qle_refl|constructor]|].
  destruct (IH (if Qle_bool x a then x else a)) as [H1 H2].
  assert (Hx : (if Qle_bool x a then x else a) <= x /\ (if Qle_bool x a then x else a) <= a).
  { destruct (Qle_bool x a) eqn:E.
    - apply Qle_bool_iff in E. split; lra.
    - apply Qle_bool_false in E. split; lra. }
  split; [lra|]. constructor; [lra|exact H2].
Qed.


Lemma array_min_lower (l : list Q) (m : Q) :
  array_min l = Ok m -> Forall (fun v => m <= v) l.
Proof.
  destruct l as [|x l]; [discriminate|]. intros [= <-].
  destruct (fold_Qmin_lower l x). now constructor.
Qed.

Lemma extent_pos (l : list Q) (a b : Q) : In a l -> In b l -> a < b -> 0 < extent l.
Proof.
  intros Ha Hb Hab. unfold extent.
  destruct l as [|x l']; [contradiction|].
  destruct (array_max (x :: l')) as [hi|] eqn:Emax; [|discriminate].
  destruct (array_min (x :: l')) as [lo|] eqn:Emin; [|discriminate].
  pose proof (array_max_upper _ Emax) as Hup. pose proof (array_min_lower _ Emin) as Hlow.
  rewrite Forall_forall in Hup, Hlow.
  specialize (Hup b Hb). specialize (Hlow a Ha). lra.
Qed.



(** The Cartesian coordinates of a corner whose parts sum to one. *)
Lemma to_xy_row_value (a b c yscale : Q) :
  sum [a; b; c] == 1 ->
  exists X Y, to_xy_row 1 yscale [a; b; c] = [X; Y] /\ X == a + b / 2 /\ Y == yscale * b.
Proof.
  intros Hs. unfold to_xy_row, apply_affine, close_row, dot.
  eexists _, _. split; [reflexivity|].
  cbn in Hs |- *. q_literals. split; rewrite !Hs; field.
Qed.

Lemma bounds_cartesian (mm yscale : Q) :
  exists X1 X2 X3 Y1 Y2 Y3,
    AXtfm yscale (bounds mm) = Ok [[X1; X2; X3]; [Y1; Y2; Y3]] /\
    X1 == mm + mm / 2 /\ X3 == (1 - 2 * mm) + mm / 2 /\
    Y1 == yscale * mm /\ Y2 == yscale * (1 - 2 * mm).
Proof.
  unfold AXtfm. rewrite ABC_to_xy_rows by reflexivity. unfold bounds. cbn [map bind].
  destruct (@to_xy_row_value mm mm (1 - 2 * mm) yscale) as (X1 & Y1 & E1 & HX1 & HY1);
    [rewrite sum_3; ring|].
  destruct (@to_xy_row_value mm (1 - 2 * mm) mm yscale) as (X2 & Y2 & E2 & HX2 & HY2);
    [rewrite sum_3; ring|].
  destruct (@to_xy_row_value (1 - 2 * mm) mm mm yscale) as (X3 & Y3 & E3 & HX3 & HY3);
    [rewrite sum_3; ring|].
  rewrite E1, E2, E3. exists X1, X2, X3, Y1, Y2, Y3. repeat split; assumption.
Qed.


(** The margin on data that lie on a vertex or at the centre: a supplied
    margin of zero stays zero, one of [1/100] is kept below the smallest
    positive entry, and one of [1/2] is lowered to the smallest positive
    entry. *)
Example effective_margin_examples :
  effective_margin [[1; 0; 0]] 0 false = Ok 0 /\
  effective_margin [[1; 0; 0]; [0; 3; 1]] (1 # 100) false = Ok (1 # 100) /\
  effective_margin [[1; 0; 0]; [0; 3; 1]] (1 # 2) false = Ok (1 # 4) /\
  effective_margin [[0; 0; 0]] (1 # 100) false = Raise ValueError.
Proof. vm_compute. repeat split. Qed.

(** The corners of what is rendered, in exact arithmetic: when the margin
    [ternary_heatmap] works with is strictly between [0] and [1/3] and the y
    scale is positive, every part of the three corners [bounds] is positive
    and their Cartesian coordinates [xbounds] and [ybounds] span a positive
    width and a positive height. *)
Theorem corners_nondegenerate (data : list (list Q)) (margin yscale mm : Q)
    (force_margin : bool) :
  effective_margin data margin force_margin = Ok mm ->
  0 < mm -> mm < 1 # 3 -> 0 < yscale ->
  exists xy,
    heatmap_bounds data margin force_margin yscale = Ok (bounds mm, xy) /\
    nondegenerate (bounds mm, xy).
Proof.
  intros Heff Hm0 Hm1 Hy.
  destruct (bounds_cartesian mm yscale)
    as (X1 & X2 & X3 & Y1 & Y2 & Y3 & Exy & HX1 & HX3 & HY1 & HY2).
  exists [[X1; X2; X3]; [Y1; Y2; Y3]]. split.
  - unfold heatmap_bounds. rewrite Heff. cbn [bind]. now rewrite Exy.
  - split; cbn [fst snd].
    + unfold bounds. repeat constructor; lra.
    + constructor; [|constructor; [|constructor]].
      * apply (@extent_pos _ X1 X3); [now left|right; right; now left|]. lra.
      * apply (@extent_pos _ Y1 Y2); [now left|right; now left|].
        rewrite HY1, HY2. apply Qmult_lt_l; lra.
Qed.

Lemma corners_nondegenerate_witness :
  exists xy,
    heatmap_bounds [[1; 0; 0]; [0; 3; 1]] (1 # 2) false sqrt3_2 = Ok (bounds (1 # 4), xy) /\
    nondegenerate (bounds (1 # 4), xy).
Proof.
  apply (@corners_nondegenerate [[1; 0; 0]; [0; 3; 1]] (1 # 2) sqrt3_2 (1 # 4) false);
    reflexivity.
Defined.

(** * Bin edges *)

Lemma last_map_seq (f : nat -> Q) (n : nat) : last (map f (seq 0 (S n))) 0 = f n.
Proof. rewrite seq_S, map_app. cbn [map]. apply last_last. Qed.

(** For evenly spaced centres, [bin_centres_to_edges] returns one edge more
    than there are centres and, in exact arithmetic, every centre is the
    midpoint of two consecutive edges. *)
Theorem bin_centres_to_edges_midpoints (c0 h : Q) (n : nat) :
  (2 <= n)%nat ->
  let centre := fun i => c0 + inject_Z (Z.of_nat i) * h in
  exists edges,
    bin_centres_to_edges (map centre (seq 0 n)) = Ok edges /\
    length edges = S n /\
    forall i, (i < n)%nat -> (nth i edges 0 + nth (S i) edges 0) / 2 == centre i.
Proof.
  intros Hn centre. destruct n as [|[|m]]; try lia.
  set (centres := map centre (seq 0 (S (S m)))).
  set (step := (centre 1%nat - centre 0%nat) / 2).
  exists (map (fun c => c - step) centres ++ [last centres 0 + step]).
  split; [reflexivity|]. split.
  - unfold centres. rewrite length_app, !length_map, length_seq. simpl. lia.
  - intros i Hi.
    assert (Hstep : step == h / 2).
    { unfold step, centre. cbn [Z.of_nat]. change (inject_Z (Z.of_nat 0)) with 0.
      change (inject_Z (Zpos (Pos.of_succ_nat 0))) with 1. field. }
    assert (Hlen : length (map (fun c => c - step) centres) = S (S m)).
    { unfold centres. now rewrite !length_map, length_seq. }
    rewrite app_nth1 by (rewrite Hlen; exact Hi).
    rewrite (nth_indep _ 0 (0 - step)) by (rewrite Hlen; exact Hi).
    rewrite (map_nth (fun c => c - step)). unfold centres at 1. rewrite nth_map_seq by exact Hi.
    destruct (Nat.eq_dec (S i) (S (S m))) as [E|E].
    + rewrite app_nth2 by (rewrite Hlen; lia). rewrite Hlen, E, Nat.sub_diag. cbn [nth].
      unfold centres. rewrite last_map_seq. injection E as ->. rewrite Hstep. field.
    + rewrite app_nth1 by (rewrite Hlen; lia).
      rewrite (nth_indep _ 0 (0 - step)) by (rewrite Hlen; lia).
      rewrite (map_nth (fun c => c - step)). unfold centres. rewrite nth_map_seq by lia.
      rewrite Hstep. unfold centre. rewrite Nat2Z.inj_succ, <- Z.add_1_r, inject_Z_plus.
      change (inject_Z 1) with 1. field.
Qed.

Lemma bin_centres_to_edges_midpoints_witness :
  let centre := fun i => (1 # 2) + inject_Z (Z.of_nat i) * (3 # 4) in
  exists edges,
    bin_centres_to_edges (map centre (seq 0 5)) = Ok edges /\
    length edges = 6%nat /\
    forall i, (i < 5)%nat -> (nth i edges 0 + nth (S i) edges 0) / 2 == centre i.
Proof.
  apply (@bin_centres_to_edges_midpoints (1 # 2) (3 # 4) 5). lia.
Defined.

(** ** Edges and centres *)

Lemma centres_cons (a b : Q) (e : list Q) (c : list Q) :
  bin_edges_to_centres (Array1 (b :: e)) = Array1 c ->
  bin_edges_to_centres (Array1 (a :: b :: e)) = Array1 ((a + (b - a) / 2) :: c).
Proof.
  cbn [bin_edges_to_centres]. intros [= <-]. reflexivity.
Qed.

Lemma centres_midpoints (e : list Q) :
  exists c,
    bin_edges_to_centres (Array1 e) = Array1 c /\
    length c = pred (length e) /\
    forall i, (S i < length e)%nat -> nth i c 0 == (nth i e 0 + nth (S i) e 0) / 2.
Proof.
  induction e as [|a e IH].
  - exists []. repeat split. intros i Hi. simpl in Hi. lia.
  - destruct IH as (c & Ec & Lc & Hc). destruct e as [|b e].
    + exists []. repeat split. intros i Hi. simpl in Hi. lia.
    + exists ((a + (b - a) / 2) :: c). split; [now apply centres_cons|]. split.
      * cbn [length pred] in *. now rewrite Lc.
      * intros [|i] Hi.
        -- cbn [nth]. field.
        -- cbn [nth]. apply Hc. cbn [length] in *. lia.
Qed.

Lemma Forall2_Qeq_nth (l m : list Q) :
  length l = length m ->
  (forall i, (i < length l)%nat -> nth i l 0 == nth i m 0) ->
  Forall2 Qeq l m.
Proof.
  revert m. induction l as [|a l IH]; intros [|b m] Hlen H; try discriminate; constructor.
  - apply (H 0%nat). simpl. lia.
  - apply IH; [simpl in Hlen; lia|]. intros i Hi. apply (H (S i)). simpl. lia.
Qed.

Lemma inject_Z_S (i : nat) : inject_Z (Z.of_nat (S i)) == inject_Z (Z.of_nat i) + 1.
Proof. rewrite Nat2Z.inj_succ, <- Z.add_1_r, inject_Z_plus. reflexivity. Qed.

Lemma last_nth (l : list Q) : last l 0 = nth (pred (length l)) l 0.
Proof.
  induction l as [|a [|b l] IH]; try reflexivity.
  change (last (a :: b :: l) 0) with (last (b :: l) 0). rewrite IH. reflexivity.
Qed.

(** The edges [bin_centres_to_edges] builds, one by one. *)
Lemma edges_nth (c0 c1 : Q) (rest : list Q) :
  let c := c0 :: c1 :: rest in
  let step := (c1 - c0) / 2 in
  exists e,
    bin_centres_to_edges c = Ok e /\
    length e = S (length c) /\
    (forall i, (i < length c)%nat -> nth i e 0 = nth i c 0 - step) /\
    nth (length c) e 0 = nth (pred (length c)) c 0 + step.
Proof.
  intros c step. exists (map (fun v => v - step) c ++ [last c 0 + step]).
  split; [reflexivity|]. split; [|split].
  - rewrite length_app, length_map. simpl. lia.
  - intros i Hi. rewrite app_nth1 by (now rewrite length_map).
    rewrite (nth_indep _ 0 (0 - step)) by (now rewrite length_map).
    apply (map_nth (fun v => v - step)).
  - rewrite app_nth2 by (rewrite length_map; lia).
    rewrite length_map, Nat.sub_diag. cbn [nth]. now rewrite last_nth.
Qed.

(** Edges and back: from at least two evenly spaced centres
    [bin_centres_to_edges] returns edges from which [bin_edges_to_centres]
    recovers the centres. *)
Theorem centres_edges_centres (start step : Q) (centres : list Q) :
  (2 <= length centres)%nat ->
  evenly_spaced start step centres ->
  exists edges centres',
    bin_centres_to_edges centres = Ok edges /\
    bin_edges_to_centres (Array1 edges) = Array1 centres' /\
    Forall2 Qeq centres' centres.
Proof.
  intros Hn He. destruct centres as [|c0 [|c1 rest]]; try (simpl in Hn; lia).
  destruct (edges_nth c0 c1 rest) as (e & Ee & Le & Hi & Hl).
  destruct (centres_midpoints e) as (c' & Ec & Lc & Hc).
  exists e, c'. split; [exact Ee|]. split; [exact Ec|].
  set (c := c0 :: c1 :: rest) in *.
  assert (H0 : c0 == start + 0 * step) by (apply (He 0%nat); simpl; lia).
  assert (H1 : c1 == start + 1 * step) by (apply (He 1%nat); simpl; lia).
  apply Forall2_Qeq_nth; [rewrite Lc, Le; reflexivity|].
  intros i Hlt. rewrite Lc, Le in Hlt. cbn [pred] in Hlt.
  rewrite Hc by (rewrite Le; lia). rewrite (Hi i Hlt).
  destruct (Nat.eq_dec (S i) (length c)) as [E|E].
  - rewrite E, Hl, <- E. cbn [pred]. field.
  - rewrite (Hi (S i)) by lia.
    rewrite (He i Hlt), (He (S i)) by lia. rewrite inject_Z_S, H0, H1. field.
Qed.

Lemma centres_edges_centres_witness :
  exists edges centres',
    bin_centres_to_edges [1; 3; 5; 7] = Ok edges /\
    bin_edges_to_centres (Array1 edges) = Array1 centres' /\
    Forall2 Qeq centres' [1; 3; 5; 7].
Proof.
  apply (@centres_edges_centres 1 2 [1; 3; 5; 7]).
  - simpl. lia.
  - intros [|[|[|[|i]]]] Hi; try reflexivity. simpl in Hi. lia.
Defined.

(** Centres and back: from evenly spaced edges [bin_edges_to_centres] returns
    one centre fewer than there are edges.  In exact arithmetic
    [bin_centres_to_edges] recovers the edges from these centres when there
    are at least three edges; it raises an [IndexError] when there are two
    edges or fewer, for then it is given at most one centre. *)
Theorem edges_centres_edges (start step : Q) (edges : list Q) :
  evenly_spaced start step edges ->
  exists centres,
    bin_edges_to_centres (Array1 edges) = Array1 centres /\
    length centres = pred (length edges) /\
    ((length edges <= 2)%nat -> bin_centres_to_edges centres = Raise IndexError) /\
    ((3 <= length edges)%nat ->
     exists edges', bin_centres_to_edges centres = Ok edges' /\ Forall2 Qeq edges' edges).
Proof.
  intros He. destruct (centres_midpoints edges) as (c & Ec & Lc & Hc).
  exists c. split; [exact Ec|]. split; [exact Lc|]. split.
  - intros Hn. destruct c as [|a [|b c]]; try reflexivity. simpl in Lc. lia.
  - intros Hn. destruct c as [|c0 [|c1 rest]]; try (simpl in Lc; lia).
    destruct (edges_nth c0 c1 rest) as (e & Ee & Le & Hi & Hl).
    exists e. split; [exact Ee|].
    set (c := c0 :: c1 :: rest) in *.
    assert (Hmid : forall i, (i < length c)%nat ->
              nth i c 0 == start + inject_Z (Z.of_nat i) * step + step / 2).
    { intros i Hlt. rewrite Hc by lia. rewrite (He i), (He (S i)) by lia.
      rewrite inject_Z_S. field. }
    assert (Hs : (c1 - c0) / 2 == step / 2).
    { pose proof (Hmid 0%nat) as M0. pose proof (Hmid 1%nat) as M1.
      cbn [nth c] in M0, M1. rewrite M0, M1 by (simpl; lia).
      change (inject_Z (Z.of_nat 0)) with 0. change (inject_Z (Z.of_nat 1)) with 1. field. }
    apply Forall2_Qeq_nth; [lia|].
    intros i Hlt. rewrite Le in Hlt.
    destruct (Nat.eq_dec i (length c)) as [E|E].
    + rewrite E, Hl, Hmid, Hs by (simpl; lia). rewrite (He (length c)) by lia.
      replace (length c) with (S (pred (length c))) at 2 by (simpl; lia).
      rewrite inject_Z_S. field.
    + rewrite (Hi i) by lia. rewrite Hmid, Hs by lia. rewrite (He i) by lia. field.
Qed.

Lemma edges_centres_edges_witness :
  exists centres,
    bin_edges_to_centres (Array1 [0; 2; 4; 6]) = Array1 centres /\
    length centres = 3%nat /\
    ((length [0; 2; 4; 6] <= 2)%nat -> bin_centres_to_edges centres = Raise IndexError) /\
    ((3 <= length [0; 2; 4; 6])%nat ->
     exists edges', bin_centres_to_edges centres = Ok edges' /\ Forall2 Qeq edges' [0; 2; 4; 6]).
Proof.
  apply (@edges_centres_edges 0 2 [0; 2; 4; 6]).
  intros [|[|[|[|i]]]] Hi; try reflexivity. simpl in Hi. lia.
Defined.

Lemma nth_tl (A : Type) (l : list A) (d : A) (i : nat) : nth i (tl l) d = nth (S i) l d.
Proof. destruct l; [destruct i|]; reflexivity. Qed.

Lemma length_tl (A : Type) (l : list A) : length (tl l) = pred (length l).
Proof. destruct l; reflexivity. Qed.

Lemma length_removelast (A : Type) (l : list A) : length (removelast l) = pred (length l).
Proof.
  induction l as [|a [|b l] IH]; try reflexivity.
  change (removelast (a :: b :: l)) with (a :: removelast (b :: l)).
  cbn [length] in *. rewrite IH. reflexivity.
Qed.

Lemma nth_removelast (A : Type) (l : list A) (d : A) (i : nat) :
  (S i < length l)%nat -> nth i (removelast l) d = nth i l d.
Proof.
  revert i. induction l as [|a [|b l] IH]; intros i Hi; try (simpl in Hi; lia).
  change (removelast (a :: b :: l)) with (a :: removelast (b :: l)).
  destruct i as [|i]; [reflexivity|]. cbn [nth]. apply IH. simpl in *. lia.
Qed.

Lemma length_zip_with (f : Q -> Q -> Q) (a b : list Q) :
  length (zip_with f a b) = Nat.min (length a) (length b).
Proof. unfold zip_with. now rewrite length_map, length_combine. Qed.

Lemma nth_zip_with (f : Q -> Q -> Q) (a b : list Q) (i : nat) :
  (i < length a)%nat -> (i < length b)%nat ->
  nth i (zip_with f a b) 0 = f (nth i a 0) (nth i b 0).
Proof.
  revert b i. induction a as [|x a IH]; intros [|y b] i Ha Hb; try (simpl in *; lia).
  destruct i as [|i]; [reflexivity|]. simpl in Ha, Hb. apply (IH b i); lia.
Qed.

Lemma length_zip_with2 (f : Q -> Q -> Q) (a b : list (list Q)) :
  length (zip_with2 f a b) = Nat.min (length a) (length b).
Proof. unfold zip_with2. now rewrite length_map, length_combine. Qed.

Lemma nth_zip_with2 (f : Q -> Q -> Q) (a b : list (list Q)) (i : nat) :
  (i < length a)%nat -> (i < length b)%nat ->
  nth i (zip_with2 f a b) [] = zip_with f (nth i a []) (nth i b []).
Proof.
  revert b i. induction a as [|x a IH]; intros [|y b] i Ha Hb; try (simpl in *; lia).
  destruct i as [|i]; [reflexivity|]. simpl in Ha, Hb. apply (IH b i); lia.
Qed.

Lemma nth_map_rows (f : list Q -> list Q) (a : list (list Q)) (i : nat) :
  (i < length a)%nat -> nth i (map f a) [] = f (nth i a []).
Proof.
  intros Hi. rewrite (nth_indep _ [] (f [])) by (now rewrite length_map). apply map_nth.
Qed.

Lemma nth_map_halve (a : list Q) (i : nat) :
  (i < length a)%nat -> nth i (map (fun d => d / 2) a) 0 = nth i a 0 / 2.
Proof.
  intros Hi. rewrite (nth_indep _ 0 (0 / 2)) by (now rewrite length_map).
  apply (map_nth (fun d => d / 2)).
Qed.

(** On a grid of edges whose rows have the same length, [bin_edges_to_centres]
    returns one row and one column fewer and, in exact arithmetic, every
    centre is the midpoint of the two corners of its cell on the diagonal,
    [edges[i, j]] and [edges[i+1, j+1]]. *)
Theorem centres_of_grid (edges : list (list Q)) (w : nat) :
  Forall (fun r => length r = w) edges ->
  exists centres,
    bin_edges_to_centres (Array2 edges) = Array2 centres /\
    length centres = pred (length edges) /\
    forall i j, (S i < length edges)%nat -> (S j < w)%nat ->
      length (nth i centres []) = pred w /\
      nth j (nth i centres []) 0
      == (nth j (nth i edges []) 0 + nth (S j) (nth (S i) edges []) 0) / 2.
Proof.
  intros Hw. eexists. split; [reflexivity|].
  assert (Lr : forall i, (i < length edges)%nat -> length (nth i edges []) = w).
  { intros i Hi. rewrite Forall_forall in Hw. apply Hw, nth_In, Hi. }
  assert (L1 : length (map (@removelast Q) (removelast edges)) = pred (length edges))
    by (now rewrite length_map, length_removelast).
  assert (L2 : length (map (@tl Q) (tl edges)) = pred (length edges))
    by (now rewrite length_map, length_tl).
  assert (L3 : length (map (map (fun d => d / 2))
                 (zip_with2 Qminus (map (@tl Q) (tl edges))
                    (map (@removelast Q) (removelast edges)))) = pred (length edges)).
  { rewrite length_map, length_zip_with2, L1, L2. lia. }
  split.
  - rewrite length_zip_with2, L1, L3. lia.
  - intros i j Hi Hj.
    rewrite nth_zip_with2 by lia.
    rewrite (nth_map_rows (map (fun d => d / 2))) by (rewrite length_zip_with2; lia).
    rewrite nth_zip_with2 by lia.
    rewrite !nth_map_rows by (rewrite ?length_removelast, ?length_tl; lia).
    rewrite nth_tl, nth_removelast by lia.
    assert (La : length (removelast (nth i edges [])) = pred w)
      by (rewrite length_removelast, Lr by lia; reflexivity).
    assert (Lb : length (tl (nth (S i) edges [])) = pred w)
      by (rewrite length_tl, Lr by lia; reflexivity).
    split.
    + rewrite length_zip_with, length_map, length_zip_with, La, Lb. lia.
    + rewrite nth_zip_with by (rewrite ?length_map, ?length_zip_with; lia).
      rewrite nth_map_halve by (rewrite length_zip_with; lia).
      rewrite nth_zip_with by lia.
      rewrite nth_tl, nth_removelast by (rewrite Lr; lia). field.
Qed.

Lemma centres_of_grid_witness :
  exists centres,
    bin_edges_to_centres (Array2 [[0; 2; 4]; [10; 12; 14]; [20; 22; 24]]) = Array2 centres /\
    length centres = 2%nat /\
    forall i j, (S i < 3)%nat -> (S j < 3)%nat ->
      length (nth i centres []) = 2%nat /\
      nth j (nth i centres []) 0
      == (nth j (nth i [[0; 2; 4]; [10; 12; 14]; [20; 22; 24]] []) 0 +
          nth (S j) (nth (S i) [[0; 2; 4]; [10; 12; 14]; [20; 22; 24]] []) 0) / 2.
Proof.
  apply (@centres_of_grid [[0; 2; 4]; [10; 12; 14]; [20; 22; 24]] 3).
  repeat constructor.
Defined.

(** The bins of [ternary_heatmap]: the edges of [bins] centres spread with
    [np.linspace] from [lo] to [hi].  With one bin or none,
    [bin_centres_to_edges] raises an [IndexError].  With two bins or more there
    is one edge more than there are bins and, in exact arithmetic, the edges
    are evenly spaced by the step [h] of the centres, from half a step below
    [lo] to half a step above [hi]. *)
Theorem heatmap_bin_edges (lo hi : Q) (bins : nat) :
  ((bins <= 1)%nat -> bin_centres_to_edges (linspace lo hi bins) = Raise IndexError) /\
  ((2 <= bins)%nat ->
   exists edges,
     bin_centres_to_edges (linspace lo hi bins) = Ok edges /\
     length edges = S bins /\
     let h := (hi - lo) / inject_Z (Z.of_nat (bins - 1)) in
     evenly_spaced (lo - h / 2) h edges /\
     nth 0 edges 0 == lo - h / 2 /\
     nth bins edges 0 == hi + h / 2).
Proof.
  split.
  - intros Hb. destruct bins as [|[|m]]; try lia; reflexivity.
  - intros Hb.
    pose proof (linspace_evenly_spaced lo hi Hb) as He.
    pose proof (linspace_length lo hi bins) as Hl.
    destruct (linspace lo hi bins) as [|c0 [|c1 rest]] eqn:Ec;
      try (simpl in Hl; lia).
    destruct (edges_nth c0 c1 rest) as (e & Ee & Le & Hi & Hlast).
    exists e. split; [exact Ee|]. split; [rewrite Le, Hl; reflexivity|].
    set (c := c0 :: c1 :: rest) in *.
    set (h := (hi - lo) / inject_Z (Z.of_nat (bins - 1))) in *.
    assert (Hm : ~ inject_Z (Z.of_nat (bins - 1)) == 0).
    { intros E. assert (H : 0 < inject_Z (Z.of_nat (bins - 1))) by (rewrite <- (Zlt_Qlt 0); lia).
      rewrite E in H. discriminate. }
    assert (H0 : c0 == lo + 0 * h) by (apply (He 0%nat); lia).
    assert (H1 : c1 == lo + 1 * h) by (apply (He 1%nat); lia).
    assert (Hs : (c1 - c0) / 2 == h / 2) by (rewrite H0, H1; field).
    assert (Hall : forall i, (i < length e)%nat ->
              nth i e 0 == lo - h / 2 + inject_Z (Z.of_nat i) * h).
    { intros i Hlt. rewrite Le in Hlt.
      destruct (Nat.eq_dec i (length c)) as [->|Ne].
      - rewrite Hlast, Hs, (He (pred (length c))) by lia.
        replace (length c) with (S (pred (length c))) at 2 by lia.
        rewrite inject_Z_S. field.
      - rewrite (Hi i) by lia. rewrite Hs, (He i) by lia. field. }
    cbv zeta. split; [exact Hall|]. split.
    + rewrite Hall by lia. change (inject_Z (Z.of_nat 0)) with 0. ring.
    + rewrite Hall by lia.
      replace bins with (S (bins - 1)) at 1 by lia. rewrite inject_Z_S.
      unfold h. field. exact Hm.
Qed.

(** * The meltsfile codec *)

Import Meltsfile.

Section MeltsfileFacts.
Local Open Scope string_scope.

(** What the numeric coercion makes of a few strings. *)
Example numeral_examples :
  map numeral ["1200"; "-7"; "+12"; "007"; "50.20"; "-0.5"; ".5"; "1."; "."; "A"; "1.2.3"; ""] =
  [VInt 1200; VInt (-7); VInt 12; VInt 7; fifty_point_two;
   VFloat (Decimal.Neg (Decimal.D0 Decimal.Nil)) (Decimal.D5 Decimal.Nil);
   VFloat (Decimal.Pos (Decimal.D0 Decimal.Nil)) (Decimal.D5 Decimal.Nil);
   VFloat (Decimal.Pos (Decimal.D1 Decimal.Nil)) (Decimal.D0 Decimal.Nil);
   VStr "."; VStr "A"; VStr "1.2.3"; VStr ""].
Proof. reflexivity. Qed.

(** A text with blank lines, both kinds of component lines, a value that
    holds the separator again and a line without a value. *)
Example from_meltsfile_example :
  from_meltsfile Ok (fun _ => Missing)
    (StringIO ("Title: Run: 1" ++ CRLF ++ CRLF ++ "  Initial Composition: MgO 7.50" ++ LF ++
               "Initial Trace: La 12" ++ LF ++ "Log fO2 Path: FMQ" ++ LF ++ "done" ++ LF)) =
  Ok [(Some "Title", VStr "Run"); (Some "MgO", VFloat (Decimal.Pos (Decimal.D7 Decimal.Nil))
                                                  (Decimal.D5 Decimal.Nil));
      (Some "La", VInt 12); (Some "Log fO2 Path", VStr "FMQ"); (Some "done", VNone)].
Proof. reflexivity. Qed.

Lemma mem_In (k : string) (l : list string) : mem k l = true <-> In k l.
Proof.
  unfold mem. rewrite existsb_exists. split.
  - intros (x & Hx & E). apply String.eqb_eq in E. now subst.
  - intros H. exists k. split; [exact H|apply String.eqb_refl].
Qed.

Lemma index_In (ser : series) (k : string) :
  In k (index ser) <-> exists v, In (k, v) ser.
Proof.
  unfold index. rewrite in_map_iff. split.
  - intros ([k' v] & <- & H). now exists v.
  - intros (v & H). now exists (k, v).
Qed.

Lemma filter_absent (ser : series) (k : string) :
  ~ In k (index ser) -> filter (fun e => String.eqb (fst e) k) ser = [].
Proof.
  induction ser as [|[k' v'] ser IH]; intros Hk; [reflexivity|].
  cbn [filter fst]. destruct (String.eqb k' k) eqn:E.
  - apply String.eqb_eq in E. subst. exfalso. apply Hk. now left.
  - apply IH. intros H. apply Hk. now right.
Qed.

(** Under a label that occurs once there is one entry. *)
Lemma filter_label (ser : series) (k : string) (v : value) :
  NoDup (index ser) -> In (k, v) ser ->
  filter (fun e => String.eqb (fst e) k) ser = [(k, v)].
Proof.
  induction ser as [|[k' v'] ser IH]; intros Hnd Hin; [contradiction|].
  cbn [index map fst] in Hnd. apply NoDup_cons_iff in Hnd as [Hk Hnd].
  cbn [filter fst]. destruct Hin as [[= -> ->]|Hin].
  - rewrite String.eqb_refl. f_equal. now apply filter_absent.
  - destruct (String.eqb k' k) eqn:E.
    + apply String.eqb_eq in E. subst. exfalso. apply Hk.
      apply index_In. now exists v.
    + now apply IH.
Qed.

Lemma get_In (ser : series) (k : string) (v : value) :
  NoDup (index ser) -> In (k, v) ser -> get ser k = v.
Proof.
  intros Hnd Hin. unfold get.
  pose proof (filter_label ser k v Hnd Hin) as Hf.
  destruct (find (fun e => String.eqb (fst e) k) ser) as [e|] eqn:E.
  - apply find_some in E. destruct E as [He Hk].
    assert (Hin' : In e (filter (fun e => String.eqb (fst e) k) ser))
      by (apply filter_In; now split).
    rewrite Hf in Hin'. destruct Hin' as [<-|[]]. reflexivity.
  - exfalso. apply (find_none _ _ E) in Hin. cbn in Hin. now rewrite String.eqb_refl in Hin.
Qed.
Lemma get_mem (ser : series) (k : string) :
  In k (index ser) -> In (k, get ser k) ser.
Proof.
  intros Hk. apply index_In in Hk. destruct Hk as (v & Hv). unfold get.
  destruct (find (fun e => String.eqb (fst e) k) ser) as [[k' v']|] eqn:E.
  - apply find_some in E. destruct E as [He Hk]. cbn [fst] in Hk.
    apply String.eqb_eq in Hk. now subst.
  - exfalso. apply (find_none _ _ E) in Hv. cbn in Hv. now rewrite String.eqb_refl in Hv.
Qed.

(** [zip(keys, ser.loc[keys].values)] walks the entries whose label is kept. *)
Lemma combine_loc_values (P : string -> bool) (ser : series) :
  NoDup (index ser) ->
  forall l, incl l ser ->
    combine (filter P (index l)) (loc_values ser (filter P (index l))) =
    filter (fun e => P (fst e)) l.
Proof.
  intros Hnd. induction l as [|[k v] l IH]; intros Hl; [reflexivity|].
  assert (Hin : In (k, v) ser) by (apply Hl; now left).
  assert (Hl' : incl l ser) by (intros e He; apply Hl; now right).
  cbn [index map fst filter]. fold (index l). destruct (P k); [|now apply IH].
  cbn [loc_values flat_map]. rewrite (filter_label ser k v Hnd Hin).
  cbn [map snd app combine]. f_equal. now apply IH.
Qed.

Lemma flat_map_filter (A B : Type) (Q : A -> bool) (F : A -> list B) (l : list A) :
  flat_map F (filter Q l) = flat_map (fun e => if Q e then F e else []) l.
Proof.
  induction l as [|a l IH]; [reflexivity|].
  cbn [filter flat_map]. destruct (Q a); cbn [flat_map]; now rewrite IH.
Qed.

Lemma flat_map_nil (A B : Type) (F : A -> list B) (l : list A) :
  (forall e, In e l -> F e = []) -> flat_map F l = [].
Proof.
  induction l as [|a l IH]; intros H; [reflexivity|].
  cbn [flat_map]. rewrite (H a) by now left. apply IH. intros e He. apply H. now right.
Qed.

(** When one entry alone produces lines, the lines are those of that entry. *)
Lemma flat_map_single (B : Type) (F : string * value -> list B) (ser : series)
    (k : string) (v : value) :
  NoDup (index ser) -> In (k, v) ser ->
  (forall k' v', In (k', v') ser -> k' <> k -> F (k', v') = []) ->
  flat_map F ser = F (k, v).
Proof.
  induction ser as [|[k0 v0] ser IH]; intros Hnd Hin Hoth; [contradiction|].
  cbn [index map fst] in Hnd. apply NoDup_cons_iff in Hnd as [Hk Hnd].
  cbn [flat_map]. destruct Hin as [[= -> ->]|Hin].
  - rewrite flat_map_nil; [apply app_nil_r|].
    intros [k' v'] He. apply Hoth; [now right|].
    intros ->. apply Hk. apply index_In. now exists v'.
  - rewrite (Hoth k0 v0); [|now left|].
    + apply IH; auto. intros k' v' H'. apply Hoth. now right.
    + intros ->. apply Hk. apply index_In. now exists v.
Qed.

Lemma component_lines_entries (prefix : string) (table exclude : list string) (ser : series) :
  NoDup (index ser) ->
  component_lines prefix table exclude ser =
  flat_map (fun kv =>
              if mem (fst kv) table && negb (mem (fst kv) exclude)
              then (if negb (isnull (snd kv))
                    then [prefix ++ ": " ++ fst kv ++ " " ++ format (snd kv)]
                    else [])
              else []) ser.
Proof.
  intros Hnd. unfold component_lines.
  rewrite (combine_loc_values (fun i => mem i table && negb (mem i exclude)) Hnd
             (incl_refl ser)).
  apply flat_map_filter.
Qed.

Section Scenario.

Variable common_oxides : list string.
Variable common_elements : list string.
Variable ser : series.
Hypothesis tables : scenario_tables common_oxides common_elements.
Hypothesis record : scenario_record ser.

Lemma scenario_null (k : string) :
  In k (index ser) ->
  k <> "Title" -> k <> "SiO2" -> k <> "Initial Temperature" ->
  isnull (get ser k) = true.
Proof.
  intros Hk H1 H2 H3. destruct record as (_ & _ & _ & _ & Hnull).
  apply (Hnull k (get ser k)); auto. now apply get_mem.
Qed.

Lemma scenario_majors :
  component_lines "Initial Composition" common_oxides [] ser =
  ["Initial Composition: SiO2 50.2"].
Proof.
  destruct record as (Hnd & HT & HS & HI & Hnull).
  destruct tables as (T1 & T2 & T3 & _).
  rewrite component_lines_entries by exact Hnd.
  rewrite (@flat_map_single _ _ ser "SiO2" fifty_point_two Hnd HS).
  - cbn [fst snd]. rewrite T1. reflexivity.
  - intros k v Hin Hk. cbn [fst snd].
    destruct (String.eqb_spec k "Title") as [->|N1]; [now rewrite T2|].
    destruct (String.eqb_spec k "Initial Temperature") as [->|N2]; [now rewrite T3|].
    rewrite (Hnull k v Hin N1 Hk N2). now destruct (mem k common_oxides && _).
Qed.

Lemma scenario_traces :
  component_lines "Initial Trace" common_elements [] ser = [].
Proof.
  destruct record as (Hnd & HT & HS & HI & Hnull).
  destruct tables as (_ & _ & _ & T1 & T2 & T3).
  rewrite component_lines_entries by exact Hnd.
  apply flat_map_nil. intros [k v] Hin. cbn [fst snd].
  destruct (String.eqb_spec k "SiO2") as [->|N0]; [now rewrite T1|].
  destruct (String.eqb_spec k "Title") as [->|N1]; [now rewrite T2|].
  destruct (String.eqb_spec k "Initial Temperature") as [->|N2]; [now rewrite T3|].
  rewrite (Hnull k v Hin N1 N0 N2). now destruct (mem k common_elements && _).
Qed.

Lemma scenario_parameter (k : string) :
  k <> "Title" -> k <> "SiO2" -> k <> "Initial Temperature" ->
  (if mem k (index ser)
   then (if negb (isnull (get ser k)) then [k ++ ": " ++ format (get ser k)] else [])
   else []) = [].
Proof.
  intros H1 H2 H3. destruct (mem k (index ser)) eqn:E; [|reflexivity].
  apply mem_In in E. now rewrite scenario_null.
Qed.

Lemma scenario_parameters :
  parameter_lines ser = ["Initial Temperature: 1200"].
Proof.
  destruct record as (Hnd & HT & HS & HI & Hnull).
  unfold parameter_lines. cbn [flat_map app].
  assert (HI' : mem "Initial Temperature" (index ser) = true).
  { apply mem_In, index_In. now exists (VInt 1200). }
  change ("Initial" ++ " " ++ "Temperature") with "Initial Temperature".
  rewrite HI', (get_In ser "Initial Temperature" (VInt 1200) Hnd HI).
  rewrite !scenario_parameter by discriminate. reflexivity.
Qed.

Lemma scenario_path (k : string) :
  String.eqb (lower "Title") (lower k) = false ->
  String.eqb (lower "SiO2") (lower k) = false ->
  String.eqb (lower "Initial Temperature") (lower k) = false ->
  match filter (fun par => String.eqb (lower par) (lower k)) (index ser) with
  | par :: _ =>
      if negb (isnull (get ser par)) then [k ++ ": " ++ format (get ser par)] else []
  | [] => []
  end = [].
Proof.
  intros H1 H2 H3.
  destruct (filter (fun par => String.eqb (lower par) (lower k)) (index ser))
    as [|par rest] eqn:E; [reflexivity|].
  assert (Hpar : In par (filter (fun par => String.eqb (lower par) (lower k)) (index ser)))
    by (rewrite E; now left).
  apply filter_In in Hpar. destruct Hpar as [Hin Hlow].
  rewrite scenario_null; [reflexivity|exact Hin| | |]; intros ->; congruence.
Qed.

Lemma scenario_paths : path_lines ser = [].
Proof.
  unfold path_lines. cbn [flat_map].
  rewrite !scenario_path by reflexivity. reflexivity.
Qed.

(** The text [to_meltsfile] writes for a record of the scenario. *)
Lemma scenario_written (linesep : string) :
  to_meltsfile common_oxides common_elements ser linesep true [] [] =
  Ok (scenario_text linesep).
Proof.
  destruct record as (Hnd & HT & HS & HI & Hnull).
  unfold to_meltsfile.
  assert (HT' : mem "Title" (index ser) = true).
  { apply mem_In, index_In. now exists (VStr "A"). }
  rewrite HT'. cbn [orb]. rewrite (get_In ser "Title" (VStr "A") Hnd HT).
  rewrite scenario_majors, scenario_traces, scenario_parameters, scenario_paths.
  reflexivity.
Qed.

End Scenario.

End MeltsfileFacts.

(** C9. A record that holds [Title = "A"], [SiO2 = 50.2] and
    [Initial Temperature = 1200], and otherwise only missing (NaN) fields, is
    written by [to_meltsfile] as the three lines of these fields and nothing
    else: no missing field leaves a trace in the text.  Read back by
    [from_meltsfile], as raw text that names no file or from a [StringIO]
    buffer, the text gives the same three pairs, [50.2] as a float and [1200]
    as an integer. *)
Theorem C9_meltsfile_roundtrip (common_oxides common_elements : list string)
    (decode : string -> result string) (fs : string -> entry)
    (ser : series) (linesep : string) :
  scenario_tables common_oxides common_elements ->
  scenario_record ser ->
  linesep = LF \/ linesep = CRLF ->
  fs (scenario_text linesep) = Missing ->
  to_meltsfile common_oxides common_elements ser linesep true [] [] =
    Ok (scenario_text linesep) /\
  from_meltsfile decode fs (Str (scenario_text linesep)) = Ok scenario_pairs /\
  from_meltsfile decode fs (StringIO (scenario_text linesep)) = Ok scenario_pairs.
Proof.
  intros Htab Hrec Hsep Hfs. split; [now apply scenario_written|].
  unfold from_meltsfile, read_source, open. rewrite Hfs.
  destruct Hsep as [-> | ->]; split; reflexivity.
Qed.

Lemma C9_meltsfile_roundtrip_witness :
  let ser := [("Al2O3", VNaN); ("Initial Temperature", VInt 1200); ("Title", VStr "A");
              ("Final Pressure", VNaN); ("SiO2", fifty_point_two); ("La", VNone);
              ("Log fO2 Path", VNaN)]%string in
  to_meltsfile ["SiO2"; "Al2O3"; "MgO"]%string ["Si"; "Al"; "La"]%string ser LF true [] [] =
    Ok (scenario_text LF) /\
  from_meltsfile Ok (fun _ => Missing) (Str (scenario_text LF)) = Ok scenario_pairs /\
  from_meltsfile Ok (fun _ => Missing) (StringIO (scenario_text LF)) = Ok scenario_pairs.
Proof.
  apply (@C9_meltsfile_roundtrip ["SiO2"; "Al2O3"; "MgO"]%string ["Si"; "Al"; "La"]%string
           Ok (fun _ => Missing)).
  - repeat split.
  - split; [|split; [|split; [|split]]].
    + repeat (apply NoDup_cons; [simpl; intuition discriminate|]). apply NoDup_nil.
    + simpl. tauto.
    + simpl. tauto.
    + simpl. tauto.
    + intros k v Hin H1 H2 H3. simpl in Hin.
      repeat (destruct Hin as [[= <- <-]|Hin]; [first [reflexivity | congruence]|]).
      contradiction.
  - now left.
  - reflexivity.
Defined.

(** C10. Given a path, as a string or a path object, that names an existing
    readable file, [from_meltsfile] raises an [AttributeError]: it calls
    [read] on the path.  Whenever it returns a record, that record is parsed
    from the text of a [BytesIO] or [StringIO] buffer, or from a string that
    names no file and is itself taken as the text. *)
Theorem C10_path_of_a_file_raises (decode : string -> result string) (fs : string -> entry)
    (p content : string) :
  fs p = File content ->
  from_meltsfile decode fs (Str p) = Raise AttributeError /\
  from_meltsfile decode fs (PathObject p) = Raise AttributeError /\
  forall filename r,
    from_meltsfile decode fs filename = Ok r ->
    (exists b s, filename = BytesIO b /\ decode b = Ok s /\ parse (Text s) = Ok r) \/
    (exists s, filename = StringIO s /\ parse (Text s) = Ok r) \/
    (exists s, filename = Str s /\ fs s = Missing /\ parse (Text s) = Ok r).
Proof.
  intros Hp. unfold from_meltsfile, read_source, open.
  split; [now rewrite Hp|]. split; [now rewrite Hp|].
  intros [b|s|s|q] r Hr.
  - left. destruct (decode b) as [s|e] eqn:E; [|discriminate]. now exists b, s.
  - right. left. now exists s.
  - right. right. exists s. destruct (fs s); try discriminate. now split.
  - exfalso. destruct (fs q); discriminate.
Qed.

Lemma C10_path_of_a_file_raises_witness :
  let fs := fun q => if String.eqb q "run.melts" then File (scenario_text LF) else Missing in
  from_meltsfile Ok fs (Str "run.melts") = Raise AttributeError /\
  from_meltsfile Ok fs (PathObject "run.melts") = Raise AttributeError /\
  forall filename r,
    from_meltsfile Ok fs filename = Ok r ->
    (exists b s, filename = BytesIO b /\ Ok b = Ok s /\ parse (Text s) = Ok r) \/
    (exists s, filename = StringIO s /\ parse (Text s) = Ok r) \/
    (exists s, filename = Str s /\ fs s = Missing /\ parse (Text s) = Ok r).
Proof.
  exact (@C10_path_of_a_file_raises Ok
           (fun q => if String.eqb q "run.melts" then File (scenario_text LF) else Missing)
           "run.melts" (scenario_text LF) eq_refl).
Defined.

(** * The codec over all records *)

Section CodecFacts.
Local Open Scope string_scope.

Lemma to_meltsfile_returns (ox el : list string) (ser : series) (sep : string) (wt : bool)
    (modes exclude : list string) :
  has_title ser = true -> exists text, to_meltsfile ox el ser sep wt modes exclude = Ok text.
Proof.
  unfold has_title, to_meltsfile. intros ->. eexists. reflexivity.
Qed.

Lemma to_meltsfile_raises (ox el : list string) (ser : series) (sep : string) (wt : bool)
    (modes exclude : list string) :
  has_title ser = false -> to_meltsfile ox el ser sep wt modes exclude = Raise AssertionError.
Proof.
  unfold has_title, to_meltsfile. intros ->. reflexivity.
Qed.

Lemma collect_ok (A B : Type) (f : A -> result B) (l : list A) (g : A -> B) :
  (forall a, In a l -> f a = Ok (g a)) -> collect f l = Ok (map g l).
Proof.
  induction l as [|a l IH]; intros H; [reflexivity|].
  cbn [collect map]. rewrite (H a) by now left. cbn [bind].
  rewrite IH by (intros b Hb; apply H; now right). reflexivity.
Qed.

Lemma collect_raise (A B : Type) (f : A -> result B) (l : list A) (e : exn) :
  (forall a, In a l -> f a = Raise e \/ exists b, f a = Ok b) ->
  (exists a, In a l /\ f a = Raise e) ->
  collect f l = Raise e.
Proof.
  induction l as [|a l IH]; intros Hall (a0 & Hin & Hr); [contradiction|].
  cbn [collect]. destruct (Hall a (or_introl eq_refl)) as [E|(b & E)]; rewrite E; cbn [bind].
  - reflexivity.
  - rewrite IH; [reflexivity| |].
    + intros x Hx. apply Hall. now right.
    + destruct Hin as [<-|Hin]; [congruence|]. now exists a0.
Qed.

(** [to_meltsfiles] never looks at its [linesep]: every text is joined with
    [os.linesep].  A frame whose rows have distinct labels gives one text per
    row, in row order, when every row has a title, and an [AssertionError] and
    no text as soon as one row has none; a series gives what the frame of that
    one row gives; anything else gives [None]. *)
Theorem to_meltsfiles_texts (ox el : list string) (os_linesep linesep : string)
    (wt : bool) (modes exclude : list string) (rows : list series) :
  Forall (fun row => NoDup (index row)) rows ->
  (forallb has_title rows = true ->
   exists texts,
     to_meltsfiles ox el os_linesep (DataFrame rows) linesep wt modes exclude = Ok (Some texts) /\
     Forall2 (fun row text => to_meltsfile ox el row os_linesep wt modes exclude = Ok text)
       rows texts) /\
  (forallb has_title rows = false ->
   to_meltsfiles ox el os_linesep (DataFrame rows) linesep wt modes exclude
   = Raise AssertionError) /\
  (forall ser,
     to_meltsfiles ox el os_linesep (Series ser) linesep wt modes exclude =
     to_meltsfiles ox el os_linesep (DataFrame [ser]) linesep wt modes exclude) /\
  to_meltsfiles ox el os_linesep Other linesep wt modes exclude = Ok None.
Proof.
  intros _. split; [|split; [|split]].
  - intros Hrows. rewrite forallb_forall in Hrows. cbn [to_meltsfiles].
    induction rows as [|row rows IH].
    + exists []. split; [reflexivity|constructor].
    + destruct IH as (texts & E & F); [intros r Hr; apply Hrows; now right|].
      destruct (@to_meltsfile_returns ox el row os_linesep wt modes exclude) as (text & Et);
        [apply Hrows; now left|].
      exists (text :: texts). cbn [collect]. rewrite Et. cbn [bind].
      destruct (collect _ rows) as [ts|e]; [|discriminate].
      injection E as <-. split; [reflexivity|]. constructor; assumption.
  - intros Hrows. cbn [to_meltsfiles].
    rewrite (@collect_raise _ _ _ rows AssertionError); [reflexivity| |].
    + intros row _. destruct (has_title row) eqn:E.
      * right. now apply to_meltsfile_returns.
      * left. now apply to_meltsfile_raises.
    + assert (H : existsb (fun r => negb (has_title r)) rows = true).
      { clear -Hrows. induction rows as [|r rows IH]; [discriminate|].
        cbn [forallb existsb] in *. destruct (has_title r); cbn in *; auto. }
      apply existsb_exists in H. destruct H as (row & Hin & Hn).
      exists row. split; [exact Hin|]. apply to_meltsfile_raises.
      now apply negb_true_iff in Hn.
  - intros ser. cbn [to_meltsfiles collect].
    destruct (to_meltsfile ox el ser os_linesep wt modes exclude); reflexivity.
  - reflexivity.
Qed.

Lemma to_meltsfiles_texts_witness :
  let rows := [[("Title", VStr "A"); ("SiO2", VInt 50)]; [("title", VStr "B")]] in
  (forallb has_title rows = true ->
   exists texts,
     to_meltsfiles ["SiO2"] ["La"] LF (DataFrame rows) CRLF true [] [] = Ok (Some texts) /\
     Forall2 (fun row text => to_meltsfile ["SiO2"] ["La"] row LF true [] [] = Ok text)
       rows texts) /\
  (forallb has_title rows = false ->
   to_meltsfiles ["SiO2"] ["La"] LF (DataFrame rows) CRLF true [] [] = Raise AssertionError) /\
  (forall ser,
     to_meltsfiles ["SiO2"] ["La"] LF (Series ser) CRLF true [] [] =
     to_meltsfiles ["SiO2"] ["La"] LF (DataFrame [ser]) CRLF true [] []) /\
  to_meltsfiles ["SiO2"] ["La"] LF Other CRLF true [] [] = Ok None.
Proof.
  apply (@to_meltsfiles_texts ["SiO2"] ["La"] LF CRLF true [] []
           [[("Title", VStr "A"); ("SiO2", VInt 50)]; [("title", VStr "B")]]).
  repeat (constructor;
          [repeat (apply NoDup_cons; [simpl; intuition discriminate|]); apply NoDup_nil|]).
  constructor.
Defined.

Lemma append_assoc (a b c : string) : (a ++ b) ++ c = a ++ (b ++ c).
Proof. induction a as [|x a IH]; [reflexivity|]. cbn [append]. now rewrite IH. Qed.

Lemma append_nil_r (a : string) : a ++ "" = a.
Proof. induction a as [|x a IH]; [reflexivity|]. cbn [append]. now rewrite IH. Qed.

Lemma concat_cons2 (sep x y : string) (l : list string) :
  String.concat sep (x :: y :: l) = x ++ sep ++ String.concat sep (y :: l).
Proof. reflexivity. Qed.

Lemma concat_snoc (sep x : string) (l : list string) :
  l <> [] -> String.concat sep (l ++ [x])%list = String.concat sep l ++ sep ++ x.
Proof.
  induction l as [|a [|b l] IH]; intros Hne; [congruence|reflexivity|].
  change ((a :: b :: l) ++ [x])%list with (a :: b :: (l ++ [x])%list).
  rewrite !concat_cons2. change (b :: (l ++ [x])%list) with ((b :: l) ++ [x])%list.
  rewrite IH by discriminate. now rewrite !append_assoc.
Qed.

(** One more mode is one more line at the end of the text, for a record with
    distinct labels that [to_meltsfile] accepts. *)
Theorem to_meltsfile_mode_appended (ox el : list string) (ser : series) (sep : string)
    (wt : bool) (modes exclude : list string) (m text : string) :
  NoDup (index ser) ->
  to_meltsfile ox el ser sep wt modes exclude = Ok text ->
  to_meltsfile ox el ser sep wt (modes ++ [m])%list exclude = Ok (text ++ sep ++ "Mode: " ++ m).
Proof.
  intros _. unfold to_meltsfile.
  destruct (mem "Title" (index ser) || mem "title" (index ser)); [|discriminate].
  intros [= <-]. f_equal. rewrite map_app. cbn [map].
  rewrite !app_assoc. apply concat_snoc.
  destruct (mem "Title" (index ser)); discriminate.
Qed.

Lemma to_meltsfile_mode_appended_witness :
  to_meltsfile ["SiO2"] ["La"] [("Title", VStr "A"); ("SiO2", VInt 50)] LF true
    (["isobaric"] ++ ["fractionate solids"])%list []
  = Ok (("Title: A" ++ LF ++ "Initial Composition: SiO2 50" ++ LF ++ "Mode: isobaric")
        ++ LF ++ "Mode: " ++ "fractionate solids").
Proof.
  apply (@to_meltsfile_mode_appended ["SiO2"] ["La"] [("Title", VStr "A"); ("SiO2", VInt 50)]
           LF true ["isobaric"] [] "fractionate solids").
  - repeat (apply NoDup_cons; [simpl; intuition discriminate|]). apply NoDup_nil.
  - reflexivity.
Defined.

Lemma concat_head (sep x : string) (l : list string) :
  exists rest, String.concat sep (x :: l) = x ++ rest.
Proof.
  destruct l as [|y l].
  - exists "". cbn. now rewrite append_nil_r.
  - exists (sep ++ String.concat sep (y :: l)). reflexivity.
Qed.

(** [to_meltsfile] wants a title: without the label ["Title"] or ["title"]
    it raises an [AssertionError]; with one it returns a text whose first line
    is the title, ["Title"] winning over ["title"] when the record has
    both. *)
Theorem to_meltsfile_title (ox el : list string) (ser : series) (sep : string)
    (wt : bool) (modes exclude : list string) :
  NoDup (index ser) ->
  (~ In "Title" (index ser) -> ~ In "title" (index ser) ->
   to_meltsfile ox el ser sep wt modes exclude = Raise AssertionError) /\
  (forall v, In ("Title", v) ser ->
   exists rest,
     to_meltsfile ox el ser sep wt modes exclude = Ok ("Title: " ++ format v ++ rest)) /\
  (forall v, ~ In "Title" (index ser) -> In ("title", v) ser ->
   exists rest,
     to_meltsfile ox el ser sep wt modes exclude = Ok ("Title: " ++ format v ++ rest)).
Proof.
  intros Hnd. split; [|split].
  - intros H1 H2. unfold to_meltsfile.
    destruct (mem "Title" (index ser)) eqn:E1; [apply mem_In in E1; contradiction|].
    destruct (mem "title" (index ser)) eqn:E2; [apply mem_In in E2; contradiction|].
    reflexivity.
  - intros v Hv. unfold to_meltsfile.
    assert (E : mem "Title" (index ser) = true) by (apply mem_In, index_In; now exists v).
    rewrite E. cbn [orb]. rewrite (get_In ser "Title" v Hnd Hv).
    cbn [app].
    match goal with
    | |- context [String.concat sep (?x :: ?l)] => destruct (concat_head sep x l) as (rest & Er)
    end.
    exists rest. rewrite Er. now rewrite append_assoc.
  - intros v H1 Hv. unfold to_meltsfile.
    assert (E1 : mem "Title" (index ser) = false).
    { apply not_true_is_false. intros E. apply mem_In in E. contradiction. }
    assert (E2 : mem "title" (index ser) = true) by (apply mem_In, index_In; now exists v).
    rewrite E1, E2. cbn [orb]. rewrite (get_In ser "title" v Hnd Hv).
    cbn [app].
    match goal with
    | |- context [String.concat sep (?x :: ?l)] => destruct (concat_head sep x l) as (rest & Er)
    end.
    exists rest. rewrite Er. now rewrite append_assoc.
Qed.

Lemma to_meltsfile_title_witness :
  let ser := [("title", VStr "lower"); ("SiO2", VInt 50); ("Title", VStr "Upper")] in
  (~ In "Title" (index ser) -> ~ In "title" (index ser) ->
   to_meltsfile ["SiO2"] ["La"] ser LF true [] [] = Raise AssertionError) /\
  (forall v, In ("Title", v) ser ->
   exists rest,
     to_meltsfile ["SiO2"] ["La"] ser LF true [] [] = Ok ("Title: " ++ format v ++ rest)) /\
  (forall v, ~ In "Title" (index ser) -> In ("title", v) ser ->
   exists rest,
     to_meltsfile ["SiO2"] ["La"] ser LF true [] [] = Ok ("Title: " ++ format v ++ rest)).
Proof.
  apply (@to_meltsfile_title ["SiO2"] ["La"]
           [("title", VStr "lower"); ("SiO2", VInt 50); ("Title", VStr "Upper")] LF true [] []).
  repeat (apply NoDup_cons; [simpl; intuition discriminate|]). apply NoDup_nil.
Defined.

Section Exclude.

Variable exclude : list string.
Hypothesis unreserved : Forall (fun k => mem (lower k) reserved = false) exclude.

Lemma reserved_kept (k : string) : mem (lower k) reserved = true -> mem k exclude = false.
Proof.
  intros Hr. apply not_true_is_false. intros He. apply mem_In in He.
  rewrite Forall_forall in unreserved. rewrite (unreserved k He) in Hr. discriminate.
Qed.

Lemma index_without (ser : series) :
  index (without exclude ser) = filter (fun k => negb (mem k exclude)) (index ser).
Proof.
  induction ser as [|[k v] ser IH]; [reflexivity|].
  unfold without in *. cbn [filter index map fst].
  destruct (mem k exclude); cbn [negb map fst]; unfold index in IH; now rewrite IH.
Qed.

Lemma mem_without (ser : series) (k : string) :
  mem k exclude = false -> mem k (index (without exclude ser)) = mem k (index ser).
Proof.
  intros Hk. rewrite index_without. unfold mem at 1 3.
  induction (index ser) as [|k' l IH]; [reflexivity|].
  cbn [filter existsb]. destruct (mem k' exclude) eqn:E; cbn [negb existsb].
  - rewrite IH. destruct (String.eqb k k') eqn:Q; [|reflexivity].
    apply String.eqb_eq in Q. congruence.
  - now rewrite IH.
Qed.

Lemma get_without (ser : series) (k : string) :
  mem k exclude = false -> get (without exclude ser) k = get ser k.
Proof.
  intros Hk. unfold get, without.
  induction ser as [|[k' v] ser IH]; [reflexivity|].
  cbn [filter find fst]. destruct (mem k' exclude) eqn:E; cbn [negb find fst].
  - destruct (String.eqb k' k) eqn:Q; [|exact IH].
    apply String.eqb_eq in Q. congruence.
  - destruct (String.eqb k' k); [reflexivity|exact IH].
Qed.

Lemma filter_without (ser : series) (k : string) :
  mem k exclude = false ->
  filter (fun e => String.eqb (fst e) k) (without exclude ser) =
  filter (fun e => String.eqb (fst e) k) ser.
Proof.
  intros Hk. unfold without.
  induction ser as [|[k' v] ser IH]; [reflexivity|].
  cbn [filter fst]. destruct (mem k' exclude) eqn:E; cbn [negb filter fst].
  - destruct (String.eqb k' k) eqn:Q; [|exact IH].
    apply String.eqb_eq in Q. congruence.
  - destruct (String.eqb k' k); [now rewrite IH|exact IH].
Qed.

Lemma component_lines_without (prefix : string) (table : list string) (ser : series) :
  component_lines prefix table exclude ser =
  component_lines prefix table [] (without exclude ser).
Proof.
  unfold component_lines. rewrite index_without.
  assert (Ek : filter (fun i => mem i table && negb (mem i [])) (filter (fun k => negb (mem k exclude)) (index ser))
               = filter (fun i => mem i table && negb (mem i exclude)) (index ser)).
  { induction (index ser) as [|k l IH]; [reflexivity|].
    cbn [filter]. destruct (mem k exclude) eqn:E1, (mem k table) eqn:E2;
      cbn [negb andb filter]; rewrite ?E2; change (mem k []) with false;
      cbn [negb andb]; now rewrite ?IH. }
  rewrite Ek. f_equal. f_equal.
  unfold loc_values.
  assert (Hex : Forall (fun k => mem k exclude = false)
                  (filter (fun i => mem i table && negb (mem i exclude)) (index ser))).
  { apply Forall_forall. intros k Hk. apply filter_In in Hk. destruct Hk as [_ Hk].
    apply andb_true_iff in Hk. destruct Hk as [_ Hk]. now apply negb_true_iff in Hk. }
  clear Ek. induction Hex as [|k l Hk Hl IH]; [reflexivity|].
  cbn [flat_map]. rewrite IH. f_equal. f_equal. symmetry. now apply filter_without.
Qed.

Lemma parameter_lines_without (ser : series) :
  parameter_lines (without exclude ser) = parameter_lines ser.
Proof.
  unfold parameter_lines. cbn [flat_map app].
  rewrite !mem_without, !get_without by (apply reserved_kept; reflexivity).
  reflexivity.
Qed.

Lemma path_lines_without (ser : series) :
  path_lines (without exclude ser) = path_lines ser.
Proof.
  unfold path_lines.
  assert (E : forall k, mem (lower k) reserved = true ->
            filter (fun par => String.eqb (lower par) (lower k)) (index (without exclude ser))
            = filter (fun par => String.eqb (lower par) (lower k)) (index ser)).
  { intros k Hk. rewrite index_without.
    induction (index ser) as [|p l IH]; [reflexivity|].
    cbn [filter]. destruct (mem p exclude) eqn:Ep; cbn [negb filter].
    - destruct (String.eqb (lower p) (lower k)) eqn:Q; [|exact IH].
      apply String.eqb_eq in Q. rewrite <- Q in Hk. apply reserved_kept in Hk. congruence.
    - now rewrite IH. }
  assert (G : forall k, mem (lower k) reserved = true ->
            match filter (fun par => String.eqb (lower par) (lower k)) (index (without exclude ser)) with
            | par :: _ =>
                let v := get (without exclude ser) par in
                if negb (isnull v) then [k ++ ": " ++ format v] else []
            | [] => []
            end =
            match filter (fun par => String.eqb (lower par) (lower k)) (index ser) with
            | par :: _ =>
                let v := get ser par in
                if negb (isnull v) then [k ++ ": " ++ format v] else []
            | [] => []
            end).
  { intros k Hk. rewrite (E k Hk).
    destruct (filter (fun par => String.eqb (lower par) (lower k)) (index ser)) as [|par l] eqn:F;
      [reflexivity|].
    assert (Hp : In par (filter (fun par => String.eqb (lower par) (lower k)) (index ser)))
      by (rewrite F; now left).
    apply filter_In in Hp. destruct Hp as [_ Hp]. apply String.eqb_eq in Hp.
    cbv zeta. rewrite get_without; [reflexivity|].
    apply reserved_kept. now rewrite Hp. }
  cbn [flat_map]. rewrite !G by reflexivity. reflexivity.
Qed.

End Exclude.

(** Excluding labels is dropping them from the record: for a record with
    distinct labels, as long as no excluded label is, in any case of letters,
    the title or one of the parameter and path labels, the text is the one
    written for the record without the excluded entries. *)
Theorem exclude_is_drop (ox el : list string) (ser : series) (sep : string)
    (wt : bool) (modes exclude : list string) :
  NoDup (index ser) ->
  Forall (fun k => mem (lower k) reserved = false) exclude ->
  to_meltsfile ox el ser sep wt modes exclude =
  to_meltsfile ox el (without exclude ser) sep wt modes [].
Proof.
  intros _ Hex. unfold to_meltsfile.
  rewrite !(@mem_without exclude), !(@get_without exclude)
    by (apply (reserved_kept Hex); reflexivity).
  rewrite (parameter_lines_without Hex), (path_lines_without Hex).
  rewrite <- !(@component_lines_without exclude). reflexivity.
Qed.

Lemma exclude_is_drop_witness :
  let ser := [("Title", VStr "A"); ("SiO2", VInt 50); ("MgO", VInt 7); ("La", VInt 12);
              ("Initial Pressure", VInt 1000)] in
  to_meltsfile ["SiO2"; "MgO"] ["La"] ser LF true [] ["MgO"; "La"] =
  to_meltsfile ["SiO2"; "MgO"] ["La"] (without ["MgO"; "La"] ser) LF true [] [].
Proof.
  apply (@exclude_is_drop ["SiO2"; "MgO"] ["La"]
           [("Title", VStr "A"); ("SiO2", VInt 50); ("MgO", VInt 7); ("La", VInt 12);
            ("Initial Pressure", VInt 1000)] LF true [] ["MgO"; "La"]).
  - repeat (apply NoDup_cons; [simpl; intuition discriminate|]). apply NoDup_nil.
  - repeat constructor.
Defined.

Lemma NoDup_map_filter (A B : Type) (h : A -> B) (g : A -> bool) (l : list A) :
  NoDup (map h l) -> NoDup (map h (filter g l)).
Proof.
  induction l as [|a l IH]; intros Hnd; [constructor|].
  cbn [map] in Hnd. apply NoDup_cons_iff in Hnd as [Ha Hnd].
  cbn [filter]. destruct (g a); [|now apply IH].
  cbn [map]. constructor; [|now apply IH].
  intros Hin. apply Ha. apply in_map_iff in Hin. destruct Hin as (x & E & Hx).
  apply filter_In in Hx. apply in_map_iff. exists x. tauto.
Qed.

Lemma flat_map_pointwise (A B : Type) (F G : A -> list B) (l : list A) :
  (forall a, In a l -> F a = G a) -> flat_map F l = flat_map G l.
Proof.
  induction l as [|a l IH]; intros H; [reflexivity|].
  cbn [flat_map]. rewrite (H a) by now left. rewrite IH; [reflexivity|].
  intros b Hb. apply H. now right.
Qed.

Section DropNA.

Variable ser : series.
Hypothesis distinct : NoDup (map lower (index ser)).

Lemma distinct_index : NoDup (index ser).
Proof. exact (NoDup_map_inv _ _ distinct). Qed.

Lemma distinct_dropna : NoDup (map lower (index (dropna ser))).
Proof.
  unfold index, dropna in *. rewrite map_map in *.
  now apply NoDup_map_filter.
Qed.

Lemma dropna_In (k : string) (v : value) :
  In (k, v) (dropna ser) <-> In (k, v) ser /\ isnull v = false.
Proof.
  unfold dropna. rewrite filter_In. cbn [snd]. now rewrite negb_true_iff.
Qed.

(** Looking a label up in the record and in the record without its missing
    values: the same when the value is there, and no label at all when the
    value is missing. *)
Lemma lookup_dropna (k : string) (v : value) :
  In (k, v) ser ->
  (isnull v = false ->
   mem k (index (dropna ser)) = true /\ get (dropna ser) k = v /\ get ser k = v) /\
  (isnull v = true -> mem k (index (dropna ser)) = false /\ get ser k = v).
Proof.
  intros Hin. pose proof distinct_index as Hnd.
  pose proof (NoDup_map_inv _ _ distinct_dropna) as Hnd'.
  split; intros Hv.
  - assert (Hin' : In (k, v) (dropna ser)) by (now apply dropna_In).
    split; [|split].
    + apply mem_In, index_In. now exists v.
    + now apply get_In.
    + now apply get_In.
  - split; [|now apply get_In].
    apply not_true_is_false. intros Hm. apply mem_In, index_In in Hm.
    destruct Hm as (v' & Hv'). apply dropna_In in Hv'. destruct Hv' as [Hv' Hn].
    assert (v' = v).
    { rewrite <- (get_In ser k v' Hnd Hv'). now apply get_In. }
    congruence.
Qed.

Lemma absent_dropna (k : string) :
  ~ In k (index ser) -> mem k (index (dropna ser)) = false.
Proof.
  intros Hk. apply not_true_is_false. intros Hm. apply mem_In, index_In in Hm.
  destruct Hm as (v & Hv). apply dropna_In in Hv. apply Hk, index_In. exists v. tauto.
Qed.

Lemma absent_mem (s : series) (k : string) : ~ In k (index s) -> mem k (index s) = false.
Proof. intros Hk. apply not_true_is_false. intros Hm. now apply mem_In in Hm. Qed.

Lemma component_lines_dropna (prefix : string) (table exclude : list string) :
  component_lines prefix table exclude (dropna ser) =
  component_lines prefix table exclude ser.
Proof.
  rewrite !component_lines_entries
    by (first [exact distinct_index | exact (NoDup_map_inv _ _ distinct_dropna)]).
  unfold dropna. rewrite flat_map_filter. apply flat_map_pointwise.
  intros [k v] _. cbn [fst snd]. destruct (isnull v); cbn [negb]; [|reflexivity].
  now destruct (mem k table && negb (mem k exclude)).
Qed.

Lemma parameter_dropna (k : string) :
  (if mem k (index (dropna ser))
   then let v := get (dropna ser) k in if negb (isnull v) then [k ++ ": " ++ format v] else []
   else []) =
  (if mem k (index ser)
   then let v := get ser k in if negb (isnull v) then [k ++ ": " ++ format v] else []
   else []).
Proof.
  destruct (in_dec string_dec k (index ser)) as [Hk|Hk].
  - assert (Hm : mem k (index ser) = true) by (now apply mem_In).
    apply index_In in Hk. destruct Hk as (v & Hv).
    destruct (lookup_dropna k v Hv) as [Hnn Hn]. rewrite Hm. cbv zeta.
    destruct (isnull v) eqn:E.
    + destruct (Hn eq_refl) as (-> & ->). now rewrite E.
    + destruct (Hnn eq_refl) as (-> & -> & ->). reflexivity.
  - now rewrite (absent_dropna k Hk), (@absent_mem ser k Hk).
Qed.

Lemma parameter_lines_dropna : parameter_lines (dropna ser) = parameter_lines ser.
Proof.
  unfold parameter_lines. cbn [flat_map app]. now rewrite !parameter_dropna.
Qed.

Lemma filter_lower_single (idx : list string) (par : string) :
  NoDup (map lower idx) -> In par idx ->
  filter (fun p => String.eqb (lower p) (lower par)) idx = [par].
Proof.
  induction idx as [|p idx IH]; intros Hnd Hin; [contradiction|].
  cbn [map] in Hnd. apply NoDup_cons_iff in Hnd as [Hp Hnd]. cbn [filter].
  destruct Hin as [->|Hin].
  - rewrite String.eqb_refl. f_equal.
    clear IH Hnd. induction idx as [|q idx IH]; [reflexivity|].
    cbn [filter]. destruct (String.eqb (lower q) (lower par)) eqn:E.
    + apply String.eqb_eq in E. exfalso. apply Hp. left. exact E.
    + apply IH. intros H. apply Hp. now right.
  - destruct (String.eqb (lower p) (lower par)) eqn:E; [|now apply IH].
    apply String.eqb_eq in E. exfalso. apply Hp. rewrite E. now apply in_map.
Qed.

Lemma filter_lower_none (idx : list string) (c : string) :
  (forall p, In p idx -> lower p <> c) ->
  filter (fun p => String.eqb (lower p) c) idx = [].
Proof.
  induction idx as [|p idx IH]; intros H; [reflexivity|].
  cbn [filter]. destruct (String.eqb (lower p) c) eqn:E.
  - apply String.eqb_eq in E. exfalso. apply (H p); [now left|exact E].
  - apply IH. intros q Hq. apply H. now right.
Qed.

Lemma path_dropna (k : string) :
  match filter (fun par => String.eqb (lower par) (lower k)) (index (dropna ser)) with
  | par :: _ =>
      let v := get (dropna ser) par in
      if negb (isnull v) then [k ++ ": " ++ format v] else []
  | [] => []
  end =
  match filter (fun par => String.eqb (lower par) (lower k)) (index ser) with
  | par :: _ =>
      let v := get ser par in
      if negb (isnull v) then [k ++ ": " ++ format v] else []
  | [] => []
  end.
Proof.
  destruct (in_dec string_dec (lower k) (map lower (index ser))) as [Hk|Hk].
  - apply in_map_iff in Hk. destruct Hk as (par & Ep & Hpar).
    rewrite <- Ep. rewrite (@filter_lower_single (index ser) par distinct Hpar).
    apply index_In in Hpar. destruct Hpar as (v & Hv).
    destruct (lookup_dropna par v Hv) as [Hnn Hn]. cbv zeta.
    destruct (isnull v) eqn:E.
    + destruct (Hn eq_refl) as (Hm & ->). rewrite E. cbn [negb].
      rewrite filter_lower_none; [reflexivity|].
      intros p Hp Hl.
      assert (p = par).
      { assert (Hp' : In p (index ser)).
        { apply index_In in Hp. destruct Hp as (w & Hw). apply dropna_In in Hw.
          apply index_In. exists w. tauto. }
        assert (Hpar' : In par (index ser)) by (apply index_In; now exists v).
        pose proof (@filter_lower_single (index ser) par distinct Hpar') as F.
        assert (Hf : In p (filter (fun q => String.eqb (lower q) (lower par)) (index ser))).
        { apply filter_In. split; [exact Hp'|]. now apply String.eqb_eq. }
        rewrite F in Hf. destruct Hf as [<-|[]]. reflexivity. }
      subst p. apply mem_In in Hp. congruence.
    + destruct (Hnn eq_refl) as (Hm & Eg & ->). apply mem_In in Hm.
      rewrite (@filter_lower_single (index (dropna ser)) par distinct_dropna Hm). now rewrite Eg.
  - rewrite !filter_lower_none; [reflexivity| |].
    + intros p Hp E. apply Hk. rewrite <- E. now apply in_map.
    + intros p Hp E. apply Hk. rewrite <- E. apply in_map.
      apply index_In in Hp. destruct Hp as (w & Hw). apply dropna_In in Hw.
      apply index_In. exists w. tauto.
Qed.

Lemma path_lines_dropna : path_lines (dropna ser) = path_lines ser.
Proof.
  unfold path_lines. cbn [flat_map]. now rewrite !path_dropna.
Qed.

End DropNA.

(** A missing value is as good as an absent label: for a record whose labels
    differ even when the case of letters is ignored and whose title, if it has
    one, is not missing, [to_meltsfile] writes (or raises) the same with and
    without the entries that hold NaN or None. *)
Theorem missing_is_absent (ox el : list string) (ser : series) (sep : string)
    (wt : bool) (modes exclude : list string) :
  NoDup (map lower (index ser)) ->
  (forall k v, In (k, v) ser -> lower k = "title" -> isnull v = false) ->
  to_meltsfile ox el (dropna ser) sep wt modes exclude =
  to_meltsfile ox el ser sep wt modes exclude.
Proof.
  intros Hnd Htitle. unfold to_meltsfile.
  rewrite !(@component_lines_dropna ser Hnd).
  rewrite (@parameter_lines_dropna ser Hnd), (@path_lines_dropna ser Hnd).
  assert (T : forall k, lower k = "title" ->
            mem k (index (dropna ser)) = mem k (index ser) /\
            (mem k (index ser) = true -> get (dropna ser) k = get ser k)).
  { intros k Hk. destruct (in_dec string_dec k (index ser)) as [Hin|Hin].
    - apply index_In in Hin. destruct Hin as (v & Hv).
      destruct (@lookup_dropna ser Hnd k v Hv) as [Hnn _].
      destruct (Hnn (Htitle k v Hv Hk)) as (E1 & E2 & E3).
      rewrite E1, E2, E3. split; [|reflexivity].
      symmetry. apply mem_In, index_In. now exists v.
    - rewrite (@absent_dropna ser k Hin), (@absent_mem ser k Hin). split; [reflexivity|discriminate]. }
  destruct (T "Title" eq_refl) as [M1 G1]. destruct (T "title" eq_refl) as [M2 G2].
  rewrite M1, M2.
  destruct (mem "Title" (index ser)) eqn:E1.
  - rewrite (G1 eq_refl). reflexivity.
  - destruct (mem "title" (index ser)) eqn:E2; [|reflexivity].
    rewrite (G2 eq_refl). reflexivity.
Qed.

Lemma missing_is_absent_witness :
  let ser := [("SiO2", VInt 50); ("MgO", VNaN); ("Title", VStr "A"); ("La", VNone);
              ("Final Pressure", VNaN); ("Log fO2 Path", VNaN); ("dp/dt", VInt 3)] in
  to_meltsfile ["SiO2"; "MgO"] ["La"] (dropna ser) CRLF true ["isobaric"] [] =
  to_meltsfile ["SiO2"; "MgO"] ["La"] ser CRLF true ["isobaric"] [].
Proof.
  apply (@missing_is_absent ["SiO2"; "MgO"] ["La"]
           [("SiO2", VInt 50); ("MgO", VNaN); ("Title", VStr "A"); ("La", VNone);
            ("Final Pressure", VNaN); ("Log fO2 Path", VNaN); ("dp/dt", VInt 3)]
           CRLF true ["isobaric"] []).
  - repeat (apply NoDup_cons; [simpl; intuition discriminate|]). apply NoDup_nil.
  - intros k v Hin Hk. simpl in Hin.
    repeat (destruct Hin as [[= <- <-]|Hin]; [first [reflexivity | discriminate Hk]|]).
    contradiction.
Defined.

Lemma snoc_append (s : string) (c : ascii) (t : string) : snoc s c ++ t = s ++ String c t.
Proof. unfold snoc. rewrite append_assoc. reflexivity. Qed.

Lemma free_of_app (p : ascii -> bool) (a b : string) :
  free_of p (a ++ b) = free_of p a && free_of p b.
Proof.
  induction a as [|c a IH]; [reflexivity|].
  cbn [append free_of]. rewrite IH. now rewrite andb_assoc.
Qed.

Lemma linebreak_is_space (c : ascii) : is_linebreak c = true -> is_space c = true.
Proof.
  unfold is_linebreak, is_space. generalize (nat_of_ascii c). intros n.
  do 161 (destruct n as [|n]; [try reflexivity; try discriminate|]). discriminate.
Qed.

Lemma free_of_weaken (p q : ascii -> bool) (s : string) :
  (forall c, q c = true -> p c = true) -> free_of p s = true -> free_of q s = true.
Proof.
  intros H. induction s as [|c s IH]; [reflexivity|].
  cbn [free_of]. rewrite !andb_true_iff, !negb_true_iff. intros [Hc Hs].
  split; [|now apply IH]. destruct (q c) eqn:E; [|reflexivity].
  apply H in E. congruence.
Qed.

(** *** [splitlines] *)

Lemma splitlines_from_safe (l cur rest : string) :
  free_of is_linebreak l = true ->
  splitlines_from cur (l ++ rest) = splitlines_from (cur ++ l) rest.
Proof.
  revert cur. induction l as [|c l IH]; intros cur Hl.
  - now rewrite append_nil_r.
  - cbn [free_of] in Hl. apply andb_true_iff in Hl. destruct Hl as [Hc Hl].
    apply negb_true_iff in Hc. cbn [append splitlines_from].
    assert (Ec : Ascii.eqb c "013" = false).
    { destruct (Ascii.eqb c "013") eqn:E; [|reflexivity].
      apply Ascii.eqb_eq in E. subst c. discriminate. }
    rewrite Ec, Hc, IH by exact Hl. now rewrite snoc_append.
Qed.

Lemma splitlines_from_sep (sep cur rest : string) :
  sep = LF \/ sep = CRLF ->
  splitlines_from cur (sep ++ rest) = cur :: splitlines_from "" rest.
Proof. intros [-> | ->]; reflexivity. Qed.

Lemma splitlines_from_end (cur : string) :
  splitlines_from cur "" = if String.eqb cur "" then [] else [cur].
Proof. destruct cur; reflexivity. Qed.

Lemma nonblank_empty : nonblank "" = false.
Proof. reflexivity. Qed.

(** The lines of a joined text that are not blank are the lines that were
    joined and are not blank. *)
Lemma splitlines_concat (sep : string) (lines : list string) :
  sep = LF \/ sep = CRLF ->
  Forall (fun l => free_of is_linebreak l = true) lines ->
  filter nonblank (splitlines (String.concat sep lines)) = filter nonblank lines.
Proof.
  intros Hsep Hl. unfold splitlines.
  induction Hl as [|x lines Hx Hl IH]; [reflexivity|].
  destruct lines as [|y lines].
  - cbn [String.concat]. rewrite <- (append_nil_r x) at 1.
    rewrite splitlines_from_safe by exact Hx. cbn [append].
    rewrite splitlines_from_end. destruct (String.eqb x "") eqn:E; [|reflexivity].
    apply String.eqb_eq in E. subst x. reflexivity.
  - rewrite concat_cons2, splitlines_from_safe by exact Hx. cbn [append].
    rewrite splitlines_from_sep by exact Hsep. cbn [filter]. now rewrite IH.
Qed.

(** *** [split(": ")] *)

Lemma split_colon_from_free (s cur rest : string) :
  free_of is_colon s = true ->
  split_colon_from cur (s ++ rest) = split_colon_from (cur ++ s) rest.
Proof.
  revert cur. induction s as [|c s IH]; intros cur Hs.
  - now rewrite append_nil_r.
  - cbn [free_of] in Hs. apply andb_true_iff in Hs. destruct Hs as [Hc Hs].
    apply negb_true_iff in Hc. unfold is_colon in Hc.
    cbn [append split_colon_from]. rewrite Hc, IH by exact Hs. now rewrite snoc_append.
Qed.

Lemma split_colon_field (key payload : string) :
  free_of is_colon key = true -> free_of is_colon payload = true ->
  split_colon (key ++ ": " ++ payload) = [key; payload].
Proof.
  intros Hk Hp. unfold split_colon.
  rewrite split_colon_from_free by exact Hk. cbn [append split_colon_from Ascii.eqb Bool.eqb].
  f_equal. rewrite <- (append_nil_r payload) at 1.
  rewrite split_colon_from_free by exact Hp. reflexivity.
Qed.

(** *** [strip] and [split()] *)

Lemma reverse_app (a b : string) : reverse (a ++ b) = reverse b ++ reverse a.
Proof.
  unfold reverse.
  assert (L : forall x y, list_ascii_of_string (x ++ y) =
                          (list_ascii_of_string x ++ list_ascii_of_string y)%list).
  { intros x y. induction x as [|c x IH]; [reflexivity|]. cbn. now rewrite IH. }
  assert (S : forall x y, string_of_list_ascii (x ++ y)%list =
                          string_of_list_ascii x ++ string_of_list_ascii y).
  { intros x y. induction x as [|c x IH]; [reflexivity|]. cbn. now rewrite IH. }
  now rewrite L, rev_app_distr, S.
Qed.

Lemma reverse_involutive (s : string) : reverse (reverse s) = s.
Proof.
  unfold reverse. rewrite list_ascii_of_string_of_list_ascii, rev_involutive.
  apply string_of_list_ascii_of_string.
Qed.

Lemma reverse_single (c : ascii) : reverse (String c "") = String c "".
Proof. reflexivity. Qed.

Lemma reverse_cons (c : ascii) (s : string) : reverse (String c s) = reverse s ++ String c "".
Proof. change (String c s) with (String c "" ++ s). now rewrite reverse_app. Qed.

Lemma free_of_reverse (p : ascii -> bool) (s : string) : free_of p (reverse s) = free_of p s.
Proof.
  induction s as [|c s IH]; [reflexivity|].
  rewrite reverse_cons, free_of_app, IH. cbn [free_of]. rewrite andb_true_r. apply andb_comm.
Qed.

Lemma reverse_empty (s : string) : reverse s = "" -> s = "".
Proof. intros E. rewrite <- (reverse_involutive s), E. reflexivity. Qed.

Lemma word_parts (s : string) :
  word s = true <-> s <> "" /\ free_of is_space s = true /\ free_of is_colon s = true.
Proof.
  unfold word. rewrite !andb_true_iff, negb_true_iff, String.eqb_neq. tauto.
Qed.

Lemma lstrip_solid (w rest : string) :
  w <> "" -> free_of is_space w = true -> lstrip (w ++ rest) = w ++ rest.
Proof.
  intros Hne Hw. destruct w as [|c w]; [congruence|].
  cbn [free_of] in Hw. apply andb_true_iff in Hw. destruct Hw as [Hc _].
  apply negb_true_iff in Hc. cbn [append lstrip]. now rewrite Hc.
Qed.

(** A text that begins and ends with a solid run is its own [strip]. *)
Lemma strip_between (a mid b : string) :
  a <> "" -> free_of is_space a = true ->
  b <> "" -> free_of is_space b = true ->
  strip (a ++ mid ++ b) = a ++ mid ++ b.
Proof.
  intros Ha Sa Hb Sb. unfold strip.
  rewrite lstrip_solid by assumption.
  rewrite <- append_assoc, reverse_app.
  rewrite lstrip_solid.
  - rewrite <- reverse_app, reverse_involutive. reflexivity.
  - intros E. apply reverse_empty in E. contradiction.
  - now rewrite free_of_reverse.
Qed.

Lemma strip_solid (w : string) : free_of is_space w = true -> strip w = w.
Proof.
  intros Hw. destruct (string_dec w "") as [->|Hne]; [reflexivity|].
  unfold strip. rewrite <- (append_nil_r w) at 1. rewrite lstrip_solid by assumption.
  rewrite append_nil_r. rewrite <- (append_nil_r (reverse w)).
  rewrite lstrip_solid.
  - rewrite append_nil_r. apply reverse_involutive.
  - intros E. apply reverse_empty in E. contradiction.
  - now rewrite free_of_reverse.
Qed.

Lemma lstrip_blank (s : string) :
  lstrip s = "" -> forall c rest, s <> String c rest \/ is_space c = true.
Proof.
  intros E c rest. destruct s as [|c' s']; [left; discriminate|].
  cbn [lstrip] in E. destruct (is_space c') eqn:Ec; [|discriminate].
  destruct (Ascii.eqb_spec c c') as [->|N]; [now right|left; congruence].
Qed.

(** A text that begins with a solid character is not blank. *)
Lemma nonblank_solid (c : ascii) (rest : string) :
  is_space c = false -> nonblank (String c rest) = true.
Proof.
  intros Hc. unfold nonblank, strip. apply negb_true_iff, String.eqb_neq.
  intros E. apply reverse_empty in E.
  cbn [lstrip] in E. rewrite Hc in E.
  rewrite reverse_cons in E.
  assert (F : forall s, lstrip (s ++ String c "") <> "").
  { induction s as [|x s IH]; cbn [append lstrip].
    - now rewrite Hc.
    - destruct (is_space x); [exact IH|discriminate]. }
  exact (F _ E).
Qed.

Lemma split_ws_from_solid (w cur rest : string) :
  free_of is_space w = true ->
  split_ws_from cur (w ++ rest) = split_ws_from (cur ++ w) rest.
Proof.
  revert cur. induction w as [|c w IH]; intros cur Hw.
  - now rewrite append_nil_r.
  - cbn [free_of] in Hw. apply andb_true_iff in Hw. destruct Hw as [Hc Hw].
    apply negb_true_iff in Hc. cbn [append split_ws_from].
    rewrite Hc, IH by exact Hw. now rewrite snoc_append.
Qed.

Lemma split_ws_pair (k v : string) :
  k <> "" -> free_of is_space k = true ->
  v <> "" -> free_of is_space v = true ->
  split_ws (k ++ " " ++ v) = [k; v].
Proof.
  intros Hk Sk Hv Sv. unfold split_ws.
  rewrite split_ws_from_solid by exact Sk. cbn [append split_ws_from is_space nat_of_ascii].
  destruct k as [|c k]; [congruence|]. cbn [append].
  change (split_ws_from "" v) with (split_ws_from "" v).
  f_equal. rewrite <- (append_nil_r v) at 1.
  rewrite split_ws_from_solid by exact Sv. cbn [append split_ws_from].
  destruct v; [congruence|reflexivity].
Qed.

Lemma format_lines_collect (lines : list (list string)) :
  format_lines lines = collect format_line lines.
Proof.
  induction lines as [|args lines IH]; [reflexivity|].
  cbn [format_lines collect]. unfold format_line at 1. fold keywords. now rewrite IH.
Qed.

Lemma column_joined (sep : string) (lines : list string) (rows : list (list string)) :
  sep = LF \/ sep = CRLF ->
  Forall2 reads lines rows ->
  column (Text (String.concat sep lines)) = second_column rows.
Proof.
  intros Hsep HF. unfold column.
  change (fun line => negb (String.eqb (strip line) "")) with nonblank.
  rewrite splitlines_concat; [|exact Hsep|].
  - assert (Hall : filter nonblank lines = lines).
    { clear -HF. induction HF as [|l r lines rows (_ & Hn & _) HF IH]; [reflexivity|].
      cbn [filter]. now rewrite Hn, IH. }
    rewrite Hall, format_lines_collect.
    assert (Hc : collect format_line (map split_colon lines) = Ok rows).
    { clear -HF. induction HF as [|l r lines rows (_ & _ & Hr) HF IH]; [reflexivity|].
      cbn [map collect]. now rewrite Hr, IH. }
    rewrite Hc. reflexivity.
  - clear -HF. induction HF as [|l r lines rows (Hs & _ & _) HF IH]; constructor; assumption.
Qed.

Lemma second_column_pairs (A : Type) (key payload : A -> string) (l : list A) :
  l <> [] ->
  second_column (map (fun a => [key a; payload a]) l) =
  Ok (map (fun a => (Some (key a), VStr (payload a))) l).
Proof.
  intros Hne. unfold second_column.
  destruct l as [|a l]; [congruence|]. cbn [map existsb length Nat.leb orb].
  f_equal. cbn [nth_error]. f_equal. rewrite map_map. reflexivity.
Qed.

Lemma nonblank_starts (a b : string) : starts_solid a = true -> nonblank (a ++ b) = true.
Proof.
  destruct a as [|c a]; [discriminate|]. cbn [starts_solid append].
  intros H. apply negb_true_iff in H. now apply nonblank_solid.
Qed.

Lemma word_solid (w : string) : word w = true -> starts_solid w = true.
Proof.
  intros H. apply word_parts in H. destruct H as (Hne & Hs & _).
  destruct w as [|c w]; [congruence|]. cbn [free_of] in Hs.
  apply andb_true_iff in Hs. now destruct Hs.
Qed.

Lemma space_free_line (w : string) : free_of is_space w = true -> free_of is_linebreak w = true.
Proof. apply free_of_weaken. exact linebreak_is_space. Qed.

(** A line [label: payload]. *)
Lemma reads_field (key payload : string) :
  label_ok key = true -> plain payload = true ->
  reads (key ++ ": " ++ payload) [key; strip payload].
Proof.
  unfold label_ok, plain. rewrite !andb_true_iff, negb_true_iff, String.eqb_eq.
  intros ((((Kc & Kl) & Ks) & Kk) & Kb) (Pl & Pc).
  split; [|split].
  - rewrite !free_of_app, Kl, Pl. reflexivity.
  - now apply nonblank_starts.
  - rewrite split_colon_field by assumption. unfold format_line. cbn [nth].
    rewrite Kk. cbn [map]. now rewrite Ks.
Qed.

(** A line [prefix: component value]. *)
Lemma reads_component (prefix k v : string) :
  prefix = "Initial Composition" \/ prefix = "Initial Trace" ->
  word k = true -> word v = true ->
  reads (prefix ++ ": " ++ k ++ " " ++ v) [k; strip v].
Proof.
  intros Hp Hk Hv. apply word_parts in Hk, Hv.
  destruct Hk as (Kn & Ks & Kc), Hv as (Vn & Vs & Vc).
  assert (Pc : free_of is_colon (k ++ " " ++ v) = true).
  { rewrite !free_of_app, Kc, Vc. reflexivity. }
  split; [|split].
  - rewrite !free_of_app, (space_free_line _ Ks), (space_free_line _ Vs).
    destruct Hp as [-> | ->]; reflexivity.
  - apply nonblank_starts. destruct Hp as [-> | ->]; reflexivity.
  - rewrite split_colon_field; [|destruct Hp as [-> | ->]; reflexivity|exact Pc].
    unfold format_line. cbn [nth].
    assert (Ek : mem (lower (strip prefix)) keywords = true)
      by (destruct Hp as [-> | ->]; reflexivity).
    rewrite Ek, strip_between, split_ws_pair by assumption.
    now rewrite (strip_solid _ Vs).
Qed.

Lemma flat_map_singletons (A B : Type) (Q : A -> bool) (F : A -> B) (l : list A) :
  flat_map (fun a => if Q a then [F a] else []) l = map F (filter Q l).
Proof.
  induction l as [|a l IH]; [reflexivity|].
  cbn [flat_map filter]. destruct (Q a); cbn [map app]; now rewrite IH.
Qed.

Lemma map_flat_map (A B C : Type) (g : B -> C) (h : A -> list B) (l : list A) :
  map g (flat_map h l) = flat_map (fun a => map g (h a)) l.
Proof.
  induction l as [|a l IH]; [reflexivity|].
  cbn [flat_map]. now rewrite map_app, IH.
Qed.

Lemma component_lines_fields (prefix : string) (table exclude : list string) (ser : series) :
  NoDup (index ser) ->
  component_lines prefix table exclude ser =
  map (component_line prefix) (component_fields table exclude ser).
Proof.
  intros Hnd. rewrite component_lines_entries by exact Hnd.
  unfold component_fields. rewrite <- flat_map_singletons.
  apply flat_map_pointwise. intros [k v] _. cbn [fst snd].
  destruct (mem k table && negb (mem k exclude)), (negb (isnull v)); reflexivity.
Qed.

Lemma parameter_line_field (ser : series) (k : string) :
  (if mem k (index ser)
   then let v := get ser k in if negb (isnull v) then [k ++ ": " ++ format v] else []
   else []) =
  map field_line
    (if mem k (index ser) && negb (isnull (get ser k)) then [(k, get ser k)] else []).
Proof.
  destruct (mem k (index ser)); [|reflexivity].
  cbv zeta. destruct (negb (isnull (get ser k))); reflexivity.
Qed.

Lemma parameter_lines_fields (ser : series) :
  parameter_lines ser = map field_line (parameter_fields ser).
Proof.
  unfold parameter_fields. rewrite map_flat_map. unfold parameter_lines, parameter_labels.
  cbn [flat_map app]. rewrite !parameter_line_field. cbn [append].
  rewrite !app_nil_r, <- !app_assoc. reflexivity.
Qed.

Lemma path_lines_fields (ser : series) :
  path_lines ser = map field_line (path_fields ser).
Proof.
  unfold path_fields. rewrite map_flat_map. unfold path_lines, path_labels.
  apply flat_map_pointwise. intros k _.
  destruct (filter (fun par => String.eqb (lower par) (lower k)) (index ser)) as [|par l];
    [reflexivity|].
  cbv zeta. destruct (negb (isnull (get ser par))); reflexivity.
Qed.

Lemma mode_lines_fields (modes : list string) :
  map (fun m => "Mode: " ++ m) modes = map field_line (mode_fields modes).
Proof. unfold mode_fields. rewrite map_map. reflexivity. Qed.

Lemma Forall2_map_both (A B C : Type) (R : B -> C -> Prop) (f : A -> B) (g : A -> C)
    (l : list A) :
  (forall a, In a l -> R (f a) (g a)) -> Forall2 R (map f l) (map g l).
Proof.
  induction l as [|a l IH]; intros H; cbn [map]; constructor.
  - apply H. now left.
  - apply IH. intros b Hb. apply H. now right.
Qed.

Lemma parameter_fields_labels (ser : series) (f : string * value) :
  In f (parameter_fields ser) -> In (fst f) parameter_labels.
Proof.
  unfold parameter_fields. intros H. apply in_flat_map in H. destruct H as (k & Hk & Hf).
  destruct (mem k (index ser) && negb (isnull (get ser k))); [|contradiction].
  destruct Hf as [<-|[]]. exact Hk.
Qed.

Lemma path_fields_labels (ser : series) (f : string * value) :
  In f (path_fields ser) -> In (fst f) path_labels.
Proof.
  unfold path_fields. intros H. apply in_flat_map in H. destruct H as (k & Hk & Hf).
  destruct (filter (fun par => String.eqb (lower par) (lower k)) (index ser)) as [|par l];
    [contradiction|].
  destruct (negb (isnull (get ser par))); [|contradiction].
  destruct Hf as [<-|[]]. exact Hk.
Qed.

Lemma labels_ok (k : string) :
  k = "Title" \/ k = "Mode" \/ In k parameter_labels \/ In k path_labels -> label_ok k = true.
Proof.
  unfold parameter_labels, path_labels.
  intros [->|[->|[H|H]]]; [reflexivity|reflexivity| |];
    cbn [In] in H; repeat (destruct H as [<-|H]; [reflexivity|]); contradiction.
Qed.

Section WriteRead.

Variable common_oxides : list string.
Variable common_elements : list string.
Variable decode : string -> result string.
Variable fs : string -> entry.

(** Every record is read back from the text that is written for it: a record
    with distinct labels and a title, whose written components are words with
    word values and whose other written values are plain texts, gives a text
    from which [from_meltsfile] reads the written fields, in the order of the
    lines: before the numeric coercion of [to_numeric], the column it has
    built holds each label with the printed value, stripped. *)
Theorem written_fields_read_back (ser : series) (sep : string) (writetraces : bool)
    (modes exclude : list string) :
  NoDup (index ser) ->
  has_title ser = true ->
  sep = LF \/ sep = CRLF ->
  Forall (fun f => word (fst f) && word (format (snd f)) = true)
         (components common_oxides common_elements ser writetraces exclude) ->
  Forall (fun f => plain (format (snd f)) = true)
         (title_field ser :: parameter_fields ser ++ path_fields ser ++ mode_fields modes)%list ->
  exists text,
    to_meltsfile common_oxides common_elements ser sep writetraces modes exclude = Ok text /\
    read_column decode fs (StringIO text) =
      Ok (map read_back (fields common_oxides common_elements ser writetraces modes exclude)) /\
    (fs text = Missing ->
     read_column decode fs (Str text) =
       Ok (map read_back (fields common_oxides common_elements ser writetraces modes exclude))).
Proof.
  intros Hnd Ht Hsep Hcomp Hplain.
  set (F := fields common_oxides common_elements ser writetraces modes exclude).
  set (lines := (field_line (title_field ser)
                 :: map (component_line "Initial Composition")
                      (component_fields common_oxides exclude ser) ++
                    (if writetraces
                     then map (component_line "Initial Trace")
                            (component_fields common_elements exclude ser)
                     else []) ++
                    map field_line (parameter_fields ser) ++
                    map field_line (path_fields ser) ++
                    map field_line (mode_fields modes))%list).
  assert (Ew : to_meltsfile common_oxides common_elements ser sep writetraces modes exclude
               = Ok (String.concat sep lines)).
  { unfold to_meltsfile. unfold has_title in Ht. rewrite Ht.
    rewrite !component_lines_fields by exact Hnd.
    rewrite parameter_lines_fields, path_lines_fields, mode_lines_fields.
    unfold lines, field_line at 1, title_field.
    destruct (mem "Title" (index ser)), writetraces; reflexivity. }
  apply Forall_cons_iff in Hplain. destruct Hplain as [Ptitle Hplain].
  apply Forall_app in Hplain. destruct Hplain as [Pparam Hplain].
  apply Forall_app in Hplain. destruct Hplain as [Ppath Pmode].
  unfold components in Hcomp. apply Forall_app in Hcomp. destruct Hcomp as [Cox Cel].
  assert (Hrows : Forall2 reads lines (map row_of F)).
  { unfold lines, F, fields, components. cbn [map].
    rewrite <- !app_assoc, !map_app.
    constructor.
    - apply reads_field; [apply labels_ok|exact Ptitle].
      unfold title_field. destruct (mem "Title" (index ser)); now left.
    - apply Forall2_app; [|apply Forall2_app; [|apply Forall2_app; [|apply Forall2_app]]].
      + apply Forall2_map_both. intros f Hf. rewrite Forall_forall in Cox.
        specialize (Cox f Hf). apply andb_true_iff in Cox. destruct Cox.
        apply reads_component; auto.
      + destruct writetraces; [|constructor].
        apply Forall2_map_both. intros f Hf. rewrite Forall_forall in Cel.
        specialize (Cel f Hf). apply andb_true_iff in Cel. destruct Cel.
        apply reads_component; auto.
      + apply Forall2_map_both. intros f Hf. rewrite Forall_forall in Pparam.
        apply reads_field; [|now apply Pparam].
        apply labels_ok. right. right. left. now apply parameter_fields_labels with ser.
      + apply Forall2_map_both. intros f Hf. rewrite Forall_forall in Ppath.
        apply reads_field; [|now apply Ppath].
        apply labels_ok. right. right. right. now apply path_fields_labels with ser.
      + apply Forall2_map_both. intros f Hf. rewrite Forall_forall in Pmode.
        apply reads_field; [|now apply Pmode].
        apply labels_ok. right. left.
        unfold mode_fields in Hf. apply in_map_iff in Hf. now destruct Hf as (m & <- & _). }
  assert (Hcol : column (Text (String.concat sep lines)) = Ok (map read_back F)).
  { rewrite (column_joined Hsep Hrows). unfold row_of.
    now rewrite second_column_pairs by (unfold F, fields; discriminate). }
  exists (String.concat sep lines). split; [exact Ew|]. split.
  - unfold read_column, read_source. cbn [bind]. exact Hcol.
  - intros Hfs. unfold read_column, read_source, open. rewrite Hfs. cbn [bind]. exact Hcol.
Qed.

End WriteRead.

Lemma written_fields_read_back_witness :
  let ser := [("Title", VStr "Sample 1"); ("SiO2", fifty_point_two); ("MgO", VNaN);
              ("La", VInt 12); ("Initial Temperature", VInt 1200);
              ("Log fO2 Path", VStr "FMQ")] in
  exists text,
    to_meltsfile ["SiO2"; "MgO"] ["La"] ser CRLF true ["isobaric"] [] = Ok text /\
    read_column Ok (fun _ => Missing) (StringIO text) =
      Ok (map read_back (fields ["SiO2"; "MgO"] ["La"] ser true ["isobaric"] [])) /\
    ((fun _ => Missing) text = Missing ->
     read_column Ok (fun _ => Missing) (Str text) =
       Ok (map read_back (fields ["SiO2"; "MgO"] ["La"] ser true ["isobaric"] []))).
Proof.
  apply (@written_fields_read_back ["SiO2"; "MgO"] ["La"] Ok (fun _ => Missing)
           [("Title", VStr "Sample 1"); ("SiO2", fifty_point_two); ("MgO", VNaN);
            ("La", VInt 12); ("Initial Temperature", VInt 1200);
            ("Log fO2 Path", VStr "FMQ")] CRLF true ["isobaric"] []).
  - repeat (apply NoDup_cons; [simpl; intuition discriminate|]). apply NoDup_nil.
  - reflexivity.
  - now right.
  - vm_compute. repeat constructor.
  - vm_compute. repeat constructor.
Defined.

(** What the example record is read back as, before the coercion. *)
Example read_back_example :
  map read_back
    (fields ["SiO2"; "MgO"] ["La"]
       [("Title", VStr "Sample 1"); ("SiO2", fifty_point_two); ("MgO", VNaN);
        ("La", VInt 12); ("Initial Temperature", VInt 1200); ("Log fO2 Path", VStr "FMQ")]
       true ["isobaric"] []) =
  [(Some "Title", VStr "Sample 1"); (Some "SiO2", VStr "50.2"); (Some "La", VStr "12");
   (Some "Initial Temperature", VStr "1200"); (Some "log fo2 path", VStr "FMQ");
   (Some "Mode", VStr "isobaric")].
Proof. reflexivity. Qed.

Section Reading.

Variable decode : string -> result string.
Variable fs : string -> entry.

(** [from_meltsfile] does not see how the lines of a text are ended, nor its
    blank lines: two texts, joined with line feeds or with carriage return and
    line feed, are read alike when their lines that are not blank are the
    same. *)
Theorem reading_ignores_line_endings (sep sep' : string) (lines lines' : list string) :
  sep = LF \/ sep = CRLF ->
  sep' = LF \/ sep' = CRLF ->
  Forall (fun l => free_of is_linebreak l = true) lines ->
  Forall (fun l => free_of is_linebreak l = true) lines' ->
  filter nonblank lines = filter nonblank lines' ->
  from_meltsfile decode fs (StringIO (String.concat sep lines)) =
  from_meltsfile decode fs (StringIO (String.concat sep' lines')).
Proof.
  intros Hs Hs' Hl Hl' E. unfold from_meltsfile, read_source. cbn [bind]. unfold parse, column.
  change (fun line => negb (String.eqb (strip line) "")) with nonblank.
  now rewrite !splitlines_concat, E by assumption.
Qed.

Lemma format_line_raises (args : list string) :
  format_line args = Raise IndexError \/ exists row, format_line args = Ok row.
Proof.
  unfold format_line. destruct (mem (lower (strip (nth 0 args ""))) keywords).
  - destruct args as [|a [|b l]]; [now left|now left|right; eexists; reflexivity].
  - right. eexists. reflexivity.
Qed.

(** A line that is nothing but [Initial Composition] or [Initial Trace], in
    any case of letters and with no [": "] after it, makes [from_meltsfile]
    raise an [IndexError], wherever the line stands in the text. *)
Theorem bare_keyword_raises (s l : string) :
  In l (splitlines s) ->
  split_colon l = [l] ->
  mem (lower (strip l)) keywords = true ->
  from_meltsfile decode fs (StringIO s) = Raise IndexError.
Proof.
  intros Hin Hsplit Hkey. unfold from_meltsfile, read_source. cbn [bind]. unfold parse, column.
  change (fun line => negb (String.eqb (strip line) "")) with nonblank.
  rewrite format_lines_collect.
  rewrite (@collect_raise _ _ format_line _ IndexError); [reflexivity| |].
  - intros args _. apply format_line_raises.
  - exists [l]. split.
    + rewrite <- Hsplit. apply in_map. apply filter_In. split; [exact Hin|].
      unfold nonblank. apply negb_true_iff, String.eqb_neq. intros E.
      rewrite E in Hkey. discriminate.
    + unfold format_line. cbn [nth]. now rewrite Hkey.
Qed.

(** A text in which no line holds the separator [": "], an empty or a blank
    text among them, makes [from_meltsfile] raise a [KeyError]: the table of
    its lines has no second column. *)
Theorem no_separator_raises (s : string) :
  Forall (fun l => split_colon l = [l] /\ mem (lower (strip l)) keywords = false)
         (filter nonblank (splitlines s)) ->
  from_meltsfile decode fs (StringIO s) = Raise KeyError.
Proof.
  intros Hall. unfold from_meltsfile, read_source. cbn [bind]. unfold parse, column.
  change (fun line => negb (String.eqb (strip line) "")) with nonblank.
  rewrite format_lines_collect.
  assert (E : collect format_line (map split_colon (filter nonblank (splitlines s)))
              = Ok (map (fun l => [strip l]) (filter nonblank (splitlines s)))).
  { induction Hall as [|l ls [Hs Hk] Hall IH]; [reflexivity|].
    cbn [map collect]. rewrite Hs. unfold format_line at 1. cbn [nth]. rewrite Hk.
    cbn [bind map]. now rewrite IH. }
  rewrite E. cbn [bind]. unfold second_column.
  assert (N : existsb (fun r : list string => Nat.leb 2 (length r))
                (map (fun l => [strip l]) (filter nonblank (splitlines s))) = false).
  { clear. induction (filter nonblank (splitlines s)) as [|l ls IH]; [reflexivity|].
    cbn [map existsb]. rewrite IH. reflexivity. }
  now rewrite N.
Qed.

End Reading.

Lemma reading_ignores_line_endings_witness :
  from_meltsfile Ok (fun _ => Missing)
    (StringIO (String.concat LF ["Title: A"; ""; "Initial Composition: SiO2 50.2"; "   "])) =
  from_meltsfile Ok (fun _ => Missing)
    (StringIO (String.concat CRLF ["Title: A"; "Initial Composition: SiO2 50.2"])).
Proof.
  apply (@reading_ignores_line_endings Ok (fun _ => Missing) LF CRLF
           ["Title: A"; ""; "Initial Composition: SiO2 50.2"; "   "]
           ["Title: A"; "Initial Composition: SiO2 50.2"]).
  - now left.
  - now right.
  - repeat constructor.
  - repeat constructor.
  - reflexivity.
Defined.

Lemma bare_keyword_raises_witness :
  from_meltsfile Ok (fun _ => Missing)
    (StringIO ("Title: A" ++ LF ++ "  initial TRACE " ++ LF ++ "Mode: isobaric")) =
  Raise IndexError.
Proof.
  apply (@bare_keyword_raises Ok (fun _ => Missing)
           ("Title: A" ++ LF ++ "  initial TRACE " ++ LF ++ "Mode: isobaric")
           "  initial TRACE ").
  - vm_compute. right. left. reflexivity.
  - vm_compute. reflexivity.
  - vm_compute. reflexivity.
Defined.

Lemma no_separator_raises_witness :
  from_meltsfile Ok (fun _ => Missing) (StringIO "") = Raise KeyError /\
  from_meltsfile Ok (fun _ => Missing) (StringIO ("Title:A" ++ LF ++ "  " ++ LF ++ "SiO2 50")) =
  Raise KeyError.
Proof.
  split.
  - apply (@no_separator_raises Ok (fun _ => Missing) ""). constructor.
  - apply (@no_separator_raises Ok (fun _ => Missing) ("Title:A" ++ LF ++ "  " ++ LF ++ "SiO2 50")).
    repeat constructor.
Defined.

Lemma split_colon_cons (key rest : string) :
  free_of is_colon key = true ->
  split_colon (key ++ ": " ++ rest) = key :: split_colon rest.
Proof.
  intros Hk. unfold split_colon.
  rewrite split_colon_from_free by exact Hk.
  cbn [append split_colon_from Ascii.eqb Bool.eqb]. reflexivity.
Qed.

Section Cut.

Variable decode : string -> result string.
Variable fs : string -> entry.

(** A value is cut at its first [": "]: on a line [label: value: rest] the
    reader keeps [value] and drops [rest] without a word, so a title such as
    [Run 7: basalt] is read as [Run 7]: the column [from_meltsfile] hands to
    [to_numeric] holds the label with [value], stripped. *)
Theorem value_cut_at_separator (key value rest : string) :
  label_ok key = true -> plain value = true -> free_of is_linebreak rest = true ->
  read_column decode fs (StringIO (key ++ ": " ++ value ++ ": " ++ rest)) =
  Ok [(Some key, VStr (strip value))].
Proof.
  unfold label_ok, plain. rewrite !andb_true_iff, negb_true_iff, String.eqb_eq.
  intros ((((Kc & Kl) & Ks) & Kk) & Kb) (Pl & Pc) Rl.
  unfold read_column, read_source. cbn [bind]. unfold column.
  change (fun line => negb (String.eqb (strip line) "")) with nonblank.
  set (line := key ++ ": " ++ value ++ ": " ++ rest).
  assert (Hlines : filter nonblank (splitlines line) = [line]).
  { change line with (String.concat LF [line]) at 1.
    rewrite splitlines_concat.
    - cbn [filter]. unfold line. now rewrite (@nonblank_starts key _ Kb).
    - now left.
    - constructor; [|constructor]. unfold line.
      rewrite !free_of_app, Kl, Pl, Rl. reflexivity. }
  rewrite Hlines. cbn [map]. unfold line.
  rewrite (@split_colon_cons key _ Kc), (@split_colon_cons value _ Pc).
  rewrite format_lines_collect. cbn [collect]. unfold format_line. cbn [nth].
  rewrite Kk. cbn [bind map]. unfold second_column.
  cbn [existsb length Nat.leb orb map nth_error]. now rewrite Ks.
Qed.

End Cut.

Lemma value_cut_at_separator_witness :
  read_column Ok (fun _ => Missing) (StringIO ("Title" ++ ": " ++ "Run 7" ++ ": " ++ "basalt")) =
  Ok [(Some "Title", VStr (strip "Run 7"))].
Proof.
  apply (@value_cut_at_separator Ok (fun _ => Missing) "Title" "Run 7" "basalt");
    vm_compute; reflexivity.
Defined.

End CodecFacts.
